(** * PolicyGenius X: the retrieval pipeline of [main.py]

    A shallow embedding of the text chunker, the rule-based answer
    synthesizer, the document cache and the query orchestrator of
    [src/main.py], with the properties the specification states about them.

    Python [str] values are modelled as [string]; a character is a code
    point below 256.  Python [int] values are modelled as [Z] and floats as
    [spec_float].  The chunk dictionaries, which are shared by reference
    between the cache, the retrieved lists and the response, live in an
    explicit heap.  Exceptions are values of a result type.  The libraries
    the service calls (HTTP client, PDF reader, embedding model, FAISS, the
    generative backend) are parameters.  Logging, authentication and the
    wall-clock [processing_time] are left out. *)

From Stdlib Require Import ZArith Ascii String DecimalString SpecFloat.
From stdpp Require Import gmap strings list.

Local Open Scope Z_scope.

(** ** Python string primitives *)

Module PyStr.

(** [str.isspace] on one character, for code points below 256:
    TAB, LF, VT, FF, CR, FS, GS, RS, US, SPACE, NEL and NBSP. *)
Definition isspace (c : ascii) : bool :=
  match N_of_ascii c with
  | 9%N | 10%N | 11%N | 12%N | 13%N
  | 28%N | 29%N | 30%N | 31%N | 32%N
  | 133%N | 160%N => true
  | _ => false
  end.

(** [len(s)] *)
Definition len (s : string) : Z := Z.of_nat (String.length s).

(** Truth value of a string: non-empty. *)
Definition truthy (s : string) : bool :=
  match s with "" => false | String _ _ => true end.

(** [s.lstrip()] *)
Fixpoint lstrip (s : string) : string :=
  match s with
  | "" => ""
  | String c s' => if isspace c then lstrip s' else s
  end.

(** [s.rstrip()] *)
Fixpoint rstrip (s : string) : string :=
  match s with
  | "" => ""
  | String c s' =>
      match rstrip s' with
      | "" => if isspace c then "" else String c ""
      | r => String c r
      end
  end.

(** [s.strip()] *)
Definition strip (s : string) : string := rstrip (lstrip s).

(** [s.split()]: maximal runs of non-whitespace characters. *)
Fixpoint split_ws_go (cur : option string) (s : string) : list string :=
  match s with
  | "" => option_list (String.rev <$> cur)
  | String a s' =>
      if isspace a
      then option_list (String.rev <$> cur) ++ split_ws_go None s'
      else split_ws_go (Some (String a (default "" cur))) s'
  end.
Definition split_ws (s : string) : list string := split_ws_go None s.

(** [s.split(sep)] for a non-empty separator: left to right, without
    overlap.  [skip] counts the separator characters still to drop and
    [acc] holds the current field, reversed. *)
Fixpoint split_go (sep : string) (skip : nat) (acc : string) (s : string)
  : list string :=
  match s with
  | "" => [String.rev acc]
  | String c s' =>
      match skip with
      | S k => split_go sep k acc s'
      | O =>
          if String.prefix sep s
          then String.rev acc :: split_go sep (String.length sep - 1) "" s'
          else split_go sep 0 (String c acc) s'
      end
  end.
Definition split (sep s : string) : list string := split_go sep 0 "" s.

(** [sep.join(ws)] *)
Fixpoint join (sep : string) (ws : list string) : string :=
  match ws with
  | [] => ""
  | [w] => w
  | w :: ws' => w +:+ sep +:+ join sep ws'
  end.

(** [ws[m:]] with Python's treatment of a negative or too large bound. *)
Definition slice_from {A} (m : Z) (ws : list A) : list A :=
  let n := Z.of_nat (length ws) in
  let start := if m <? 0 then Z.max (n + m) 0 else Z.min m n in
  drop (Z.to_nat start) ws.

(** [str(i)] for an [int]. *)
Definition of_int (i : Z) : string := NilZero.string_of_int (Z.to_int i).

(** [needle in hay] *)
Fixpoint contains (needle hay : string) : bool :=
  String.prefix needle hay ||
  match hay with
  | "" => false
  | String _ hay' => contains needle hay'
  end.

(** [s.lower()] on code points below 256: A-Z and the Latin-1 capitals
    (192-222 except the multiplication sign 215) move up by 32. *)
Definition lower_char (c : ascii) : ascii :=
  let n := N_of_ascii c in
  if ((65 <=? n) && (n <=? 90))%N then ascii_of_N (n + 32)
  else if ((192 <=? n) && (n <=? 222) && negb (n =? 215))%N
       then ascii_of_N (n + 32)
       else c.
Fixpoint lower (s : string) : string :=
  match s with
  | "" => ""
  | String c s' => String (lower_char c) (lower s')
  end.

Definition LF : string := String (ascii_of_nat 10) "".

End PyStr.

(** ** The text chunker

    [chunk_text] of [main.py], lines 114-148; [api/index.py] has the same
    function, line for line. *)

Record chunk := Chunk { chunk_id : Z; chunk_text_of : string; chunk_source : string }.

(** Loop state of [chunk_text]: [chunks], [current_chunk], [chunk_id]. *)
Record chunker_state := ChunkerState {
  st_chunks : list chunk;
  st_current : string;
  st_next_id : Z
}.

(** [{"id": chunk_id, "text": current_chunk.strip(), "source": f"chunk_{chunk_id}"}] *)
Definition make_chunk (cid : Z) (current_chunk : string) : chunk :=
  Chunk cid (PyStr.strip current_chunk) ("chunk_" +:+ PyStr.of_int cid).

(** [[p.strip() for p in text.split('\n\n') if p.strip()]] *)
Definition paragraphs_of (text : string) : list string :=
  omap (λ p, let q := PyStr.strip p in if PyStr.truthy q then Some q else None)
       (PyStr.split (PyStr.LF +:+ PyStr.LF) text).

(** The overlap seed computed at a flush (main.py lines 134-135). *)
Definition overlap_text_of (overlap : Z) (current_chunk : string) : string :=
  let words := PyStr.split_ws current_chunk in
  if Z.of_nat (length words) >? overlap / 10
  then PyStr.join " " (PyStr.slice_from ((- overlap) / 10) words)
  else "".

(** The flush test of the loop (main.py line 125). *)
Definition must_flush (chunk_size : Z) (current_chunk paragraph : string) : bool :=
  (PyStr.len current_chunk + PyStr.len paragraph >? chunk_size)
  && PyStr.truthy current_chunk.

(** One iteration of the [for paragraph in paragraphs] loop. *)
Definition chunk_step (chunk_size overlap : Z) (st : chunker_state)
    (paragraph : string) : chunker_state :=
  let current_chunk := st_current st in
  if must_flush chunk_size current_chunk paragraph then
    let overlap_text := overlap_text_of overlap current_chunk in
    ChunkerState
      (st_chunks st ++ [make_chunk (st_next_id st) current_chunk])
      (if PyStr.truthy overlap_text
       then overlap_text +:+ " " +:+ paragraph
       else paragraph)
      (st_next_id st + 1)
  else
    ChunkerState
      (st_chunks st)
      (if PyStr.truthy current_chunk
       then current_chunk +:+ (PyStr.LF +:+ PyStr.LF +:+ paragraph)
       else paragraph)
      (st_next_id st).

Definition chunker_init : chunker_state := ChunkerState [] "" 0.

Definition chunk_loop (chunk_size overlap : Z) (st : chunker_state)
    (paragraphs : list string) : chunker_state :=
  fold_left (chunk_step chunk_size overlap) paragraphs st.

(** The final flush (main.py lines 141-146). *)
Definition chunk_finish (st : chunker_state) : list chunk :=
  if PyStr.truthy (st_current st)
  then st_chunks st ++ [make_chunk (st_next_id st) (st_current st)]
  else st_chunks st.

Definition chunk_text (text : string) (chunk_size overlap : Z) : list chunk :=
  chunk_finish (chunk_loop chunk_size overlap chunker_init (paragraphs_of text)).

(** ** Auxiliary predicates on strings *)

(** The string starts with a character that is not whitespace. *)
Definition starts_solid (s : string) : bool :=
  match s with "" => false | String c _ => negb (PyStr.isspace c) end.

(** The string ends with a character that is not whitespace. *)
Fixpoint ends_solid (s : string) : bool :=
  match s with
  | "" => false
  | String c "" => negb (PyStr.isspace c)
  | String _ s' => ends_solid s'
  end.

(** No character of the string is whitespace. *)
Fixpoint nospace (s : string) : bool :=
  match s with
  | "" => true
  | String c s' => negb (PyStr.isspace c) && nospace s'
  end.

(** A word: non-empty and free of whitespace. *)
Definition is_word (s : string) : bool := PyStr.truthy s && nospace s.

(** [a] occurs in [b] as a contiguous substring. *)
Definition substring_of (a b : string) : Prop :=
  ∃ pre post, b = pre +:+ a +:+ post.

(** The last [n] elements of a list (all of it when it is shorter). *)
Definition trailing {A} (n : nat) (ws : list A) : list A :=
  drop (length ws - n) ws.

(** ** Invariants of the chunker loop *)

Definition solid (s : string) : Prop :=
  starts_solid s = true ∧ ends_solid s = true.

(** The running buffer is empty, or starts and ends with a solid character. *)
Definition cur_ok (cur : string) : Prop := cur = "" ∨ solid cur.

Definition chunker_inv (st : chunker_state) : Prop :=
  st_next_id st = Z.of_nat (length (st_chunks st)) ∧
  (∀ k c, st_chunks st !! k = Some c →
     chunk_id c = Z.of_nat k ∧
     chunk_source c = "chunk_" +:+ PyStr.of_int (Z.of_nat k)) ∧
  Forall (λ c, solid (chunk_text_of c)) (st_chunks st) ∧
  cur_ok (st_current st).

(** A group of whole paragraphs behind an overlap seed, and its text. *)
Definition group : Type := string * list string.

Definition render (g : group) : string :=
  fst g +:+ PyStr.join (PyStr.LF +:+ PyStr.LF) (snd g).

(** The seed that [chunk_step] puts in front of the paragraph after a flush. *)
Definition seed_of (overlap : Z) (current_chunk : string) : string :=
  let overlap_text := overlap_text_of overlap current_chunk in
  if PyStr.truthy overlap_text then overlap_text +:+ " " else "".

Definition groups_inv (st : chunker_state) (done : list string) : Prop :=
  ∃ (gs : list group) (og : option group),
    chunk_text_of <$> st_chunks st = render <$> gs ∧
    Forall (λ g, snd g ≠ []) gs ∧
    concat (snd <$> gs) ++ from_option snd [] og = done ∧
    match og with
    | None => st_current st = ""
    | Some g => st_current st = render g ∧ snd g ≠ [] ∧
                PyStr.truthy (st_current st) = true
    end.

(** The buffer after a flush as the specification words it: the trailing
    [overlap/10] words of the flushed buffer, then the paragraph; the
    paragraph alone when that overlap text is empty. *)
Definition seeded_as_specified (overlap : Z) (flushed paragraph : string) : string :=
  let overlap_text :=
    PyStr.join " " (trailing (Z.to_nat (overlap / 10)) (PyStr.split_ws flushed)) in
  if PyStr.truthy overlap_text
  then overlap_text +:+ " " +:+ paragraph
  else paragraph.

(** The buffer a flush should leave when [overlap] is [10 * n] with [n]
    positive: the last [n] words of the flushed buffer before the paragraph
    when the buffer has more than [n] words, the paragraph alone otherwise. *)
Definition seeded_buffer (n : nat) (flushed paragraph : string) : string :=
  let words := PyStr.split_ws flushed in
  if decide (n < length words)%nat
  then PyStr.join " " (trailing n words) +:+ " " +:+ paragraph
  else paragraph.

(** [n] copies of a string, for building long inputs. *)
Fixpoint repeat_str (n : nat) (x : string) : string :=
  match n with O => "" | S k => x +:+ repeat_str k x end.

(** Sample documents used in the worked examples. *)
Definition two_paragraphs (a b : string) : string :=
  a +:+ PyStr.LF +:+ PyStr.LF +:+ b.

(** ** Values, exceptions and external collaborators *)

(** The values stored in a chunk dictionary.  [VNumpy] is a numpy scalar,
    the only kind of value with an [item] method. *)
Inductive value :=
| VInt (z : Z)
| VStr (s : string)
| VFloat (x : spec_float)
| VNumpy (x : spec_float).

Abbreviation pydict := (gmap string value).

Inductive exn :=
| HTTPException (status_code : Z) (detail : string)
| Exception (msg : string).

Inductive result (A : Type) :=
| Ok (a : A)
| Raise (e : exn).
Arguments Ok {A} a.
Arguments Raise {A} e.

(** What a call into a library returns: a value, or an exception with its
    message. *)
Inductive outcome (A : Type) :=
| Returned (a : A)
| Raised (msg : string).
Arguments Returned {A} a.
Arguments Raised {A} msg.

Abbreviation matrix := (list (list spec_float)).

(** A FAISS [IndexFlatIP]: the stored vectors. *)
Record faiss_index := FaissIndex { index_vectors : matrix }.

(** The libraries and services [main.py] calls.  Each is a function of its
    arguments. *)
Record collaborators := Collaborators {
  (** [hashlib.md5(s.encode()).hexdigest()] *)
  md5_hexdigest : string → string;
  (** [requests.get(url, timeout=30)], [raise_for_status], [.content] *)
  http_get : string → outcome (list Byte.byte);
  (** [pdfplumber.open], then [page.extract_text()] of every page *)
  pdf_pages : list Byte.byte → outcome (list (option string));
  (** [embedding_model.encode(texts)] *)
  encode : list string → outcome matrix;
  (** [faiss.normalize_L2] *)
  normalize_L2 : matrix → matrix;
  (** [faiss.IndexFlatIP(dimension)] and [index.add] *)
  index_add : matrix → outcome faiss_index;
  (** [index.search(query, k)]: row 0 of the scores and of the indices,
      paired position by position *)
  index_search : faiss_index → matrix → Z → outcome (list (spec_float * Z));
  (** [gemini_model], when an API key is configured: the [.text] of the
      reply of [generate_content(prompt)], or the exception of the call.
      The reply is taken as determined by the prompt.  A remote model can
      answer the same prompt differently from one call to the next, so the
      properties that relate the answers of several calls are stated for a
      service without a backend ([gemini_model = None]). *)
  gemini_model : option (string → outcome string);
  (** [str(x)] of a float *)
  float_repr : spec_float → string
}.

(** ** The rule-based answer synthesizer *)

(** [str(v)] *)
Definition py_str (E : collaborators) (v : value) : string :=
  match v with
  | VInt z => PyStr.of_int z
  | VStr s => s
  | VFloat x => float_repr E x
  | VNumpy x => float_repr E x
  end.

(** [d[key]] *)
Definition getitem (d : pydict) (key : string) : result value :=
  match d !! key with
  | Some v => Ok v
  | None => Raise (Exception ("'" +:+ key +:+ "'"))
  end.

(** [[f(x) for x in xs]] where [f] may raise. *)
Fixpoint map_result {A B} (f : A → result B) (xs : list A) : result (list B) :=
  match xs with
  | [] => Ok []
  | x :: xs' =>
      match f x with
      | Raise e => Raise e
      | Ok y =>
          match map_result f xs' with
          | Raise e => Raise e
          | Ok ys => Ok (y :: ys)
          end
      end
  end.

(** [', '.join([str(chunk['id']) for chunk in relevant_chunks])] *)
Definition cited_ids (E : collaborators) (relevant_chunks : list pydict)
  : result string :=
  match map_result (λ chunk, getitem chunk "id") relevant_chunks with
  | Raise e => Raise e
  | Ok ids => Ok (PyStr.join ", " (py_str E <$> ids))
  end.

(** An f-string with the cited ids between [before] and [after]. *)
Definition cite (E : collaborators) (relevant_chunks : list pydict)
    (before after : string) : result string :=
  match cited_ids E relevant_chunks with
  | Raise e => Raise e
  | Ok ids => Ok (before +:+ ids +:+ after)
  end.

(** [any(word in text for word in words)] *)
Definition any_in (words : list string) (text : string) : bool :=
  existsb (λ word, PyStr.contains word text) words.

Definition generate_intelligent_answer (E : collaborators) (question : string)
    (relevant_chunks : list pydict) (context : string) : result string :=
  let question_lower := PyStr.lower question in
  let context_lower := PyStr.lower context in
  let cite := cite E relevant_chunks in
  if any_in ["coverage"; "covered"; "treatment"; "medical"] question_lower then
    if PyStr.contains "hospitalization" context_lower
       || PyStr.contains "hospital" context_lower then
      cite "Based on the policy clauses, hospitalization coverage is mentioned. Please refer to clauses "
           " for specific coverage details and conditions."
    else if PyStr.contains "treatment" context_lower
            || PyStr.contains "medical" context_lower then
      cite "Medical treatments are addressed in the policy. Specific coverage details can be found in clauses "
           "."
    else
      cite "Coverage information is outlined in clauses "
           ". Review these sections for detailed coverage terms."
  else if any_in ["exclusion"; "excluded"; "not covered"] question_lower then
    if PyStr.contains "exclusion" context_lower
       || PyStr.contains "excluded" context_lower
       || PyStr.contains "not covered" context_lower then
      cite "Yes, the policy contains exclusions. Specific exclusions are detailed in clauses "
           "."
    else
      cite "Exclusion details can be found in clauses "
           ". Please review for complete exclusion terms."
  else if any_in ["waiting period"; "wait"; "pre-existing"] question_lower then
    if PyStr.contains "waiting" context_lower
       || PyStr.contains "period" context_lower then
      cite "Waiting periods are specified in the policy. Refer to clauses "
           " for specific waiting period terms."
    else if PyStr.contains "pre-existing" context_lower then
      cite "Pre-existing conditions are addressed in clauses "
           ". Check these sections for coverage terms and waiting periods."
    else
      cite "Waiting period information is available in clauses "
           "."
  else if any_in ["sum insured"; "coverage amount"; "benefit"; "limit"] question_lower then
    if any_in ["sum"; "amount"; "limit"; "benefit"] context_lower then
      cite "Sum insured and benefit amounts are specified in the policy. Detailed information is in clauses "
           "."
    else
      cite "Coverage amounts and limits are detailed in clauses "
           "."
  else if any_in ["claim"; "settlement"; "process"] question_lower then
    if PyStr.contains "claim" context_lower then
      cite "Claim procedures are outlined in the policy. Specific claim process details are in clauses "
           "."
    else
      cite "Claims information can be found in clauses "
           "."
  else if any_in ["tenure"; "duration"; "period"; "term"] question_lower then
    if any_in ["year"; "month"; "term"; "period"] context_lower then
      cite "Policy term and duration details are specified in clauses "
           "."
    else
      cite "Policy duration information is available in clauses "
           "."
  else if any_in ["age"; "eligibility"; "entry"] question_lower then
    if PyStr.contains "age" context_lower then
      cite "Age-related eligibility criteria are mentioned in clauses "
           "."
    else
      cite "Eligibility information can be found in clauses "
           "."
  else if any_in ["premium"; "payment"; "grace"] question_lower then
    if any_in ["premium"; "payment"; "grace"] context_lower then
      cite "Premium and payment details, including grace periods, are specified in clauses "
           "."
    else
      cite "Payment terms are outlined in clauses "
           "."
  else if any_in ["maternity"; "pregnancy"; "childbirth"] question_lower then
    if any_in ["maternity"; "pregnancy"; "child"] context_lower then
      cite "Maternity benefits are addressed in the policy. Details are in clauses "
           "."
    else
      cite "Maternity coverage information can be found in clauses "
           "."
  else if any_in ["cosmetic"; "surgery"; "plastic"] question_lower then
    if any_in ["cosmetic"; "plastic"; "surgery"] context_lower then
      cite "Cosmetic surgery coverage is specifically mentioned in clauses "
           "."
    else
      cite "Surgery coverage details, including cosmetic procedures, are in clauses "
           "."
  else
    cite "Based on the available policy clauses "
         ", this information is covered in the policy document. Please review these specific sections for detailed terms and conditions.".

(** ** The object heap, the caches and the request monad *)

(** Chunk dictionaries are objects: the cache, the retrieved list and the
    response refer to them by location. *)
Abbreviation loc := positive.

(** A cache entry [{"chunks": processed_chunks, "text": text}].  The list
    of chunks is never written after it is built; its elements are
    references to chunk dictionaries in the heap. *)
Record doc_entry := DocEntry {
  entry_chunks : list loc;
  entry_text : string
}.

(** The pipeline steps a request can execute, recorded in order. *)
Inductive event :=
| EvDownload (url : string)
| EvExtract
| EvChunk
| EvEmbedChunks (texts : list string)
| EvBuildIndex
| EvEmbedQuery (query : string)
| EvSearch (query : string)
| EvSynthesize (question : string)
| EvGenerate (prompt : string).

(** The process-wide state: the two module-level caches, the heap of chunk
    dictionaries, and the record of executed steps. *)
Record state := State {
  document_cache : gmap string doc_entry;
  vector_store_cache : gmap string faiss_index;
  heap : gmap loc pydict;
  trace : list event
}.

Definition M (A : Type) : Type := state → result A * state.

Definition ret {A} (a : A) : M A := λ s, (Ok a, s).

Definition raise {A} (e : exn) : M A := λ s, (Raise e, s).

Definition bind {A B} (m : M A) (k : A → M B) : M B :=
  λ s, match m s with
       | (Ok a, s') => k a s'
       | (Raise e, s') => (Raise e, s')
       end.

Notation "'let*' x ':=' m 'in' k" := (bind m (λ x, k))
  (at level 10, x pattern, m at level 100, k at level 200).

Definition lift {A} (r : result A) : M A := λ s, (r, s).

Definition log (e : event) : M unit :=
  λ s, (Ok tt, State (document_cache s) (vector_store_cache s) (heap s)
                     (trace s ++ [e])).

Definition set_heap (h : gmap loc pydict) (s : state) : state :=
  State (document_cache s) (vector_store_cache s) h (trace s).

(** A new dictionary object. *)
Definition alloc (d : pydict) : M loc :=
  λ s, let l := fresh (dom (heap s)) in
       (Ok l, set_heap (<[l := d]> (heap s)) s).

(** The dictionary a reference points to. *)
Definition deref (l : loc) : M pydict :=
  λ s, match heap s !! l with
       | Some d => (Ok d, s)
       | None => (Raise (Exception "invalid reference"), s)
       end.

(** In-place update of the dictionary at [l]. *)
Definition update (l : loc) (f : pydict → pydict) : M unit :=
  λ s, match heap s !! l with
       | Some d => (Ok tt, set_heap (<[l := f d]> (heap s)) s)
       | None => (Raise (Exception "invalid reference"), s)
       end.

Fixpoint mapM {A B} (f : A → M B) (xs : list A) : M (list B) :=
  match xs with
  | [] => ret []
  | x :: xs' =>
      let* y := f x in
      let* ys := mapM f xs' in
      ret (y :: ys)
  end.

Fixpoint forM {A} (f : A → M unit) (xs : list A) : M unit :=
  match xs with
  | [] => ret tt
  | x :: xs' => let* _ := f x in forM f xs'
  end.

(** [xs[i]] for a Python list: a negative index counts from the end. *)
Definition py_index {A} (xs : list A) (i : Z) : result A :=
  let n := Z.of_nat (length xs) in
  let j := if i <? 0 then i + n else i in
  if (0 <=? j) && (j <? n)
  then match xs !! Z.to_nat j with
       | Some x => Ok x
       | None => Raise (Exception "list index out of range")
       end
  else Raise (Exception "list index out of range").

(** ** The pipeline of [main.py] *)

(** The response body, without [processing_time] (a wall-clock reading). *)
Record response := Response {
  answers : list string;
  source_chunks : list loc
}.

Definition no_relevant_information : string :=
  "No relevant information found in the policy document for this question.".

(** The dictionary [chunk_text] builds for a chunk. *)
Definition dict_of_chunk (c : chunk) : pydict :=
  <["id" := VInt (chunk_id c)]>
    (<["text" := VStr (chunk_text_of c)]>
       (<["source" := VStr (chunk_source c)]> ∅)).

(** [hasattr(value, 'item')] and [value.item()] *)
Definition has_item (v : value) : bool :=
  match v with VNumpy _ => true | _ => false end.

Definition item (v : value) : value :=
  match v with VNumpy x => VFloat x | _ => v end.

(** The clean-up of one retrieved chunk (main.py lines 381-385):
    [chunk["score"] = chunk.pop("similarity_score", 0.0)], then every
    numpy scalar is replaced by its [item()]. *)
Definition clean_chunk (chunk : pydict) : pydict :=
  let score := default (VFloat (S754_zero false)) (chunk !! "similarity_score") in
  let renamed := <["score" := score]> (delete "similarity_score" chunk) in
  (λ v, if has_item v then item v else v) <$> renamed.

(** [f"Clause {chunk['id']}: {chunk['text']}"] *)
Definition clause_of (E : collaborators) (chunk : pydict) : result string :=
  match getitem chunk "id" with
  | Raise e => Raise e
  | Ok i =>
      match getitem chunk "text" with
      | Raise e => Raise e
      | Ok txt => Ok ("Clause " +:+ py_str E i +:+ ": " +:+ py_str E txt)
      end
  end.

Definition build_prompt (question context : string) : string :=
  let LF := PyStr.LF in
  "You're an expert insurance claims assistant. Based on the following policy clauses, answer the user's question in clear terms and justify your answer using the source clauses." +:+ LF +:+
  LF +:+
  "Question: " +:+ question +:+ LF +:+
  LF +:+
  "Relevant Policy Clauses:" +:+ LF +:+
  context +:+ LF +:+
  LF +:+
  "Instructions:" +:+ LF +:+
  "1. Provide a clear yes/no answer if applicable" +:+ LF +:+
  "2. Reference specific clause numbers/sections" +:+ LF +:+
  "3. Keep response concise (1-2 sentences)" +:+ LF +:+
  "4. If information is insufficient, state clearly" +:+ LF +:+
  LF +:+
  "Answer:".

Section Pipeline.
Variable E : collaborators.

Definition download_pdf (url : string) : M (list Byte.byte) :=
  let* _ := log (EvDownload url) in
  match http_get E url with
  | Returned content => ret content
  | Raised e => raise (HTTPException 400 ("Failed to download PDF: " +:+ e))
  end.

(** The page loop of [extract_text_from_pdf]. *)
Definition join_pages (pages : list (option string)) : string :=
  fold_left (λ text page_text,
               match page_text with
               | Some t => if PyStr.truthy t then text +:+ t +:+ PyStr.LF else text
               | None => text
               end) pages "".

Definition extract_text_from_pdf (pdf_content : list Byte.byte) : M string :=
  let* _ := log EvExtract in
  match pdf_pages E pdf_content with
  | Returned pages => ret (join_pages pages)
  | Raised e => raise (HTTPException 400 ("Failed to extract text from PDF: " +:+ e))
  end.

Definition get_embeddings (texts : list string) : M matrix :=
  match encode E texts with
  | Returned embeddings => ret embeddings
  | Raised e => raise (HTTPException 500 ("Failed to generate embeddings: " +:+ e))
  end.

Definition create_vector_store (chunks : list chunk) (embeddings : matrix)
  : M (faiss_index * list chunk) :=
  let* _ := log EvBuildIndex in
  match index_add E (normalize_L2 E embeddings) with
  | Returned index => ret (index, chunks)
  | Raised e => raise (Exception e)
  end.

(** The loop of [retrieve_relevant_chunks] over the search hits: every
    valid hit is copied, and the copy is annotated with its score. *)
Fixpoint collect_hits (chunks : list loc) (hits : list (spec_float * Z))
    (relevant_chunks : list loc) : M (list loc) :=
  match hits with
  | [] => ret relevant_chunks
  | (score, idx) :: hits' =>
      if idx =? -1 then collect_hits chunks hits' relevant_chunks
      else
        let* original := lift (py_index chunks idx) in
        let* d := deref original in
        let* chunk := alloc d in
        let* _ := update chunk (λ d, <["similarity_score" := VFloat score]> d) in
        collect_hits chunks hits' (relevant_chunks ++ [chunk])
  end.

Definition retrieve_relevant_chunks (query : string) (index : faiss_index)
    (chunks : list loc) (top_k : Z) : M (list loc) :=
  let* _ := log (EvEmbedQuery query) in
  let* query_embedding := get_embeddings [query] in
  let* _ := log (EvSearch query) in
  match index_search E index (normalize_L2 E query_embedding) top_k with
  | Raised e => raise (Exception e)
  | Returned hits => collect_hits chunks hits []
  end.

Definition answer_question (question : string) (relevant_chunks : list loc)
  : M string :=
  let* _ := log (EvSynthesize question) in
  let* dicts := mapM deref relevant_chunks in
  let* clauses := lift (map_result (clause_of E) dicts) in
  let context := PyStr.join (PyStr.LF +:+ PyStr.LF) clauses in
  let prompt := build_prompt question context in
  match gemini_model E with
  | Some generate_content =>
      let* _ := log (EvGenerate prompt) in
      match generate_content prompt with
      | Returned text => ret (PyStr.strip text)
      | Raised _ => lift (generate_intelligent_answer E question dicts context)
      end
  | None =>
      match generate_intelligent_answer E question dicts context with
      | Ok answer => ret answer
      | Raise _ => lift (generate_intelligent_answer E question dicts context)
      end
  end.

Definition store_document (doc_hash : string) (entry : doc_entry) : M unit :=
  λ s, (Ok tt, State (<[doc_hash := entry]> (document_cache s))
                     (vector_store_cache s) (heap s) (trace s)).

Definition store_index (doc_hash : string) (index : faiss_index) : M unit :=
  λ s, (Ok tt, State (document_cache s)
                     (<[doc_hash := index]> (vector_store_cache s))
                     (heap s) (trace s)).

(** The cache-miss branch of [process_insurance_query] (lines 326-355).
    The chunk dictionaries become heap objects when they are stored in the
    cache; until then nothing else refers to them. *)
Definition ingest (doc_url doc_hash : string) : M unit :=
  let* pdf_content := download_pdf doc_url in
  let* text := extract_text_from_pdf pdf_content in
  if negb (PyStr.truthy (PyStr.strip text)) then
    raise (HTTPException 400 "No text found in PDF")
  else
    let* _ := log EvChunk in
    let chunks := chunk_text text 1000 200 in
    match chunks with
    | [] => raise (HTTPException 400 "No valid chunks created from document")
    | _ =>
        let chunk_texts := chunk_text_of <$> chunks in
        let* _ := log (EvEmbedChunks chunk_texts) in
        let* embeddings := get_embeddings chunk_texts in
        let* (index, processed_chunks) := create_vector_store chunks embeddings in
        let* chunk_refs := mapM (λ c, alloc (dict_of_chunk c)) processed_chunks in
        let* _ := store_document doc_hash (DocEntry chunk_refs text) in
        store_index doc_hash index
    end.

(** The body of the question loop (lines 369-391), returning the answer it
    appends and the chunks it adds to [all_source_chunks]. *)
Definition answer_one (index : faiss_index) (chunks : list loc)
    (question : string) : M (string * list loc) :=
  let* relevant_chunks := retrieve_relevant_chunks question index chunks 5 in
  match relevant_chunks with
  | [] => ret (no_relevant_information, [])
  | _ =>
      let* _ := forM (λ chunk, update chunk clean_chunk) relevant_chunks in
      let* answer := answer_question question relevant_chunks in
      ret (answer, relevant_chunks)
  end.

(** [for question in request.questions: ...] with its two accumulators. *)
Fixpoint answer_all (index : faiss_index) (chunks : list loc)
    (questions : list string) (acc : response) : M response :=
  match questions with
  | [] => ret acc
  | question :: questions' =>
      let* (answer, sources) := answer_one index chunks question in
      answer_all index chunks questions'
        (Response (answers acc ++ [answer]) (source_chunks acc ++ sources))
  end.

(** [except HTTPException: raise] and
    [except Exception as e: raise HTTPException(status_code=500, ...)]. *)
Definition at_boundary {A} (m : M A) : M A :=
  λ s, match m s with
       | (Raise (Exception msg), s') =>
           (Raise (HTTPException 500 ("Internal server error: " +:+ msg)), s')
       | r => r
       end.

Definition lookup_document (doc_hash : string) : M doc_entry :=
  λ s, match document_cache s !! doc_hash with
       | Some entry => (Ok entry, s)
       | None => (Raise (Exception ("'" +:+ doc_hash +:+ "'")), s)
       end.

Definition lookup_index (doc_hash : string) : M faiss_index :=
  λ s, match vector_store_cache s !! doc_hash with
       | Some index => (Ok index, s)
       | None => (Raise (Exception ("'" +:+ doc_hash +:+ "'")), s)
       end.

Definition cached (doc_hash : string) : M bool :=
  λ s, (Ok (bool_decide (is_Some (document_cache s !! doc_hash))), s).

(** Lines 359-401: read the cached document and answer the questions. *)
Definition answer_from_cache (doc_hash : string) (questions : list string)
  : M response :=
  let* cached_doc := lookup_document doc_hash in
  let* index := lookup_index doc_hash in
  let chunks := entry_chunks cached_doc in
  answer_all index chunks questions (Response [] []).

Definition process_insurance_query (documents : string) (questions : list string)
  : M response :=
  at_boundary (
    let doc_url := documents in
    let doc_hash := md5_hexdigest E doc_url in
    let* hit := cached doc_hash in
    let* _ := if negb hit then ingest doc_url doc_hash else ret tt in
    answer_from_cache doc_hash questions).

(** [GET /cache/stats] *)
Definition cache_stats (s : state) : nat * nat :=
  (size (document_cache s), size (vector_store_cache s)).

(** [DELETE /cache/clear] *)
Definition clear_cache (s : state) : state :=
  State ∅ ∅ (heap s) (trace s).

End Pipeline.

(** The state of a freshly started process. *)
Definition initial_state : state := State ∅ ∅ ∅ [].

(** The operations a client can perform, and a run of the service. *)
Inductive operation :=
| OpProcess (documents : string) (questions : list string)
| OpStats
| OpClear.

Definition step (E : collaborators) (s : state) (op : operation) : state :=
  match op with
  | OpProcess documents questions =>
      snd (process_insurance_query E documents questions s)
  | OpStats => s
  | OpClear => clear_cache s
  end.

Definition run (E : collaborators) (ops : list operation) (s : state) : state :=
  fold_left (step E) ops s.

(** ** Vocabulary for the properties of the pipeline *)

(** The five steps of document ingestion. *)
Inductive ingestion_step :=
| Download | Extract | Chunking | EmbedChunks | BuildIndex.

Global Instance ingestion_step_eq_dec : EqDecision ingestion_step.
Proof. solve_decision. Defined.

(** The ingestion step an event records, if any. *)
Definition kind_of (e : event) : option ingestion_step :=
  match e with
  | EvDownload _ => Some Download
  | EvExtract => Some Extract
  | EvChunk => Some Chunking
  | EvEmbedChunks _ => Some EmbedChunks
  | EvBuildIndex => Some BuildIndex
  | EvEmbedQuery _ | EvSearch _ | EvSynthesize _ | EvGenerate _ => None
  end.

(** How often an ingestion step occurs in a stretch of the trace. *)
Definition executions (k : ingestion_step) (d : list event) : nat :=
  length (filter (λ e, kind_of e = Some k) d).

Definition is_synthesis (e : event) : Prop :=
  match e with EvSynthesize _ | EvGenerate _ => True | _ => False end.

(** What question processing may do to the state, relative to a heap [h0]:
    the caches stay as they are, the objects of [h0] stay as they are, and
    the trace grows by events that are not ingestion steps. *)
Definition question_frame (h0 : gmap loc pydict) (s s' : state) : Prop :=
  document_cache s' = document_cache s ∧
  vector_store_cache s' = vector_store_cache s ∧
  (h0 ⊆ heap s → h0 ⊆ heap s') ∧
  ∃ d, trace s' = trace s ++ d ∧ Forall (λ e, kind_of e = None) d.

(** [fresh_for h0 ls]: none of the references [ls] is an object of [h0]. *)
Definition fresh_for (h0 : gmap loc pydict) (ls : list loc) : Prop :=
  Forall (λ l, h0 !! l = None) ls.

(** The question loop, one successful [answer_one] after the other:
    [answered E index chunks s qs outs s'] holds when question [i] was
    answered with [outs !! i] and the loop went from state [s] to [s']. *)
Inductive answered (E : collaborators) (index : faiss_index) (chunks : list loc)
  : state → list string → list (string * list loc) → state → Prop :=
| answered_nil s : answered E index chunks s [] [] s
| answered_cons s question questions out s1 outs s2 :
    answer_one E index chunks question s = (Ok out, s1) →
    answered E index chunks s1 questions outs s2 →
    answered E index chunks s (question :: questions) (out :: outs) s2.

(** The cached documents and the cached indices have the same keys. *)
Definition caches_agree (s : state) : Prop :=
  dom (document_cache s) = dom (vector_store_cache s).

(** The events of a complete ingestion, in order. *)
Definition ingestion_events (url : string) (texts : list string) : list event :=
  [EvDownload url; EvExtract; EvChunk; EvEmbedChunks texts; EvBuildIndex].


(** ** A worked configuration *)

Definition demo_text : string :=
  two_paragraphs "Clause A covers hospitalization."
                 "Clause B excludes cosmetic surgery.".

Definition demo_url : string := "https://example.com/policy.pdf".

Definition no_hit : spec_float * Z := (S754_zero false, -1).

(** Collaborators that serve a PDF with the given pages and answer every
    search with the given hits; no generative backend is configured. *)
Definition demo_with (pages : list (option string))
    (hits : list (spec_float * Z)) : collaborators := {|
  md5_hexdigest := λ url, "md5:" +:+ url;
  http_get := λ _, Returned [];
  pdf_pages := λ _, Returned pages;
  encode := λ texts, Returned ((λ _, [S754_zero false]) <$> texts);
  normalize_L2 := λ m, m;
  index_add := λ m, Returned (FaissIndex m);
  index_search := λ _ _ _, Returned hits;
  gemini_model := None;
  float_repr := λ _, "0.0"
|}.

(** One chunk is indexed, and every search finds it. *)
Definition demo : collaborators :=
  demo_with [Some demo_text]
            [(S754_zero false, 0); no_hit; no_hit; no_hit; no_hit].

(** The index returns no position at all. *)
Definition demo_without_hits : collaborators :=
  demo_with [Some demo_text] [no_hit; no_hit; no_hit; no_hit; no_hit].

(** The PDF has only blank pages. *)
Definition demo_blank : collaborators :=
  demo_with [Some "   "; None] [].

Definition demo_questions : list string :=
  ["Is hospitalization covered?"; "What is the grace period?"].

(** The state after the worked configuration has served one request. *)
Definition demo_state (E : collaborators) : state :=
  (process_insurance_query E demo_url demo_questions initial_state).2.

Definition demo_index : faiss_index := FaissIndex [[S754_zero false]].

(** ** Further vocabulary for the chunker *)

(** Every character of the string is whitespace. *)
Fixpoint all_space (s : string) : bool :=
  match s with
  | "" => true
  | String c s' => PyStr.isspace c && all_space s'
  end.

(** The blank line that separates paragraphs. *)
Definition blank_line : string := PyStr.LF +:+ PyStr.LF.

(** A buffer or chunk text that is within [chunk_size + 2] characters, or
    is one paragraph (satisfying [P]) behind the overlap seed of some
    earlier buffer. *)
Definition bounded_or_single (P : string → Prop) (chunk_size overlap : Z)
    (x : string) : Prop :=
  PyStr.len x ≤ chunk_size + 2 ∨
  ∃ p b, P p ∧ x = seed_of overlap b +:+ p.

Definition size_inv (P : string → Prop) (chunk_size overlap : Z)
    (st : chunker_state) : Prop :=
  Forall (λ c, bounded_or_single P chunk_size overlap (chunk_text_of c))
         (st_chunks st) ∧
  (st_current st = "" ∨
   bounded_or_single P chunk_size overlap (st_current st)).

(** ** The question phase as a function of the cached dictionaries *)

(** [resolves s ls ds]: the references [ls] point, in the heap of [s], to
    the dictionaries [ds], position by position. *)
Definition resolves (s : state) (ls : list loc) (ds : list pydict) : Prop :=
  Forall2 (λ l d, heap s !! l = Some d) ls ds.

(** The list [retrieve_relevant_chunks] builds from the search hits, on the
    dictionaries themselves: a copy of [cached[idx]] with its score for every
    hit whose position is not [-1], in the order of the hits. *)
Fixpoint scored_copies (cached : list pydict) (hits : list (spec_float * Z))
  : result (list pydict) :=
  match hits with
  | [] => Ok []
  | (score, idx) :: hits' =>
      if idx =? -1 then scored_copies cached hits'
      else
        match py_index cached idx with
        | Raise e => Raise e
        | Ok d =>
            match scored_copies cached hits' with
            | Raise e => Raise e
            | Ok ds => Ok (<["similarity_score" := VFloat score]> d :: ds)
            end
        end
  end.

Definition retrieval_of (E : collaborators) (index : faiss_index)
    (cached : list pydict) (query : string) (top_k : Z) : result (list pydict) :=
  match encode E [query] with
  | Raised e => Raise (HTTPException 500 ("Failed to generate embeddings: " +:+ e))
  | Returned query_embedding =>
      match index_search E index (normalize_L2 E query_embedding) top_k with
      | Raised e => Raise (Exception e)
      | Returned hits => scored_copies cached hits
      end
  end.

(** What [answer_question] returns for the dictionaries of the retrieved
    chunks. *)
Definition answer_of (E : collaborators) (question : string)
    (dicts : list pydict) : result string :=
  match map_result (clause_of E) dicts with
  | Raise e => Raise e
  | Ok clauses =>
      let context := PyStr.join (PyStr.LF +:+ PyStr.LF) clauses in
      match gemini_model E with
      | Some generate_content =>
          match generate_content (build_prompt question context) with
          | Returned text => Ok (PyStr.strip text)
          | Raised _ => generate_intelligent_answer E question dicts context
          end
      | None => generate_intelligent_answer E question dicts context
      end
  end.

(** The answer and the source chunks one question contributes. *)
Definition outcome_of (E : collaborators) (index : faiss_index)
    (cached : list pydict) (question : string)
  : result (string * list pydict) :=
  match retrieval_of E index cached question 5 with
  | Raise e => Raise e
  | Ok [] => Ok (no_relevant_information, [])
  | Ok relevant =>
      let cleaned := clean_chunk <$> relevant in
      match answer_of E question cleaned with
      | Raise e => Raise e
      | Ok answer => Ok (answer, cleaned)
      end
  end.

(** The conversion of exceptions at the boundary of the endpoint. *)
Definition boundary {A} (r : result A) : result A :=
  match r with
  | Raise (Exception msg) =>
      Raise (HTTPException 500 ("Internal server error: " +:+ msg))
  | r => r
  end.

(** Every cache entry refers to the dictionaries of the chunks of its text,
    and has an index beside it. *)
Definition cache_consistent (s : state) : Prop :=
  ∀ doc_hash entry, document_cache s !! doc_hash = Some entry →
    resolves s (entry_chunks entry)
      (dict_of_chunk <$> chunk_text (entry_text entry) 1000 200) ∧
    is_Some (vector_store_cache s !! doc_hash).

(** The state after the events [es] have been recorded. *)
Definition with_trace (es : list event) (s : state) : state :=
  State (document_cache s) (vector_store_cache s) (heap s) (trace s ++ es).

(** An exception that the boundary reports with status 500. *)
Definition internal (e : exn) : Prop :=
  match e with
  | HTTPException code _ => code = 500
  | Exception _ => True
  end.

(** ** Vocabulary for failures and for the worked configuration *)

(** The failures of ingestion that a client sees with status 400. *)
Definition document_error (e : exn) : Prop :=
  (∃ msg, e = HTTPException 400 ("Failed to download PDF: " +:+ msg)) ∨
  (∃ msg, e = HTTPException 400 ("Failed to extract text from PDF: " +:+ msg)) ∨
  e = HTTPException 400 "No text found in PDF".

(** A page that contributes no text: [extract_text()] gave [None], or only
    whitespace. *)
Definition textless (page : option string) : bool :=
  match page with
  | None => true
  | Some t => all_space t
  end.

(** The cache entry of the worked configuration, the dictionaries it refers
    to, and what its two questions contribute. *)
Definition demo_entry : doc_entry :=
  DocEntry [1%positive] (join_pages [Some demo_text]).

Definition demo_cached : list pydict :=
  dict_of_chunk <$> chunk_text (entry_text demo_entry) 1000 200.

Definition demo_outs : list (string * list pydict) :=
  match map_result (outcome_of demo demo_index demo_cached) demo_questions with
  | Ok outs => outs
  | Raise _ => []
  end.

(** The index returns a position beyond the cached chunks. *)
Definition demo_bad_hit : collaborators :=
  demo_with [Some demo_text] [(S754_zero false, 7)].

(** What the worked configuration returns for its first request, and what
    one retrieval in the state after it returns. *)
Definition demo_response : response :=
  match (process_insurance_query demo demo_url demo_questions initial_state).1 with
  | Ok resp => resp
  | Raise _ => Response [] []
  end.

Definition demo_retrieved : list loc :=
  match (retrieve_relevant_chunks demo "Is surgery covered?" demo_index
           (entry_chunks demo_entry) 5 (demo_state demo)).1 with
  | Ok relevant_chunks => relevant_chunks
  | Raise _ => []
  end.

(** ** Vocabulary for oversized paragraphs *)

(** The texts hold one paragraph each: the first is the first paragraph,
    and every later one is its paragraph behind the overlap seed of the text
    before it. *)
Definition one_per_paragraph (overlap : Z) (texts paragraphs : list string)
  : Prop :=
  length texts = length paragraphs ∧
  ∀ (k : nat) t p, texts !! k = Some t → paragraphs !! k = Some p →
    match k with
    | O => t = p
    | S j => ∃ t', texts !! j = Some t' ∧ t = seed_of overlap t' +:+ p
    end.

(** The texts of the chunks built so far, and the running buffer when it
    holds something. *)
Definition buffer_texts (st : chunker_state) : list string :=
  (chunk_text_of <$> st_chunks st)
  ++ (if PyStr.truthy (st_current st) then [st_current st] else []).

Definition oversized_inv (overlap : Z) (st : chunker_state)
    (done : list string) : Prop :=
  one_per_paragraph overlap (buffer_texts st) done ∧
  (PyStr.truthy (st_current st) = false → st_chunks st = []).

(** * Properties *)

(** ** Facts about the string primitives *)

Section StringFacts.
Import PyStr.

Lemma app_cons c a b : String c a +:+ b = String c (a +:+ b).
Proof. reflexivity. Qed.

Lemma app_nil_l b : "" +:+ b = b.
Proof. reflexivity. Qed.

Lemma app_assoc' a b c : (a +:+ b) +:+ c = a +:+ (b +:+ c).
Proof. induction a as [|x a IH]; [done|]. rewrite !app_cons. by f_equal. Qed.

Lemma app_nil_r' a : a +:+ "" = a.
Proof. induction a as [|x a IH]; [done|]. rewrite app_cons. by f_equal. Qed.

Lemma truthy_true s : truthy s = true ↔ s ≠ "".
Proof. destruct s; simpl; split; congruence. Qed.

Lemma truthy_false s : truthy s = false ↔ s = "".
Proof. destruct s; simpl; split; congruence. Qed.

Lemma truthy_app_r a b : truthy b = true → truthy (a +:+ b) = true.
Proof. destruct a; [done|]. by rewrite app_cons. Qed.

Lemma truthy_app_l a b : truthy a = true → truthy (a +:+ b) = true.
Proof. destruct a; [done|]. by rewrite app_cons. Qed.

Lemma starts_solid_truthy s : starts_solid s = true → truthy s = true.
Proof. by destruct s. Qed.

Lemma ends_solid_truthy s : ends_solid s = true → truthy s = true.
Proof. by destruct s. Qed.

Lemma lstrip_starts s : starts_solid s = true → lstrip s = s.
Proof.
  destruct s as [|c s']; simpl; [done|].
  by destruct (isspace c).
Qed.

Lemma rstrip_ends s : ends_solid s = true → rstrip s = s.
Proof.
  induction s as [|c s' IH]; [done|].
  destruct s' as [|d s'']; simpl in *.
  - by destruct (isspace c).
  - intros H. rewrite (IH H). done.
Qed.

Lemma strip_solid s :
  starts_solid s = true → ends_solid s = true → strip s = s.
Proof.
  intros Hs He. unfold strip. rewrite (lstrip_starts _ Hs).
  by apply rstrip_ends.
Qed.

Lemma lstrip_cases s : lstrip s = "" ∨ starts_solid (lstrip s) = true.
Proof.
  induction s as [|c s' IH]; simpl; [by left|].
  destruct (isspace c) eqn:E; [done|]. right. simpl. by rewrite E.
Qed.

Lemma rstrip_ends_solid s : truthy (rstrip s) = true → ends_solid (rstrip s) = true.
Proof.
  induction s as [|c s' IH]; simpl; [done|].
  destruct (rstrip s') as [|d r] eqn:E.
  - destruct (isspace c) eqn:Ec; simpl; [done|]. by rewrite Ec.
  - intros _. change (ends_solid (String d r) = true). by apply IH.
Qed.

Lemma rstrip_starts_solid s :
  starts_solid s = true → starts_solid (rstrip s) = true.
Proof.
  destruct s as [|c s']; simpl; [done|].
  destruct (isspace c) eqn:E; [done|]. intros _.
  destruct (rstrip s'); simpl; by rewrite E.
Qed.

(** A stripped string is empty, or starts and ends with a solid character. *)
Lemma strip_truthy_solid s :
  truthy (strip s) = true →
  starts_solid (strip s) = true ∧ ends_solid (strip s) = true.
Proof.
  unfold strip. intros Ht. split; [|by apply rstrip_ends_solid].
  destruct (lstrip_cases s) as [E|E].
  - rewrite E in Ht. done.
  - by apply rstrip_starts_solid.
Qed.

Lemma strip_idem s : strip (strip s) = strip s.
Proof.
  destruct (truthy (strip s)) eqn:E.
  - destruct (strip_truthy_solid _ E). by apply strip_solid.
  - apply truthy_false in E. by rewrite E.
Qed.

Lemma starts_solid_app a b : starts_solid a = true → starts_solid (a +:+ b) = true.
Proof. by destruct a. Qed.

Lemma ends_solid_app a b : ends_solid b = true → ends_solid (a +:+ b) = true.
Proof.
  intros Hb. induction a as [|c a' IH]; [done|].
  rewrite app_cons. simpl. destruct (a' +:+ b) eqn:E; [|done].
  apply ends_solid_truthy, (truthy_app_r a') in Hb. by rewrite E in Hb.
Qed.

(** Words. *)
Lemma is_word_starts w : is_word w = true → starts_solid w = true.
Proof.
  unfold is_word. destruct w as [|c w]; simpl; [done|].
  by intros [? _]%andb_true_iff.
Qed.

Lemma nospace_rev_app a b :
  nospace (String.rev_app a b) = nospace a && nospace b.
Proof.
  revert b. induction a as [|c a IH]; intros b; simpl; [done|].
  rewrite IH. simpl. by destruct (isspace c), (nospace a), (nospace b).
Qed.

Lemma truthy_rev_app a b :
  truthy (String.rev_app a b) = truthy a || truthy b.
Proof.
  revert b. induction a as [|c a IH]; intros b; simpl; [done|].
  rewrite IH. simpl. by rewrite orb_true_r.
Qed.

Lemma is_word_rev w : is_word w = true → is_word (String.rev w) = true.
Proof.
  unfold is_word, String.rev. rewrite nospace_rev_app, truthy_rev_app.
  simpl. by rewrite orb_false_r, andb_true_r.
Qed.

Lemma split_ws_go_words cur s :
  (∀ c, cur = Some c → is_word c = true) →
  Forall (λ w, is_word w = true) (split_ws_go cur s).
Proof.
  revert cur. induction s as [|a s IH]; intros cur Hcur; simpl.
  - destruct cur as [c|]; simpl; [|constructor].
    constructor; [|constructor]. by apply is_word_rev, Hcur.
  - destruct (isspace a) eqn:Ea.
    + apply Forall_app. split; [|by apply IH].
      destruct cur as [c|]; simpl; [|constructor].
      constructor; [|constructor]. by apply is_word_rev, Hcur.
    + apply IH. intros c [= <-]. unfold is_word. simpl. rewrite Ea. simpl.
      destruct cur as [c|]; simpl; [|done].
      specialize (Hcur c eq_refl). unfold is_word in Hcur.
      by apply andb_true_iff in Hcur as [_ ?].
Qed.

(** Every word of [s.split()] is non-empty and free of whitespace. *)
Lemma split_ws_words s : Forall (λ w, is_word w = true) (split_ws s).
Proof. by apply split_ws_go_words. Qed.

Lemma join_cons_starts sep w ws :
  starts_solid w = true → starts_solid (join sep (w :: ws)) = true.
Proof.
  intros Hw. destruct ws; simpl; [done|]. by apply starts_solid_app.
Qed.

Lemma join_truthy_starts sep ws :
  Forall (λ w, is_word w = true) ws →
  truthy (join sep ws) = true → starts_solid (join sep ws) = true.
Proof.
  intros Hws Ht. destruct ws as [|w ws]; [done|].
  apply join_cons_starts, is_word_starts. by inversion Hws.
Qed.

Lemma join_words_truthy sep ws :
  Forall (λ w, is_word w = true) ws → ws ≠ [] → truthy (join sep ws) = true.
Proof.
  intros Hws Hne. destruct ws as [|w ws]; [done|].
  apply starts_solid_truthy, join_cons_starts, is_word_starts.
  by inversion Hws.
Qed.

Lemma slice_from_words m (ws : list string) :
  Forall (λ w, is_word w = true) ws →
  Forall (λ w, is_word w = true) (slice_from m ws).
Proof. intros H. unfold slice_from. by apply Forall_drop. Qed.

End StringFacts.

(** ** Facts about the chunker *)

Section ChunkerFacts.
Import PyStr.
Variables chunk_size overlap : Z.

Lemma paragraphs_of_solid text : Forall solid (paragraphs_of text).
Proof.
  apply Forall_forall. intros p Hp. unfold paragraphs_of in Hp.
  apply list_elem_of_omap in Hp as (q & _ & Hq). simpl in Hq.
  destruct (truthy (strip q)) eqn:E; [|done].
  injection Hq as <-. by apply strip_truthy_solid.
Qed.

Lemma must_flush_truthy cur p :
  must_flush chunk_size cur p = true → truthy cur = true.
Proof. unfold must_flush. by intros [_ ?]%andb_true_iff. Qed.

Lemma cur_ok_truthy cur : cur_ok cur → truthy cur = true → solid cur.
Proof. intros [->|H] Ht; [done|exact H]. Qed.

Lemma overlap_text_starts cur :
  truthy (overlap_text_of overlap cur) = true →
  starts_solid (overlap_text_of overlap cur) = true.
Proof.
  unfold overlap_text_of. destruct (_ >? _); [|done].
  apply join_truthy_starts, slice_from_words, split_ws_words.
Qed.

Lemma solid_after_flush cur p :
  solid p →
  solid (if truthy (overlap_text_of overlap cur)
         then overlap_text_of overlap cur +:+ " " +:+ p else p).
Proof.
  intros [Hs He]. destruct (truthy _) eqn:E; [|done]. split.
  - by apply starts_solid_app, overlap_text_starts.
  - by do 2 apply ends_solid_app.
Qed.

Lemma chunk_step_inv st p :
  chunker_inv st → solid p → chunker_inv (chunk_step chunk_size overlap st p).
Proof.
  intros (Hid & Hids & Htxt & Hcur) Hp. unfold chunk_step.
  destruct (must_flush _ _ _) eqn:Hf; unfold chunker_inv; simpl.
  - pose proof (cur_ok_truthy _ Hcur (must_flush_truthy _ _ Hf)) as Hsolid.
    split_and!.
    + rewrite length_app. simpl. lia.
    + intros k c Hk. apply lookup_app_Some in Hk as [Hk|[Hlen Hk]].
      * by apply Hids.
      * apply list_lookup_singleton_Some in Hk as [Hk <-]. simpl.
        assert (k = length (st_chunks st)) as -> by lia.
        by rewrite <- Hid.
    + apply Forall_app. split; [done|]. constructor; [|constructor].
      simpl. destruct Hsolid. by rewrite strip_solid.
    + right. by apply solid_after_flush.
  - split_and!; [done..|]. right.
    destruct (truthy (st_current st)) eqn:Ht; [|done].
    destruct (cur_ok_truthy _ Hcur Ht) as [Hs He]. destruct Hp. split.
    + by apply starts_solid_app.
    + by do 3 apply ends_solid_app.
Qed.

Lemma chunk_loop_inv ps st :
  chunker_inv st → Forall solid ps →
  chunker_inv (chunk_loop chunk_size overlap st ps).
Proof.
  revert st. induction ps as [|p ps IH]; intros st Hst Hps; [done|].
  inversion Hps; subst. simpl. apply IH; [|done]. by apply chunk_step_inv.
Qed.

Lemma chunker_init_inv : chunker_inv chunker_init.
Proof. unfold chunker_inv. simpl. split_and!; [done|done|constructor|by left]. Qed.

Lemma chunk_finish_spec st :
  chunker_inv st →
  (∀ k c, chunk_finish st !! k = Some c →
     chunk_id c = Z.of_nat k ∧
     chunk_source c = "chunk_" +:+ of_int (Z.of_nat k)) ∧
  Forall (λ c, solid (chunk_text_of c)) (chunk_finish st).
Proof.
  intros (Hid & Hids & Htxt & Hcur). unfold chunk_finish.
  destruct (truthy (st_current st)) eqn:Ht; [|done].
  destruct (cur_ok_truthy _ Hcur Ht) as [Hs He]. split.
  - intros k c Hk. apply lookup_app_Some in Hk as [Hk|[Hlen Hk]]; [by apply Hids|].
    apply list_lookup_singleton_Some in Hk as [Hk <-]. simpl.
    assert (k = length (st_chunks st)) as -> by lia. by rewrite <- Hid.
  - apply Forall_app. split; [done|]. constructor; [|constructor].
    simpl. by rewrite strip_solid.
Qed.

Lemma chunk_text_spec text :
  (∀ k c, chunk_text text chunk_size overlap !! k = Some c →
     chunk_id c = Z.of_nat k ∧
     chunk_source c = "chunk_" +:+ of_int (Z.of_nat k)) ∧
  Forall (λ c, solid (chunk_text_of c)) (chunk_text text chunk_size overlap).
Proof.
  apply chunk_finish_spec, chunk_loop_inv;
    [apply chunker_init_inv|apply paragraphs_of_solid].
Qed.

End ChunkerFacts.

(** C5. The chunks returned by [chunk_text] carry the ids 0, 1, 2, ... in
    order (chunk [k] has id [k], so the ids are dense, zero-based and
    strictly increasing), and the text of every chunk is non-empty after
    trimming. *)
Theorem chunk_text_ids_dense (text : string) (chunk_size overlap : Z) :
  let chunks := chunk_text text chunk_size overlap in
  (∀ (k : nat) c, chunks !! k = Some c → chunk_id c = Z.of_nat k) ∧
  (∀ (i j : nat) ci cj, chunks !! i = Some ci → chunks !! j = Some cj →
     (i < j)%nat → chunk_id ci < chunk_id cj) ∧
  (∀ c, c ∈ chunks → PyStr.strip (chunk_text_of c) ≠ "").
Proof.
  destruct (chunk_text_spec chunk_size overlap text) as [Hids Htxt].
  split_and!.
  - intros k c Hk. by apply Hids.
  - intros i j ci cj Hi Hj Hij.
    apply Hids in Hi as [-> _]. apply Hids in Hj as [-> _]. lia.
  - intros c Hc. rewrite Forall_forall in Htxt.
    destruct (Htxt c Hc) as [Hs He]. rewrite strip_solid by done.
    apply truthy_true. by apply starts_solid_truthy.
Qed.

(** ** Paragraphs are kept whole *)

Section GroupFacts.
Import PyStr.
Variables chunk_size overlap : Z.

Lemma join_snoc sep (g : list string) p :
  g ≠ [] → join sep (g ++ [p]) = join sep g +:+ sep +:+ p.
Proof.
  induction g as [|w g IH]; [done|]. intros _.
  destruct g as [|w' g]; [done|].
  change (join sep ((w :: w' :: g) ++ [p]))
    with (w +:+ sep +:+ join sep ((w' :: g) ++ [p])).
  rewrite IH by done.
  change (join sep (w :: w' :: g)) with (w +:+ sep +:+ join sep (w' :: g)).
  by rewrite !app_assoc'.
Qed.

Lemma substring_of_refl a : substring_of a a.
Proof. exists "", "". by rewrite app_nil_r'. Qed.

Lemma substring_of_app_l a b x : substring_of a b → substring_of a (x +:+ b).
Proof.
  intros (pre & post & ->). exists (x +:+ pre), post. by rewrite app_assoc'.
Qed.

Lemma substring_of_app_r a b x : substring_of a b → substring_of a (b +:+ x).
Proof.
  intros (pre & post & ->). exists pre, (post +:+ x). by rewrite !app_assoc'.
Qed.

Lemma substring_of_join sep (g : list string) p :
  p ∈ g → substring_of p (join sep g).
Proof.
  induction g as [|w g IH]; [by intros ?%elem_of_nil|].
  intros [->|Hp]%elem_of_cons.
  - destruct g; [apply substring_of_refl|].
    apply substring_of_app_r, substring_of_refl.
  - destruct g as [|w' g]; [by apply elem_of_nil in Hp|].
    change (join sep (w :: w' :: g)) with (w +:+ sep +:+ join sep (w' :: g)).
    do 2 apply substring_of_app_l. by apply IH.
Qed.

Lemma render_snoc seed g p :
  g ≠ [] → render (seed, g ++ [p]) = render (seed, g) +:+ (LF +:+ LF +:+ p).
Proof.
  intros Hg. unfold render. simpl. rewrite join_snoc by done.
  by rewrite !app_assoc'.
Qed.

Lemma render_seed cur p :
  render (seed_of overlap cur, [p]) =
  if truthy (overlap_text_of overlap cur)
  then overlap_text_of overlap cur +:+ " " +:+ p else p.
Proof.
  unfold render, seed_of. simpl. destruct (truthy _); [|done].
  by rewrite app_assoc'.
Qed.

Lemma chunk_step_groups st done p :
  chunker_inv st → solid p → groups_inv st done →
  groups_inv (chunk_step chunk_size overlap st p) (done ++ [p]).
Proof.
  intros (_ & _ & _ & Hcur) Hp (gs & og & Htxt & Hne & Hdone & Hog).
  unfold chunk_step. destruct (must_flush _ _ _) eqn:Hf.
  - pose proof (must_flush_truthy _ _ _ Hf) as Ht.
    destruct og as [g|]; [|by rewrite Hog in Ht].
    destruct Hog as (Hg & Hgne & _).
    destruct (cur_ok_truthy _ Hcur Ht) as [Hs He].
    exists (gs ++ [g]), (Some (seed_of overlap (st_current st), [p])).
    simpl. split_and!.
    + rewrite !fmap_app, Htxt. simpl. by rewrite strip_solid, Hg.
    + apply Forall_app. split; [done|]. by constructor.
    + rewrite fmap_app, concat_app. simpl. rewrite app_nil_r.
      simpl in Hdone. by rewrite <- Hdone.
    + by rewrite render_seed.
    + done.
    + destruct Hp as [Hps _]. apply starts_solid_truthy in Hps.
      destruct (truthy (overlap_text_of _ _)); [|done].
      by do 2 apply truthy_app_r.
  - destruct og as [g|].
    + destruct Hog as (Hg & Hgne & Ht). simpl. rewrite Ht.
      exists gs, (Some (fst g, snd g ++ [p])). simpl. split_and!.
      * done.
      * done.
      * rewrite <- Hdone. simpl. by rewrite app_assoc.
      * rewrite render_snoc by done. destruct g; simpl in *. by rewrite Hg.
      * intros [? _]%app_eq_nil. done.
      * by apply truthy_app_l.
    + simpl. rewrite Hog. simpl.
      exists gs, (Some ("", [p])). simpl. split_and!.
      * done.
      * done.
      * rewrite <- Hdone. simpl. by rewrite app_nil_r.
      * done.
      * done.
      * apply starts_solid_truthy, Hp.
Qed.

Lemma chunk_loop_groups ps st done :
  chunker_inv st → Forall solid ps → groups_inv st done →
  groups_inv (chunk_loop chunk_size overlap st ps) (done ++ ps).
Proof.
  revert st done. induction ps as [|p ps IH]; intros st done Hst Hps Hg.
  - by rewrite app_nil_r.
  - inversion Hps; subst. simpl.
    replace (done ++ p :: ps) with ((done ++ [p]) ++ ps)
      by (by rewrite <- app_assoc).
    apply IH; [by apply chunk_step_inv|done|by apply chunk_step_groups].
Qed.

Lemma chunker_init_groups : groups_inv chunker_init [].
Proof. exists [], None. simpl. split_and!; [done|constructor|done|done]. Qed.

(** The chunk texts are the renderings of consecutive, non-empty groups of
    whole paragraphs, each behind its overlap seed. *)
Lemma chunk_text_groups text :
  ∃ gs : list group,
    chunk_text_of <$> chunk_text text chunk_size overlap = render <$> gs ∧
    Forall (λ g, snd g ≠ []) gs ∧
    concat (snd <$> gs) = paragraphs_of text.
Proof.
  pose proof (paragraphs_of_solid text) as Hps.
  pose proof (chunk_loop_inv chunk_size overlap _ _ chunker_init_inv Hps)
    as (_ & _ & _ & Hcur).
  pose proof (chunk_loop_groups _ _ _ chunker_init_inv Hps chunker_init_groups)
    as (gs & og & Htxt & Hne & Hdone & Hog).
  unfold chunk_text, chunk_finish. simpl in Hdone.
  destruct og as [g|].
  - destruct Hog as (Hg & Hgne & Ht). rewrite Ht.
    destruct (cur_ok_truthy _ Hcur Ht) as [Hs He].
    exists (gs ++ [g]). split_and!.
    + rewrite !fmap_app, Htxt. simpl. by rewrite strip_solid, Hg.
    + apply Forall_app. split; [done|]. by constructor.
    + rewrite fmap_app, concat_app. simpl. by rewrite app_nil_r.
  - rewrite Hog. simpl. exists gs. split_and!; [done..|].
    simpl in Hdone. by rewrite app_nil_r in Hdone.
Qed.

Lemma elem_of_concat {A} (x : A) (ls : list (list A)) :
  x ∈ concat ls → ∃ l, x ∈ l ∧ l ∈ ls.
Proof.
  induction ls as [|l ls IH]; simpl; [by intros ?%elem_of_nil|].
  intros [Hx|Hx]%elem_of_app.
  - exists l. split; [done|]. by left.
  - destruct (IH Hx) as (l' & ? & ?). exists l'. split; [done|]. by right.
Qed.

Lemma chunk_text_whole text p :
  p ∈ paragraphs_of text →
  ∃ c, c ∈ chunk_text text chunk_size overlap ∧
       substring_of p (chunk_text_of c).
Proof.
  intros Hp. destruct (chunk_text_groups text) as (gs & Htxt & _ & Hcat).
  rewrite <- Hcat in Hp.
  apply elem_of_concat in Hp as (l & Hpl & Hl).
  apply list_elem_of_fmap in Hl as (g & -> & Hg).
  assert (render g ∈ chunk_text_of <$> chunk_text text chunk_size overlap)
    as Hin by (rewrite Htxt; by apply list_elem_of_fmap_2).
  apply list_elem_of_fmap in Hin as (c & Hc & Hcin).
  exists c. split; [done|]. rewrite <- Hc.
  by apply substring_of_app_l, substring_of_join.
Qed.

End GroupFacts.

(** C6. When every trimmed, non-empty paragraph of the text is shorter than
    [chunk_size], no paragraph is split across chunks: the chunk texts are
    renderings of consecutive non-empty groups of whole paragraphs (each
    behind its overlap seed) that together list the paragraphs in order, and
    so every paragraph occurs whole, as a contiguous substring, in a chunk.
    (The proof does not use the length bound.) *)
Theorem chunk_text_keeps_paragraphs_whole
    (text : string) (chunk_size overlap : Z)
    (Hshort : ∀ p, p ∈ paragraphs_of text → PyStr.len p < chunk_size) :
  (∃ gs : list group,
     chunk_text_of <$> chunk_text text chunk_size overlap = render <$> gs ∧
     Forall (λ g, snd g ≠ []) gs ∧
     concat (snd <$> gs) = paragraphs_of text) ∧
  (∀ p, p ∈ paragraphs_of text →
     ∃ c, c ∈ chunk_text text chunk_size overlap ∧
          substring_of p (chunk_text_of c)).
Proof.
  split; [apply chunk_text_groups|]. intros p Hp. by apply chunk_text_whole.
Qed.

(** ** The overlap seed *)

Section SeedFacts.
Import PyStr.
Variables chunk_size overlap : Z.

Lemma slice_from_trailing {A} (n : nat) (ws : list A) :
  (0 < n)%nat → slice_from ((- (10 * Z.of_nat n)) / 10) ws = trailing n ws.
Proof.
  intros Hn. unfold slice_from, trailing.
  replace (- (10 * Z.of_nat n)) with ((- Z.of_nat n) * 10) by lia.
  rewrite Z.div_mul by lia.
  destruct (Z.ltb_spec (- Z.of_nat n) 0); [|lia]. f_equal. lia.
Qed.

Lemma overlap_text_multiple (n : nat) cur :
  (0 < n)%nat →
  overlap_text_of (10 * Z.of_nat n) cur =
  if decide (n < length (split_ws cur))%nat
  then join " " (trailing n (split_ws cur)) else "".
Proof.
  intros Hn. unfold overlap_text_of.
  replace (10 * Z.of_nat n / 10) with (Z.of_nat n)
    by (rewrite Z.mul_comm, Z.div_mul; lia).
  rewrite slice_from_trailing by done.
  destruct (Z.gtb_spec (Z.of_nat (length (split_ws cur))) (Z.of_nat n));
    case_decide; (done || lia).
Qed.

Lemma trailing_nonempty {A} (n : nat) (ws : list A) :
  (0 < n)%nat → (n < length ws)%nat → trailing n ws ≠ [].
Proof.
  intros Hn Hlen Hnil. apply (f_equal length) in Hnil.
  unfold trailing in Hnil. rewrite length_drop in Hnil. simpl in Hnil. lia.
Qed.

Lemma trailing_words n ws :
  Forall (λ w, is_word w = true) ws →
  Forall (λ w, is_word w = true) (trailing n ws).
Proof. intros H. by apply Forall_drop. Qed.

(** What a flush leaves in the buffer when [overlap = 10 * n], [n > 0]. *)
Lemma chunk_step_flush (n : nat) st p :
  (0 < n)%nat →
  must_flush chunk_size (st_current st) p = true →
  chunk_step chunk_size (10 * Z.of_nat n) st p =
  ChunkerState (st_chunks st ++ [make_chunk (st_next_id st) (st_current st)])
               (seeded_buffer n (st_current st) p)
               (st_next_id st + 1).
Proof.
  intros Hn Hf. unfold chunk_step. rewrite Hf. f_equal.
  rewrite overlap_text_multiple by done. unfold seeded_buffer.
  case_decide as Hlen; [|done].
  rewrite join_words_truthy; [done| |].
  - apply trailing_words, split_ws_words.
  - by apply trailing_nonempty.
Qed.

(** Chunks, once appended, stay where they are. *)
Lemma chunk_step_chunks_prefix st p :
  ∃ more, st_chunks (chunk_step chunk_size overlap st p) = st_chunks st ++ more.
Proof.
  unfold chunk_step. destruct (must_flush _ _ _); simpl.
  - by eexists.
  - exists []. by rewrite app_nil_r.
Qed.

Lemma chunk_loop_chunks_prefix ps st :
  ∃ more, st_chunks (chunk_loop chunk_size overlap st ps) = st_chunks st ++ more.
Proof.
  revert st. induction ps as [|p ps IH]; intros st; simpl.
  - exists []. by rewrite app_nil_r.
  - destruct (IH (chunk_step chunk_size overlap st p)) as [m1 ->].
    destruct (chunk_step_chunks_prefix st p) as [m2 ->].
    exists (m2 ++ m1). by rewrite app_assoc.
Qed.

Lemma chunk_finish_chunks_prefix st :
  ∃ more, chunk_finish st = st_chunks st ++ more.
Proof.
  unfold chunk_finish. destruct (truthy _).
  - by eexists.
  - exists []. by rewrite app_nil_r.
Qed.

Lemma chunk_run_lookup ps st k c :
  st_chunks st !! k = Some c →
  chunk_finish (chunk_loop chunk_size overlap st ps) !! k = Some c.
Proof.
  intros Hk.
  destruct (chunk_finish_chunks_prefix (chunk_loop chunk_size overlap st ps))
    as [m1 ->].
  destruct (chunk_loop_chunks_prefix ps st) as [m2 ->].
  by do 2 apply lookup_app_l_Some.
Qed.

(** The chunk emitted next starts with the current buffer. *)
Lemma next_chunk_extends_buffer ps st :
  chunker_inv st → Forall solid ps → truthy (st_current st) = true →
  ∃ c suffix,
    chunk_finish (chunk_loop chunk_size overlap st ps)
      !! length (st_chunks st) = Some c ∧
    chunk_text_of c = st_current st +:+ suffix.
Proof.
  revert st. induction ps as [|p ps IH]; intros st Hinv Hps Ht.
  - destruct Hinv as (_ & _ & _ & Hcur).
    destruct (cur_ok_truthy _ Hcur Ht). simpl. unfold chunk_finish.
    rewrite Ht. eexists _, "". split.
    + rewrite lookup_app_r by done. by rewrite Nat.sub_diag.
    + simpl. rewrite strip_solid by done. by rewrite app_nil_r'.
  - inversion Hps as [|? ? Hp Hps']; subst. simpl.
    pose proof (chunk_step_inv chunk_size overlap st p Hinv Hp) as Hinv'.
    unfold chunk_step in *. destruct (must_flush _ _ _) eqn:Hf.
    + destruct Hinv as (_ & _ & _ & Hcur).
      destruct (cur_ok_truthy _ Hcur Ht).
      eexists _, "". split.
      * apply chunk_run_lookup. simpl.
        rewrite lookup_app_r by done. by rewrite Nat.sub_diag.
      * simpl. rewrite strip_solid by done. by rewrite app_nil_r'.
    + rewrite Ht in *.
      destruct (IH _ Hinv' Hps') as (c & suffix & Hc & Htxt).
      { simpl. by apply truthy_app_l. }
      simpl in *. exists c. eexists. split; [done|].
      rewrite Htxt. by rewrite app_assoc'.
Qed.

End SeedFacts.

(** C1 (as amended).  Let [overlap] be a positive multiple of ten, [10 * n].
    At every mid-stream flush of a [chunk_text] run (the buffer [cur] is
    flushed because appending paragraph [p] would exceed [chunk_size]), the
    flushed chunk is appended with the next id, and the new buffer is the
    last [n] words of [cur] joined by single spaces, a space and [p] when
    [cur] has more than [n] words; it is [p] alone when [cur] has at most [n]
    words.  The chunk that follows the flushed one in the result starts
    with that buffer. *)
Theorem chunk_text_flush_seed
    (text : string) (chunk_size : Z) (n : nat)
    (pre : list string) (p : string) (post : list string)
    (Hn : (0 < n)%nat)
    (Hpars : paragraphs_of text = pre ++ p :: post)
    (Hflush : must_flush chunk_size
                (st_current (chunk_loop chunk_size (10 * Z.of_nat n)
                               chunker_init pre)) p = true) :
  let overlap := 10 * Z.of_nat n in
  let st := chunk_loop chunk_size overlap chunker_init pre in
  let st' := chunk_step chunk_size overlap st p in
  let k := length (st_chunks st) in
  st_chunks st' = st_chunks st ++ [make_chunk (st_next_id st) (st_current st)] ∧
  st_current st' = seeded_buffer n (st_current st) p ∧
  chunk_text text chunk_size overlap !! k
    = Some (make_chunk (Z.of_nat k) (st_current st)) ∧
  ∃ c suffix,
    chunk_text text chunk_size overlap !! S k = Some c ∧
    chunk_text_of c = seeded_buffer n (st_current st) p +:+ suffix.
Proof.
  intros overlap st st' k.
  pose proof (paragraphs_of_solid text) as Hsolid.
  rewrite Hpars in Hsolid. apply Forall_app in Hsolid as [Hpre Hrest].
  inversion Hrest as [|? ? Hp Hpost]; subst.
  pose proof (chunk_loop_inv chunk_size overlap _ _ chunker_init_inv Hpre)
    as Hinv. fold st in Hinv.
  pose proof (chunk_step_inv chunk_size overlap st p Hinv Hp) as Hinv'.
  fold st' in Hinv'.
  assert (st' = ChunkerState
            (st_chunks st ++ [make_chunk (st_next_id st) (st_current st)])
            (seeded_buffer n (st_current st) p) (st_next_id st + 1)) as Hst'
    by (by apply chunk_step_flush).
  assert (chunk_text text chunk_size overlap
          = chunk_finish (chunk_loop chunk_size overlap st' post)) as Hrun.
  { unfold chunk_text, chunk_loop. rewrite Hpars, fold_left_app. done. }
  split_and!.
  - by rewrite Hst'.
  - by rewrite Hst'.
  - rewrite Hrun. apply chunk_run_lookup. rewrite Hst'. simpl.
    rewrite lookup_app_r by done. rewrite Nat.sub_diag. simpl.
    destruct Hinv as (-> & _). done.
  - assert (PyStr.truthy (st_current st') = true) as Ht.
    { destruct Hinv' as (_ & _ & _ & [E|[Hs _]]).
      - rewrite Hst' in E. simpl in E. unfold seeded_buffer in E.
        destruct Hp as [Hps _]. apply starts_solid_truthy in Hps.
        case_decide.
        + apply (truthy_app_r " ") in Hps.
          apply (truthy_app_r
                   (PyStr.join " " (trailing n (PyStr.split_ws (st_current st)))))
            in Hps.
          by rewrite E in Hps.
        + by rewrite E in Hps.
      - by apply starts_solid_truthy. }
    destruct (next_chunk_extends_buffer chunk_size overlap post st'
                Hinv' Hpost Ht) as (c & suffix & Hc & Htxt).
    exists c, suffix. rewrite Hrun. rewrite Hst' in Hc, Htxt. simpl in *.
    rewrite length_app in Hc. simpl in Hc.
    replace (length (st_chunks st) + 1)%nat with (S k) in Hc by (unfold k; lia).
    rewrite Hst'. done.
Qed.

Lemma chunk_text_flush_seed_witness :
  let text := two_paragraphs "a b c d" "bbbb" in
  let st := chunk_loop 5 20 chunker_init ["a b c d"] in
  (0 < 2)%nat ∧
  paragraphs_of text = ["a b c d"] ++ "bbbb" :: [] ∧
  must_flush 5 (st_current st) "bbbb" = true ∧
  st_current (chunk_step 5 20 st "bbbb") = seeded_buffer 2 (st_current st) "bbbb" ∧
  seeded_buffer 2 (st_current st) "bbbb" = "c d bbbb".
Proof.
  assert (H1 : (0 < 2)%nat) by lia.
  assert (H2 : paragraphs_of (two_paragraphs "a b c d" "bbbb")
               = ["a b c d"] ++ "bbbb" :: []) by (vm_compute; reflexivity).
  assert (H3 : must_flush 5
                 (st_current (chunk_loop 5 (10 * Z.of_nat 2) chunker_init
                                ["a b c d"])) "bbbb" = true)
    by (vm_compute; reflexivity).
  pose proof (chunk_text_flush_seed _ 5 2 _ _ _ H1 H2 H3) as (_ & H & _).
  split_and!; [exact H1|exact H2|exact H3|exact H|vm_compute; reflexivity].
Defined.

(** C1, as stated, fails: with [overlap = 10] the trailing [overlap/10 = 1]
    word of the flushed buffer ["aaa"] is ["aaa"], yet the code starts the
    next buffer from the paragraph alone, because the buffer does not have
    more than one word. *)
Lemma chunk_text_seed_counterexample :
  let text := two_paragraphs "aaa" "bbbb" in
  let st := chunk_loop 5 10 chunker_init ["aaa"] in
  paragraphs_of text = ["aaa"; "bbbb"] ∧
  st_current st = "aaa" ∧
  must_flush 5 (st_current st) "bbbb" = true ∧
  seeded_as_specified 10 (st_current st) "bbbb" = "aaa bbbb" ∧
  st_current (chunk_step 5 10 st "bbbb") = "bbbb" ∧
  st_current (chunk_step 5 10 st "bbbb")
    ≠ seeded_as_specified 10 (st_current st) "bbbb" ∧
  chunk_text_of <$> chunk_text text 5 10 = ["aaa"; "bbbb"].
Proof. vm_compute. split_and!; (reflexivity || discriminate). Qed.

(** The same with the default parameters: a flushed buffer of twenty words
    leaves no seed although [overlap/10] is twenty. *)
Example chunk_text_default_short_buffer :
  let words20 := "w" +:+ repeat_str 19 " w" in
  let long := repeat_str 1000 "b" in
  chunk_text_of <$> chunk_text (two_paragraphs words20 long) 1000 200
    = [words20; long] ∧
  seeded_as_specified 200 words20 long = words20 +:+ " " +:+ long.
Proof. vm_compute. split; reflexivity. Qed.

(** Outside the multiples of ten the slice bound [-overlap//10] and the
    guard [overlap//10] disagree: [overlap = 15] carries two words, and
    [overlap = 0] carries the whole buffer. *)
Example chunk_text_overlap_15 :
  chunk_text_of <$> chunk_text (two_paragraphs "a b c d" "bbbb") 5 15
    = ["a b c d"; "c d bbbb"].
Proof. vm_compute. reflexivity. Qed.

Example chunk_text_overlap_0 :
  chunk_text_of <$> chunk_text (two_paragraphs "a b c d" "bbbb") 5 0
    = ["a b c d"; "a b c d bbbb"].
Proof. vm_compute. reflexivity. Qed.

Lemma chunk_text_keeps_paragraphs_whole_witness :
  let text := two_paragraphs "a b c d" "bbbb" in
  (∀ p, p ∈ paragraphs_of text → PyStr.len p < 10) ∧
  (∀ p, p ∈ paragraphs_of text →
     ∃ c, c ∈ chunk_text text 10 20 ∧ substring_of p (chunk_text_of c)).
Proof.
  assert (H : ∀ p, p ∈ paragraphs_of (two_paragraphs "a b c d" "bbbb") →
                   PyStr.len p < 10).
  { intros p Hp. vm_compute in Hp.
    apply elem_of_cons in Hp as [->|Hp]; [reflexivity|].
    apply elem_of_cons in Hp as [->|Hp]; [reflexivity|].
    by apply elem_of_nil in Hp. }
  split; [exact H|].
  exact (proj2 (chunk_text_keeps_paragraphs_whole _ 10 20 H)).
Defined.

(** ** The rule-based responder cites its sources *)

Section SynthesizerFacts.
Variable E : collaborators.

Lemma cite_ok relevant_chunks ids before after :
  map_result (λ chunk, getitem chunk "id") relevant_chunks = Ok ids →
  cite E relevant_chunks before after
  = Ok (before +:+ PyStr.join ", " (py_str E <$> ids) +:+ after).
Proof. intros H. unfold cite, cited_ids. by rewrite H. Qed.

(** Every answer of the responder is one of its fixed phrasings around the
    cited ids. *)
Lemma generate_intelligent_answer_shape question relevant_chunks context :
  ∃ before after,
    generate_intelligent_answer E question relevant_chunks context
    = cite E relevant_chunks before after.
Proof.
  unfold generate_intelligent_answer. cbv zeta.
  repeat match goal with
         | |- context [if ?b then _ else _] => destruct b
         end;
    by eexists _, _.
Qed.

End SynthesizerFacts.

(** C7. For every question and every non-empty sequence of retrieved chunks
    (each carrying an id), the fallback responder returns a string that
    contains the ids of all retrieved chunks, in retrieval order and
    separated by a comma and a space; so the id of each retrieved chunk
    occurs in the answer.  This holds in every branch of the keyword
    classification, the default branch included. *)
Theorem generate_intelligent_answer_cites
    (E : collaborators) (question : string) (relevant_chunks : list pydict)
    (context : string) (ids : list value)
    (Hnonempty : relevant_chunks ≠ [])
    (Hids : map_result (λ chunk, getitem chunk "id") relevant_chunks = Ok ids) :
  ∃ answer before after,
    generate_intelligent_answer E question relevant_chunks context = Ok answer ∧
    answer = before +:+ PyStr.join ", " (py_str E <$> ids) +:+ after ∧
    ∀ i, i ∈ ids → substring_of (py_str E i) answer.
Proof.
  destruct (generate_intelligent_answer_shape E question relevant_chunks context)
    as (before & after & ->).
  rewrite (cite_ok E _ ids) by done.
  eexists _, before, after. split_and!; [done..|].
  intros i Hi. apply substring_of_app_l, substring_of_app_r.
  apply substring_of_join. by apply list_elem_of_fmap_2.
Qed.

(** ** The request monad *)

Section MonadFacts.
Context {A B : Type}.

Lemma bind_inv (m : M A) (k : A → M B) s r s' :
  bind m k s = (r, s') →
  (∃ a s1, m s = (Ok a, s1) ∧ k a s1 = (r, s')) ∨
  (∃ e, m s = (Raise e, s') ∧ r = Raise e).
Proof.
  unfold bind. destruct (m s) as [[a|e] s1]; intros H.
  - left. by exists a, s1.
  - right. exists e. by inversion H.
Qed.


Lemma bind_raise (m : M A) (k : A → M B) s e s1 :
  m s = (Raise e, s1) → bind m k s = (Raise e, s1).
Proof. unfold bind. by intros ->. Qed.

End MonadFacts.

Ltac inv_bind H :=
  let a := fresh "a" in
  let s1 := fresh "s1" in
  let e := fresh "e" in
  let H1 := fresh "Hrun" in
  let Heq := fresh "Heq" in
  apply bind_inv in H as [(a & s1 & H1 & H) | (e & H & Heq)];
  [|try subst].

(** Break a run of the request monad into its steps. *)
Ltac run_step :=
  match goal with
  | H : bind _ _ _ = (_, _) |- _ =>
      apply bind_inv in H as [(? & ? & ? & H) | (? & H & ?)]
  | H : log _ _ = (_, _) |- _ => unfold log in H; inversion H; clear H
  | H : ret _ _ = (_, _) |- _ => unfold ret in H; inversion H; clear H
  | H : raise _ _ = (_, _) |- _ => unfold raise in H; inversion H; clear H
  | H : lift _ _ = (_, _) |- _ => unfold lift in H; inversion H; clear H
  | H : Ok _ = Raise _ |- _ => discriminate H
  | H : Raise _ = Ok _ |- _ => discriminate H
  | H : (match ?x with Returned _ => _ | Raised _ => _ end) _ = (_, _) |- _ =>
      destruct x eqn:?
  end.

Ltac run_steps := repeat (run_step; subst; simpl in * ).

(** Closes the goal of [ingest_spec] at a point where ingestion fails. *)
Ltac ingest_failed :=
  split_and!;
  [ done
  | rewrite <- ?app_assoc; simpl; eexists _, _; split; [reflexivity|];
    unfold ingestion_events; eexists; reflexivity
  | left; by eexists ].

(** ** Frames of the question phase *)

Section FrameFacts.
Variable E : collaborators.
Variable h0 : gmap loc pydict.

Lemma question_frame_refl s : question_frame h0 s s.
Proof.
  split_and!; [done..|]. exists []. split; [by rewrite app_nil_r|constructor].
Qed.

Lemma question_frame_trans s1 s2 s3 :
  question_frame h0 s1 s2 → question_frame h0 s2 s3 → question_frame h0 s1 s3.
Proof.
  intros (Hd1 & Hv1 & Hh1 & d1 & Ht1 & Hf1) (Hd2 & Hv2 & Hh2 & d2 & Ht2 & Hf2).
  split_and!; [congruence|congruence|auto|].
  exists (d1 ++ d2). split.
  - by rewrite Ht2, Ht1, app_assoc.
  - by apply Forall_app.
Qed.

Lemma log_frame e s r s' :
  kind_of e = None → log e s = (r, s') →
  r = Ok tt ∧ question_frame h0 s s' ∧ trace s' = trace s ++ [e] ∧
  heap s' = heap s.
Proof.
  intros He H. unfold log in H. inversion H; subst; clear H.
  split_and!; [done| |done|done].
  split_and!; [done..|]. exists [e]. split; [done|]. by constructor.
Qed.

Lemma deref_same l s r s' : deref l s = (r, s') → s' = s.
Proof. unfold deref. destruct (heap s !! l); by intros [= _ <-]. Qed.

Lemma lift_same {A} (x : result A) s r s' : lift x s = (r, s') → r = x ∧ s' = s.
Proof. by intros [= <- <-]. Qed.

Lemma ret_same {A} (x : A) s r s' : ret x s = (r, s') → r = Ok x ∧ s' = s.
Proof. by intros [= <- <-]. Qed.

Lemma raise_same {A} e s (r : result A) s' :
  raise e s = (r, s') → r = Raise e ∧ s' = s.
Proof. by intros [= <- <-]. Qed.

Lemma set_heap_frame h s :
  (h0 ⊆ heap s → h0 ⊆ h) → question_frame h0 s (set_heap h s).
Proof.
  intros Hh. split_and!; [done..|].
  exists []. split; [by rewrite app_nil_r|constructor].
Qed.

Lemma alloc_frame d s r s' :
  alloc d s = (r, s') →
  ∃ l, r = Ok l ∧ heap s !! l = None ∧ heap s' = <[l := d]> (heap s) ∧
       trace s' = trace s ∧ question_frame h0 s s'.
Proof.
  unfold alloc. intros [= <- <-].
  assert (heap s !! fresh (dom (heap s)) = None) as Hfresh
    by (apply not_elem_of_dom, is_fresh).
  eexists. split_and!; [done..|].
  apply set_heap_frame. intros Hsub.
  etrans; [exact Hsub|]. by apply insert_subseteq.
Qed.

Lemma update_frame l f s r s' :
  h0 !! l = None → update l f s = (r, s') →
  question_frame h0 s s' ∧ trace s' = trace s.
Proof.
  intros Hl. unfold update. destruct (heap s !! l) as [d|] eqn:Hd.
  - intros [= <- <-]. split; [|done]. apply set_heap_frame. intros Hsub.
    apply map_subseteq_spec. intros i x Hi.
    destruct (decide (i = l)) as [->|Hne]; [congruence|].
    rewrite lookup_insert_ne by done.
    by eapply lookup_weaken.
  - intros [= <- <-]. split; [apply question_frame_refl|done].
Qed.

Lemma fresh_for_frame s l :
  h0 ⊆ heap s → heap s !! l = None → h0 !! l = None.
Proof.
  intros Hsub Hl. destruct (h0 !! l) as [d|] eqn:Hd; [|done].
  by rewrite (lookup_weaken _ _ _ _ Hd Hsub) in Hl.
Qed.

Lemma get_embeddings_same texts s r s' :
  get_embeddings E texts s = (r, s') → s' = s.
Proof. unfold get_embeddings. destruct (encode E texts); by intros [= _ <-]. Qed.

End FrameFacts.

Section QuestionPhase.
Variable E : collaborators.
Variable h0 : gmap loc pydict.

Lemma collect_hits_frame chunks hits :
  ∀ rel s r s',
    h0 ⊆ heap s → fresh_for h0 rel →
    collect_hits chunks hits rel s = (r, s') →
    question_frame h0 s s' ∧ trace s' = trace s ∧
    ∀ rel', r = Ok rel' → fresh_for h0 rel'.
Proof.
  induction hits as [|[score idx] hits IH]; intros rel s r s' Hsub Hrel H; simpl in H.
  - apply ret_same in H as [-> ->].
    split_and!; [apply question_frame_refl|done|]. by intros ? [= <-].
  - destruct (idx =? -1); [by eapply IH|].
    inv_bind H; [|apply lift_same in H as [_ ->];
                  split_and!; [apply question_frame_refl|done..]].
    apply lift_same in Hrun as [_ ->].
    inv_bind H; [|apply deref_same in H as ->;
                  split_and!; [apply question_frame_refl|done..]].
    apply deref_same in Hrun as ->.
    inv_bind H; [|apply (alloc_frame h0) in H as (? & ? & _); done].
    apply (alloc_frame h0) in Hrun as (l & [= ->] & Hl & Hheap & Htr & Hfr).
    pose proof (fresh_for_frame h0 s l Hsub Hl) as Hl0.
    pose proof Hfr as (_ & _ & Hsub1 & _). specialize (Hsub1 Hsub).
    inv_bind H.
    + apply (update_frame h0) in Hrun as [Hfr2 Htr2]; [|done].
      pose proof Hfr2 as (_ & _ & Hsub2 & _). specialize (Hsub2 Hsub1).
      eapply IH in H as (Hfr3 & Htr3 & Hres); [|done|].
      * split_and!; [|congruence|done].
        eapply question_frame_trans; [exact Hfr|].
        eapply question_frame_trans; [exact Hfr2|exact Hfr3].
      * apply Forall_app. split; [done|]. by constructor.
    + apply (update_frame h0) in H as [Hfr2 Htr2]; [|done].
      split_and!; [|congruence|done].
      eapply question_frame_trans; [exact Hfr|exact Hfr2].
Qed.

Lemma retrieve_frame question index chunks top_k s r s' :
  h0 ⊆ heap s →
  retrieve_relevant_chunks E question index chunks top_k s = (r, s') →
  question_frame h0 s s' ∧
  ∀ rel, r = Ok rel →
    fresh_for h0 rel ∧ trace s' = trace s ++ [EvEmbedQuery question; EvSearch question].
Proof.
  intros Hsub H. unfold retrieve_relevant_chunks in H.
  inv_bind H; [|by apply (log_frame h0) in H as (? & _)].
  apply (log_frame h0) in Hrun as (_ & Hfr1 & Htr1 & Hh1); [|done].
  inv_bind H; [|apply get_embeddings_same in H as ->; by split].
  apply get_embeddings_same in Hrun as ->.
  inv_bind H; [|by apply (log_frame h0) in H as (? & _)].
  apply (log_frame h0) in Hrun as (_ & Hfr2 & Htr2 & Hh2); [|done].
  destruct (index_search E index _ top_k) as [hits|msg].
  - apply collect_hits_frame in H as (Hfr3 & Htr3 & Hres);
      [|by rewrite Hh2, Hh1|constructor].
    split.
    + eapply question_frame_trans; [exact Hfr1|].
      eapply question_frame_trans; [exact Hfr2|exact Hfr3].
    + intros rel Hr. split; [by apply Hres|].
      by rewrite Htr3, Htr2, Htr1, <- app_assoc.
  - apply raise_same in H as [-> ->]. split; [|done].
    eapply question_frame_trans; [exact Hfr1|exact Hfr2].
Qed.

Lemma forM_update_frame f ls :
  ∀ s r s',
    fresh_for h0 ls →
    forM (λ chunk, update chunk f) ls s = (r, s') →
    question_frame h0 s s' ∧ trace s' = trace s.
Proof.
  induction ls as [|l ls IH]; intros s r s' Hls H; simpl in H.
  - apply ret_same in H as [-> ->]. split; [apply question_frame_refl|done].
  - inversion Hls; subst. inv_bind H.
    + apply (update_frame h0) in Hrun as [Hfr1 Htr1]; [|done].
      apply IH in H as [Hfr2 Htr2]; [|done].
      split; [by eapply question_frame_trans|congruence].
    + by apply (update_frame h0) in H.
Qed.

Lemma mapM_deref_same ls : ∀ s r s', mapM deref ls s = (r, s') → s' = s.
Proof.
  induction ls as [|l ls IH]; intros s r s' H; simpl in H.
  - by apply ret_same in H as [_ ->].
  - inv_bind H; [|by apply deref_same in H].
    apply deref_same in Hrun as ->.
    inv_bind H; [|by apply IH in H].
    apply IH in Hrun as ->. by apply ret_same in H as [_ ->].
Qed.

Lemma answer_question_frame question rel s r s' :
  answer_question E question rel s = (r, s') →
  question_frame h0 s s' ∧ heap s' = heap s.
Proof.
  intros H. unfold answer_question in H.
  inv_bind H; [|by apply (log_frame h0) in H as (? & _)].
  apply (log_frame h0) in Hrun as (_ & Hfr1 & Htr1 & Hh1); [|done].
  inv_bind H; [|apply mapM_deref_same in H as ->; by split].
  apply mapM_deref_same in Hrun as ->.
  inv_bind H; [|apply lift_same in H as [_ ->]; by split].
  apply lift_same in Hrun as [_ ->].
  destruct (gemini_model E) as [generate_content|].
  - inv_bind H; [|by apply (log_frame h0) in H as (? & _)].
    apply (log_frame h0) in Hrun as (_ & Hfr2 & Htr2 & Hh2); [|done].
    assert (s' = s0) as ->.
    { destruct (generate_content _).
      - by apply ret_same in H as [_ ->].
      - by apply lift_same in H as [_ ->]. }
    split; [by eapply question_frame_trans|congruence].
  - assert (s' = s1) as ->.
    { destruct (generate_intelligent_answer _ _ _ _).
      - by apply ret_same in H as [_ ->].
      - by apply lift_same in H as [_ ->]. }
    by split.
Qed.

Lemma answer_one_frame index chunks question s r s' :
  h0 ⊆ heap s →
  answer_one E index chunks question s = (r, s') →
  question_frame h0 s s' ∧
  ∀ answer sources, r = Ok (answer, sources) → fresh_for h0 sources.
Proof.
  intros Hsub H. unfold answer_one in H.
  inv_bind H; [|by apply retrieve_frame in H as [? _]].
  apply retrieve_frame in Hrun as [Hfr1 Hres]; [|done].
  destruct (Hres a eq_refl) as [Hfresh _].
  destruct a as [|l rel].
  - apply ret_same in H as [-> ->]. split; [done|].
    intros ? ? [= _ <-]. constructor.
  - inv_bind H.
    + apply forM_update_frame in Hrun as [Hfr2 _]; [|done].
      inv_bind H.
      * apply answer_question_frame in Hrun as [Hfr3 _].
        apply ret_same in H as [-> ->]. split.
        -- eapply question_frame_trans; [exact Hfr1|].
           by eapply question_frame_trans.
        -- by intros ? ? [= _ <-].
      * apply answer_question_frame in H as [Hfr3 _]. split; [|done].
        eapply question_frame_trans; [exact Hfr1|].
        by eapply question_frame_trans.
    + apply forM_update_frame in H as [Hfr2 _]; [|done].
      split; [by eapply question_frame_trans|done].
Qed.

Lemma answer_all_frame index chunks questions :
  ∀ acc s r s',
    h0 ⊆ heap s → fresh_for h0 (source_chunks acc) →
    answer_all E index chunks questions acc s = (r, s') →
    question_frame h0 s s' ∧
    ∀ resp, r = Ok resp → fresh_for h0 (source_chunks resp).
Proof.
  induction questions as [|q qs IH]; intros acc s r s' Hsub Hacc H; simpl in H.
  - apply ret_same in H as [-> ->]. split; [apply question_frame_refl|].
    by intros ? [= <-].
  - inv_bind H; [|by apply answer_one_frame in H as [? _]].
    destruct a as [answer sources].
    apply answer_one_frame in Hrun as [Hfr1 Hsrc]; [|done].
    pose proof Hfr1 as (_ & _ & Hsub1 & _). specialize (Hsub1 Hsub).
    apply IH in H as [Hfr2 Hres]; [|done|].
    + split; [by eapply question_frame_trans|done].
    + simpl. apply Forall_app. split; [done|]. by eapply Hsrc.
Qed.

End QuestionPhase.

(** ** Ingestion *)

Arguments mapM : simpl never.
Arguments forM : simpl never.

Section IngestFacts.
Variable E : collaborators.




Lemma mapM_alloc_spec {A} (f : A → pydict) xs :
  ∀ s r s',
    mapM (λ x, alloc (f x)) xs s = (r, s') →
    (∃ ls, r = Ok ls) ∧ heap s ⊆ heap s' ∧ trace s' = trace s ∧
    document_cache s' = document_cache s ∧
    vector_store_cache s' = vector_store_cache s.
Proof.
  induction xs as [|x xs IH]; intros s r s' H; simpl in H.
  - apply ret_same in H as [-> ->]. split_and!; [by eexists|done..].
  - inv_bind H; [|apply (alloc_frame ∅) in H as (? & ? & _); done].
    apply (alloc_frame ∅) in Hrun as (l & _ & Hl & Hheap & Htr & Hd & Hv & _).
    inv_bind H.
    + apply IH in Hrun as (_ & Hsub & Htr2 & Hd2 & Hv2).
      apply ret_same in H as [-> ->].
      split_and!; [by eexists| |congruence..].
      etrans; [|exact Hsub]. rewrite Hheap. by apply insert_subseteq.
    + apply IH in H as ([ls Hls] & _). done.
Qed.

(** Ingestion either fails, leaving the caches and the heap as they were,
    or stores an entry and an index under the document's key. *)
Lemma ingest_spec url doc_hash s r s' :
  ingest E url doc_hash s = (r, s') →
  heap s ⊆ heap s' ∧
  (∃ d texts, trace s' = trace s ++ d ∧
              d `prefix_of` ingestion_events url texts) ∧
  ((∃ e, r = Raise e ∧
         document_cache s' = document_cache s ∧
         vector_store_cache s' = vector_store_cache s ∧
         heap s' = heap s) ∨
   (r = Ok tt ∧ ∃ entry index,
         document_cache s' = <[doc_hash := entry]> (document_cache s) ∧
         vector_store_cache s' = <[doc_hash := index]> (vector_store_cache s))).
Proof.
  intros H. unfold ingest, download_pdf, extract_text_from_pdf in H.
  run_steps; [|ingest_failed..].
  destruct (negb _); run_steps; [ingest_failed|].
  destruct (chunk_text _ 1000 200) as [|c cs] eqn:Hchunks.
  { run_steps. ingest_failed. }
  unfold get_embeddings, create_vector_store, store_document, store_index in H.
  run_steps; try ingest_failed.
  all: match goal with
       | Hm : mapM _ _ _ = _ |- _ =>
           apply mapM_alloc_spec in Hm as ([ls ?] & Hsub & Htr & Hd & Hv)
       end; simplify_eq/=.
  split_and!.
  - done.
  - rewrite Htr, <- !app_assoc. simpl. eexists _, _. split; [reflexivity|].
    by exists [].
  - right. split; [done|]. eexists _, _. by rewrite Hd, Hv.
  Unshelve. all: exact [].
Qed.

End IngestFacts.

(** ** The orchestrator *)

Section ProcessFacts.
Variable E : collaborators.

Lemma at_boundary_inv {A} (m : M A) s r s' :
  at_boundary m s = (r, s') →
  ∃ r0, m s = (r0, s') ∧ (∀ a, r = Ok a → r0 = Ok a).
Proof.
  unfold at_boundary. destruct (m s) as [[a|[code detail|msg]] s1];
    intros [= <- <-]; eexists; split; try done.
Qed.

Lemma process_hit url questions s :
  is_Some (document_cache s !! md5_hexdigest E url) →
  process_insurance_query E url questions s
  = at_boundary (answer_from_cache E (md5_hexdigest E url) questions) s.
Proof.
  intros Hhit. unfold process_insurance_query, at_boundary, bind, cached.
  by rewrite bool_decide_eq_true_2.
Qed.

Lemma process_miss url questions s :
  document_cache s !! md5_hexdigest E url = None →
  process_insurance_query E url questions s
  = at_boundary (let* _ := ingest E url (md5_hexdigest E url) in
                 answer_from_cache E (md5_hexdigest E url) questions) s.
Proof.
  intros Hmiss. unfold process_insurance_query, at_boundary, bind, cached.
  rewrite bool_decide_eq_false_2; [done|].
  rewrite Hmiss. by intros [? ?].
Qed.

Lemma answer_from_cache_frame h0 doc_hash questions s r s' :
  h0 ⊆ heap s →
  answer_from_cache E doc_hash questions s = (r, s') →
  question_frame h0 s s' ∧
  ∀ resp, r = Ok resp → fresh_for h0 (source_chunks resp).
Proof.
  intros Hsub H. unfold answer_from_cache, lookup_document, lookup_index in H.
  apply bind_inv in H as [(entry & s1 & H1 & H) | (e & H & ->)].
  - destruct (document_cache s !! doc_hash); inversion H1; subst; clear H1.
    apply bind_inv in H as [(index & s2 & H2 & H) | (e & H & ->)].
    + destruct (vector_store_cache s1 !! doc_hash); inversion H2; subst; clear H2.
      eapply answer_all_frame in H; [done|done|constructor].
    + destruct (vector_store_cache s1 !! doc_hash); inversion H; subst.
      split; [apply question_frame_refl|done].
  - destruct (document_cache s !! doc_hash); inversion H; subst.
    split; [apply question_frame_refl|done].
Qed.

(** A request that finds its document cached only runs the question phase;
    one that does not runs [ingest] first. *)
Lemma process_spec url questions s r s' :
  process_insurance_query E url questions s = (r, s') →
  match document_cache s !! md5_hexdigest E url with
  | Some _ =>
      question_frame (heap s) s s' ∧
      ∀ resp, r = Ok resp → fresh_for (heap s) (source_chunks resp)
  | None =>
      ∃ r1 s1, ingest E url (md5_hexdigest E url) s = (r1, s1) ∧
        match r1 with
        | Raise _ => s' = s1 ∧ ∀ resp, r ≠ Ok resp
        | Ok _ => question_frame (heap s1) s1 s'
        end
  end.
Proof.
  intros H. destruct (document_cache s !! md5_hexdigest E url) as [entry|] eqn:Hc.
  - rewrite process_hit in H by (by rewrite Hc).
    apply at_boundary_inv in H as (r0 & H & Hok).
    apply (answer_from_cache_frame (heap s)) in H as [Hfr Hres]; [|done].
    split; [done|]. intros resp ->. by apply Hres, Hok.
  - rewrite process_miss in H by done.
    apply at_boundary_inv in H as (r0 & H & Hok).
    apply bind_inv in H as [([] & s1 & H1 & H) | (e & H & ->)].
    + exists (Ok tt), s1. split; [done|].
      by apply (answer_from_cache_frame (heap s1)) in H as [Hfr _].
    + exists (Raise e), s'. split; [done|]. split; [done|].
      intros resp ->. by specialize (Hok resp eq_refl).
Qed.

Lemma process_heap url questions s r s' :
  process_insurance_query E url questions s = (r, s') → heap s ⊆ heap s'.
Proof.
  intros H. apply process_spec in H.
  destruct (document_cache s !! md5_hexdigest E url).
  - destruct H as [(_ & _ & Hsub & _) _]. by apply Hsub.
  - destruct H as (r1 & s1 & Hin & H). apply ingest_spec in Hin as (Hsub & _).
    destruct r1 as [[]|e].
    + destruct H as (_ & _ & Hsub1 & _). etrans; [exact Hsub|]. by apply Hsub1.
    + by destruct H as [-> _].
Qed.

Lemma process_caches url questions s r s' :
  process_insurance_query E url questions s = (r, s') →
  (document_cache s' = document_cache s ∧
   vector_store_cache s' = vector_store_cache s) ∨
  (∃ entry index,
     document_cache s' = <[md5_hexdigest E url := entry]> (document_cache s) ∧
     vector_store_cache s' = <[md5_hexdigest E url := index]> (vector_store_cache s)).
Proof.
  intros H. apply process_spec in H.
  destruct (document_cache s !! md5_hexdigest E url).
  - destruct H as [(Hd & Hv & _) _]. by left.
  - destruct H as (r1 & s1 & Hin & H).
    apply ingest_spec in Hin as (_ & _ & [(e & -> & Hd & Hv & _)|(-> & Hst)]).
    + destruct H as [-> _]. by left.
    + destruct H as (Hd & Hv & _), Hst as (entry & index & Hd1 & Hv1).
      right. exists entry, index. split; congruence.
Qed.


Lemma process_ok_cached url questions s resp s' :
  process_insurance_query E url questions s = (Ok resp, s') →
  ∃ s0, answer_from_cache E (md5_hexdigest E url) questions s0 = (Ok resp, s').
Proof.
  intros H. destruct (document_cache s !! md5_hexdigest E url) as [entry|] eqn:Hc.
  - rewrite process_hit in H by (by rewrite Hc).
    apply at_boundary_inv in H as (r0 & H & Hok).
    rewrite (Hok resp eq_refl) in H. by exists s.
  - rewrite process_miss in H by done.
    apply at_boundary_inv in H as (r0 & H & Hok).
    rewrite (Hok resp eq_refl) in H.
    apply bind_inv in H as [([] & s1 & H1 & H) | (e & H & ?)]; [|done].
    by exists s1.
Qed.

End ProcessFacts.

(** ** The question loop *)

Section LoopFacts.
Variable E : collaborators.
Variables (index : faiss_index) (chunks : list loc).

Lemma answer_all_answered questions :
  ∀ acc s resp s',
    answer_all E index chunks questions acc s = (Ok resp, s') →
    ∃ outs,
      answered E index chunks s questions outs s' ∧
      answers resp = answers acc ++ outs.*1 ∧
      source_chunks resp = source_chunks acc ++ concat outs.*2.
Proof.
  induction questions as [|q qs IH]; intros acc s resp s' H; simpl in H.
  - apply ret_same in H as [[= <-] ->]. exists [].
    split_and!; [constructor|by rewrite app_nil_r..].
  - apply bind_inv in H as [([answer sources] & s1 & H1 & H) | (e & H & ?)];
      [|done].
    apply IH in H as (outs & Hans & Ha & Hs). simpl in *.
    exists ((answer, sources) :: outs). split_and!.
    + by econstructor.
    + by rewrite Ha, <- app_assoc.
    + by rewrite Hs, <- app_assoc.
Qed.

Lemma answered_length s questions outs s' :
  answered E index chunks s questions outs s' → length outs = length questions.
Proof. induction 1; simpl; congruence. Qed.

Lemma answered_lookup s questions outs s' (i : nat) question :
  answered E index chunks s questions outs s' →
  questions !! i = Some question →
  ∃ si si' out,
    answer_one E index chunks question si = (Ok out, si') ∧
    outs !! i = Some out.
Proof.
  intros H. revert i. induction H as [|s q qs out s1 outs s2 H1 _ IH]; intros i Hi.
  - by rewrite lookup_nil in Hi.
  - destruct i as [|i]; simpl in *.
    + injection Hi as <-. by exists s, s1, out.
    + by apply IH.
Qed.

End LoopFacts.


(** C4. When the text extracted from the document is empty or only
    whitespace, the call fails with status 400 right after the extraction
    step: no chunking, embedding or index step is recorded, no answer is
    returned, and the caches and the heap are as they were. *)
Theorem empty_text_fails_before_chunking
    (E : collaborators) (url : string) (questions : list string) (s : state)
    (content : list Byte.byte) (pages : list (option string))
    (Hmiss : document_cache s !! md5_hexdigest E url = None)
    (Hget : http_get E url = Returned content)
    (Hpdf : pdf_pages E content = Returned pages)
    (Hblank : PyStr.strip (join_pages pages) = "") :
  ∃ s',
    process_insurance_query E url questions s
      = (Raise (HTTPException 400 "No text found in PDF"), s') ∧
    document_cache s' = document_cache s ∧
    vector_store_cache s' = vector_store_cache s ∧
    heap s' = heap s ∧
    trace s' = trace s ++ [EvDownload url; EvExtract].
Proof.
  eexists. split.
  - rewrite process_miss by done.
    unfold at_boundary, bind, ingest, bind, download_pdf, bind, log.
    rewrite Hget. unfold ret, extract_text_from_pdf, bind, log.
    rewrite Hpdf. unfold ret. rewrite Hblank. simpl. reflexivity.
  - simpl. split_and!; [done..|]. by rewrite <- app_assoc.
Qed.

(** C8. A request that finds its document cached leaves the caches, the
    stored entry and every object of the heap (the cached chunk
    dictionaries among them) as they were: the score annotation and the
    clean-up write only to copies, which are new objects, and it is those
    copies that the response refers to. *)
Theorem cache_hit_leaves_entry_unchanged
    (E : collaborators) (url : string) (questions : list string)
    (s : state) (entry : doc_entry) (r : result response) (s' : state)
    (Hhit : document_cache s !! md5_hexdigest E url = Some entry)
    (Hrun : process_insurance_query E url questions s = (r, s')) :
  document_cache s' = document_cache s ∧
  vector_store_cache s' = vector_store_cache s ∧
  document_cache s' !! md5_hexdigest E url = Some entry ∧
  (∀ l d, heap s !! l = Some d → heap s' !! l = Some d) ∧
  (∀ l d, l ∈ entry_chunks entry → heap s !! l = Some d → heap s' !! l = Some d) ∧
  (∀ resp, r = Ok resp → ∀ l, l ∈ source_chunks resp → heap s !! l = None).
Proof.
  apply process_spec in Hrun. rewrite Hhit in Hrun.
  destruct Hrun as [(Hd & Hv & Hsub & _) Hres]. specialize (Hsub (reflexivity _)).
  split_and!; [done|done|by rewrite Hd| | |].
  - intros l d Hl. by eapply lookup_weaken.
  - intros l d _ Hl. by eapply lookup_weaken.
  - intros resp -> l Hl. specialize (Hres resp eq_refl).
    unfold fresh_for in Hres. rewrite Forall_forall in Hres. by apply Hres.
Qed.


(** C9. A successful call returns one answer per question, in the order of
    the questions: the answers are the first components of the outputs of
    the loop body, run on the questions one after the other against the
    cached index and chunks, and [answers !! i] is the answer the loop body
    produced for [questions !! i]. *)
Theorem answers_follow_question_order
    (E : collaborators) (url : string) (questions : list string)
    (s s' : state) (resp : response)
    (Hok : process_insurance_query E url questions s = (Ok resp, s')) :
  length (answers resp) = length questions ∧
  ∃ entry index s0 outs,
    document_cache s' !! md5_hexdigest E url = Some entry ∧
    vector_store_cache s' !! md5_hexdigest E url = Some index ∧
    answered E index (entry_chunks entry) s0 questions outs s' ∧
    answers resp = outs.*1 ∧
    source_chunks resp = concat outs.*2 ∧
    ∀ (i : nat) question, questions !! i = Some question →
      ∃ si si' answer sources,
        answer_one E index (entry_chunks entry) question si
          = (Ok (answer, sources), si') ∧
        answers resp !! i = Some answer.
Proof.
  apply process_ok_cached in Hok as [s0 H].
  pose proof (answer_from_cache_frame E ∅ _ _ _ _ _ (map_empty_subseteq _) H)
    as [(Hd & Hv & _) _].
  unfold answer_from_cache, lookup_document, lookup_index in H.
  apply bind_inv in H as [(entry & s1 & H1 & H) | (e & H & ?)]; [|done].
  destruct (document_cache s0 !! md5_hexdigest E url) eqn:Hentry;
    inversion H1; subst; clear H1.
  apply bind_inv in H as [(index & s2 & H2 & H) | (e & H & ?)]; [|done].
  destruct (vector_store_cache s1 !! md5_hexdigest E url) eqn:Hindex;
    inversion H2; subst; clear H2.
  apply answer_all_answered in H as (outs & Hans & Ha & Hs). simpl in *.
  pose proof (answered_length _ _ _ _ _ _ _ Hans) as Hlen.
  split; [by rewrite Ha, length_fmap|].
  exists entry, index, s2, outs.
  split_and!; [by rewrite Hd|by rewrite Hv|done..|].
  intros i q Hq.
  destruct (answered_lookup _ _ _ _ _ _ _ _ _ Hans Hq)
    as (si & si' & [answer sources] & Hone & Hout).
  exists si, si', answer, sources. split; [done|].
  by rewrite Ha, list_lookup_fmap, Hout.
Qed.

(** ** The two caches stay in step *)

Section CacheFacts.
Variable E : collaborators.

Lemma process_caches_agree url questions s r s' :
  caches_agree s →
  process_insurance_query E url questions s = (r, s') →
  caches_agree s'.
Proof.
  unfold caches_agree. intros Hs H.
  apply process_caches in H as [[-> ->]|(entry & index & -> & ->)]; [done|].
  by rewrite !dom_insert_L, Hs.
Qed.

Lemma clear_cache_agree s : caches_agree (clear_cache s).
Proof. unfold caches_agree. simpl. by rewrite !dom_empty_L. Qed.

Lemma step_agree s op : caches_agree s → caches_agree (step E s op).
Proof.
  intros Hs. destruct op as [url questions| |]; simpl.
  - destruct (process_insurance_query E url questions s) as [r s'] eqn:H.
    by eapply process_caches_agree.
  - done.
  - apply clear_cache_agree.
Qed.

Lemma run_agree ops : ∀ s, caches_agree s → caches_agree (run E ops s).
Proof.
  induction ops as [|op ops IH]; intros s Hs; [done|].
  simpl. by apply IH, step_agree.
Qed.

Lemma cache_stats_agree s :
  caches_agree s → (cache_stats s).1 = (cache_stats s).2.
Proof.
  unfold caches_agree, cache_stats. intros Hs. simpl.
  by rewrite <- !size_dom, Hs.
Qed.

End CacheFacts.

(** C10. In every state the service reaches from start-up by requests,
    statistics queries and clears, the document cache and the vector-store
    cache have the same keys, so [cache_stats] reports two equal counts; and
    right after a clear both counts are zero. *)
Theorem caches_always_agree (E : collaborators) (ops : list operation) :
  let s := run E ops initial_state in
  dom (document_cache s) = dom (vector_store_cache s) ∧
  (cache_stats s).1 = (cache_stats s).2 ∧
  cache_stats (clear_cache s) = (0%nat, 0%nat) ∧
  cache_stats (run E (ops ++ [OpClear]) initial_state) = (0%nat, 0%nat).
Proof.
  intros s.
  assert (caches_agree s) as Hs by (by apply run_agree).
  split_and!; [done|by apply cache_stats_agree|done|].
  unfold run. by rewrite fold_left_app.
Qed.

(** ** Worked examples *)

Lemma generate_intelligent_answer_cites_witness :
  let chunks := [dict_of_chunk (Chunk 0 "Clause A covers hospitalization." "chunk_0");
                 dict_of_chunk (Chunk 3 "Clause D excludes cosmetic surgery." "chunk_3")] in
  chunks ≠ [] ∧
  map_result (λ chunk, getitem chunk "id") chunks = Ok [VInt 0; VInt 3] ∧
  ∃ answer before after,
    generate_intelligent_answer demo "Is surgery covered?" chunks "" = Ok answer ∧
    answer = before +:+ PyStr.join ", " (py_str demo <$> [VInt 0; VInt 3]) +:+ after ∧
    ∀ i, i ∈ [VInt 0; VInt 3] → substring_of (py_str demo i) answer.
Proof.
  intros chunks.
  assert (H1 : chunks ≠ []) by discriminate.
  assert (H2 : map_result (λ chunk, getitem chunk "id") chunks
               = Ok [VInt 0; VInt 3]) by (vm_compute; reflexivity).
  split_and!; [exact H1|exact H2|].
  exact (generate_intelligent_answer_cites demo "Is surgery covered?" chunks ""
           [VInt 0; VInt 3] H1 H2).
Defined.

Example generate_intelligent_answer_sample :
  generate_intelligent_answer demo "Is surgery covered?"
    [dict_of_chunk (Chunk 0 "Clause A covers hospitalization." "chunk_0");
     dict_of_chunk (Chunk 3 "Clause D excludes cosmetic surgery." "chunk_3")]
    "Clause 0: Clause A covers hospitalization."
  = Ok "Based on the policy clauses, hospitalization coverage is mentioned. Please refer to clauses 0, 3 for specific coverage details and conditions.".
Proof. vm_compute. reflexivity. Qed.


Example empty_retrieval_whole_request :
  let out := process_insurance_query demo_without_hits demo_url demo_questions
               initial_state in
  out.1 = Ok (Response [no_relevant_information; no_relevant_information] []) ∧
  Forall (λ e, ¬ is_synthesis e) (trace out.2).
Proof.
  vm_compute. split; [reflexivity|]. repeat constructor; by intros [].
Qed.

Lemma empty_text_fails_before_chunking_witness :
  document_cache initial_state !! md5_hexdigest demo_blank demo_url = None ∧
  http_get demo_blank demo_url = Returned [] ∧
  pdf_pages demo_blank [] = Returned [Some "   "; None] ∧
  PyStr.strip (join_pages [Some "   "; None]) = "" ∧
  ∃ s',
    process_insurance_query demo_blank demo_url demo_questions initial_state
      = (Raise (HTTPException 400 "No text found in PDF"), s') ∧
    document_cache s' = document_cache initial_state ∧
    vector_store_cache s' = vector_store_cache initial_state ∧
    heap s' = heap initial_state ∧
    trace s' = trace initial_state ++ [EvDownload demo_url; EvExtract].
Proof.
  assert (H1 : document_cache initial_state
                 !! md5_hexdigest demo_blank demo_url = None)
    by (vm_compute; reflexivity).
  assert (H2 : http_get demo_blank demo_url = Returned []) by reflexivity.
  assert (H3 : pdf_pages demo_blank [] = Returned [Some "   "; None])
    by reflexivity.
  assert (H4 : PyStr.strip (join_pages [Some "   "; None]) = "")
    by (vm_compute; reflexivity).
  split_and!; [exact H1|exact H2|exact H3|exact H4|].
  exact (empty_text_fails_before_chunking demo_blank demo_url demo_questions
           initial_state [] [Some "   "; None] H1 H2 H3 H4).
Defined.

Lemma cache_hit_leaves_entry_unchanged_witness :
  let s := demo_state demo in
  let entry := DocEntry [1%positive] (demo_text +:+ PyStr.LF) in
  let out := process_insurance_query demo demo_url demo_questions s in
  document_cache s !! md5_hexdigest demo demo_url = Some entry ∧
  document_cache out.2 = document_cache s ∧
  vector_store_cache out.2 = vector_store_cache s ∧
  (∀ l d, l ∈ entry_chunks entry → heap s !! l = Some d →
          heap out.2 !! l = Some d) ∧
  (∀ resp, out.1 = Ok resp → ∀ l, l ∈ source_chunks resp → heap s !! l = None).
Proof.
  intros s entry out.
  assert (Hhit : document_cache s !! md5_hexdigest demo demo_url = Some entry)
    by (vm_compute; reflexivity).
  pose proof (cache_hit_leaves_entry_unchanged demo demo_url demo_questions s
                entry out.1 out.2 Hhit (surjective_pairing out))
    as (H1 & H2 & _ & _ & H3 & H4).
  split_and!; [exact Hhit|exact H1|exact H2|exact H3|exact H4].
Defined.

Example cache_hit_sample :
  let s := demo_state demo in
  let out := process_insurance_query demo demo_url demo_questions s in
  source_chunks <$> (match out.1 with Ok resp => Some resp | Raise _ => None end)
    = Some [4%positive; 5%positive] ∧
  heap out.2 !! 1%positive = heap s !! 1%positive ∧
  heap s !! 1%positive
    = Some (dict_of_chunk (Chunk 0 (PyStr.strip demo_text) "chunk_0")) ∧
  heap out.2 !! 4%positive
    = Some (<["score" := VFloat (S754_zero false)]>
              (dict_of_chunk (Chunk 0 (PyStr.strip demo_text) "chunk_0"))).
Proof. vm_compute. split_and!; reflexivity. Qed.



(** A call that fails during ingestion stores nothing, so the next call
    with the same URL downloads again. *)
Example failed_ingestion_is_retried :
  let out1 := process_insurance_query demo_blank demo_url demo_questions
                initial_state in
  let out2 := process_insurance_query demo_blank demo_url demo_questions out1.2 in
  document_cache out1.2 !! md5_hexdigest demo_blank demo_url = None ∧
  executions Download (trace out2.2) = 2%nat.
Proof. vm_compute. split; reflexivity. Qed.

Lemma answers_follow_question_order_witness :
  let out := process_insurance_query demo demo_url demo_questions initial_state in
  let resp :=
    Response
      ["Based on the policy clauses, hospitalization coverage is mentioned. Please refer to clauses 0 for specific coverage details and conditions.";
       "Policy duration information is available in clauses 0."]
      [2%positive; 3%positive] in
  out = (Ok resp, out.2) ∧
  length (answers resp) = length demo_questions.
Proof.
  intros out resp.
  assert (H : out = (Ok resp, out.2)).
  { rewrite (surjective_pairing out) at 1. f_equal; vm_compute; reflexivity. }
  split; [exact H|].
  exact (proj1 (answers_follow_question_order demo demo_url demo_questions
                  initial_state out.2 resp H)).
Defined.

Example cache_stats_sample :
  cache_stats (run demo [OpProcess demo_url demo_questions; OpStats] initial_state)
    = (1%nat, 1%nat) ∧
  cache_stats (run demo [OpProcess demo_url demo_questions; OpClear] initial_state)
    = (0%nat, 0%nat).
Proof. vm_compute. split; reflexivity. Qed.

(** * Further properties of the chunker *)

Section SplitFacts.
Import PyStr.

Lemma rev_app_append a b c :
  String.rev_app a b +:+ c = String.rev_app a (b +:+ c).
Proof.
  revert b. induction a as [|x a IH]; intros b; simpl; [done|].
  by rewrite IH, app_cons.
Qed.

Lemma rev_cons x a : String.rev (String x a) = String.rev a +:+ String x "".
Proof. unfold String.rev. simpl. by rewrite rev_app_append. Qed.

Lemma prefix_app a : ∀ s, String.prefix a s = true → ∃ rest, s = a +:+ rest.
Proof.
  induction a as [|x a IH]; intros s H; simpl in H.
  - by exists s.
  - destruct s as [|y s]; [done|]. cbn [String.prefix] in H.
    destruct (ascii_dec x y) as [->|]; [|done].
    destruct (IH s H) as [rest ->]. by exists rest.
Qed.

Lemma split_go_skip sep p : ∀ acc rest,
  split_go sep (String.length p) acc (p +:+ rest) = split_go sep 0 acc rest.
Proof.
  induction p as [|x p IH]; intros acc rest; [done|].
  rewrite app_cons. simpl. apply IH.
Qed.

Lemma split_go_nonempty sep s : ∀ skip acc, split_go sep skip acc s ≠ [].
Proof.
  induction s as [|x s IH]; intros skip acc; cbn [split_go]; [done|].
  destruct skip; [|apply IH].
  destruct (String.prefix sep (String x s)); [done|apply IH].
Qed.

Lemma join_cons_cons sep x (l : list string) :
  l ≠ [] → join sep (x :: l) = x +:+ sep +:+ join sep l.
Proof. by destruct l. Qed.

Lemma split_go_join sep (n : nat) :
  sep ≠ "" → ∀ s acc,
    (String.length s ≤ n)%nat →
    join sep (split_go sep 0 acc s) = String.rev acc +:+ s.
Proof.
  intros Hsep. induction n as [|n IH]; intros s acc Hlen.
  - destruct s; [|simpl in Hlen; lia]. simpl. by rewrite app_nil_r'.
  - destruct s as [|x s]; [simpl; by rewrite app_nil_r'|].
    simpl in Hlen. cbn [split_go].
    destruct (String.prefix sep (String x s)) eqn:Hp.
    + apply prefix_app in Hp as [rest Hrest].
      destruct sep as [|y sep']; [done|].
      rewrite app_cons in Hrest. injection Hrest as <- ->.
      cbn [String.length]. rewrite Nat.sub_succ, Nat.sub_0_r, split_go_skip.
      rewrite join_cons_cons by apply split_go_nonempty.
      rewrite (IH rest ""); [done|].
      assert (String.length (sep' +:+ rest)
              = (String.length sep' + String.length rest)%nat) as Hl.
      { clear. induction sep' as [|z q IHq]; [done|].
        rewrite app_cons. simpl. by rewrite IHq. }
      lia.
    + rewrite (IH s (String x acc)) by lia.
      by rewrite rev_cons, app_assoc'.
Qed.

(** [sep.join(s.split(sep))] is [s] again. *)
Lemma split_join sep s : sep ≠ "" → join sep (split sep s) = s.
Proof.
  intros Hsep. unfold split.
  by rewrite (split_go_join sep (String.length s) Hsep s "").
Qed.

Lemma all_space_app a b : all_space (a +:+ b) = all_space a && all_space b.
Proof.
  induction a as [|x a IH]; [done|]. rewrite app_cons. simpl.
  by rewrite IH, andb_assoc.
Qed.

Lemma lstrip_all_space s : lstrip s = "" ↔ all_space s = true.
Proof.
  induction s as [|x s IH]; simpl; [done|].
  destruct (isspace x); simpl; [done|]. split; discriminate.
Qed.

Lemma strip_all_space s : strip s = "" ↔ all_space s = true.
Proof.
  rewrite <- lstrip_all_space. unfold strip. split.
  - intros H. destruct (lstrip_cases s) as [E|E]; [done|].
    apply rstrip_starts_solid, starts_solid_truthy in E.
    rewrite H in E. done.
  - by intros ->.
Qed.

Lemma all_space_join sep (l : list string) :
  all_space sep = true →
  all_space (join sep l) = true ↔ Forall (λ p, all_space p = true) l.
Proof.
  intros Hsep. induction l as [|x l IH]; [by split|].
  destruct l as [|y l].
  - simpl. split; [by constructor|by inversion 1].
  - rewrite join_cons_cons by done. rewrite !all_space_app, Hsep.
    rewrite !andb_true_iff, IH. split.
    + intros (? & _ & ?). by constructor.
    + inversion 1; subst. done.
Qed.

Lemma paragraphs_of_nil text : paragraphs_of text = [] ↔ strip text = "".
Proof.
  rewrite strip_all_space.
  rewrite <- (split_join blank_line text) at 2 by done.
  rewrite all_space_join by done.
  unfold paragraphs_of. fold blank_line.
  generalize (split blank_line text). intros l.
  induction l as [|p l IH]; [by split|]. simpl.
  destruct (truthy (strip p)) eqn:Hp.
  - split; [done|]. inversion 1 as [|? ? Hsp _]; subst.
    apply strip_all_space in Hsp. by rewrite Hsp in Hp.
  - apply truthy_false, strip_all_space in Hp. rewrite IH. split.
    + by constructor.
    + by inversion 1.
Qed.

End SplitFacts.

Lemma chunk_text_nil text chunk_size overlap :
  chunk_text text chunk_size overlap = [] ↔ paragraphs_of text = [].
Proof.
  destruct (chunk_text_groups chunk_size overlap text) as (gs & Htxt & Hne & Hcat).
  split.
  - intros H. rewrite H in Htxt. destruct gs; [|done]. by rewrite <- Hcat.
  - intros H. rewrite H in Hcat.
    destruct gs as [|g gs].
    + by destruct (chunk_text text chunk_size overlap).
    + inversion Hne; subst. simpl in Hcat.
      apply app_eq_nil in Hcat as [? _]. done.
Qed.

(** X1. [chunk_text] returns no chunk exactly when the text is empty or
    only whitespace, whatever [chunk_size] and [overlap] are. *)
Theorem chunk_text_nil_iff_blank (text : string) (chunk_size overlap : Z) :
  chunk_text text chunk_size overlap = [] ↔ PyStr.strip text = "".
Proof. by rewrite chunk_text_nil, paragraphs_of_nil. Qed.

(** X2. There are never more chunks than paragraphs, and a text with a
    paragraph gives at least one chunk. *)
Theorem chunk_text_count (text : string) (chunk_size overlap : Z) :
  (length (chunk_text text chunk_size overlap)
   ≤ length (paragraphs_of text))%nat ∧
  (paragraphs_of text ≠ [] → chunk_text text chunk_size overlap ≠ []).
Proof.
  split.
  - destruct (chunk_text_groups chunk_size overlap text)
      as (gs & Htxt & Hne & Hcat).
    apply (f_equal length) in Htxt. rewrite !length_fmap in Htxt.
    rewrite Htxt, <- Hcat. clear -Hne.
    induction Hne as [|g gs Hg _ IH]; [done|].
    rewrite fmap_cons. cbn [concat length]. rewrite length_app.
    destruct (snd g) as [|p ps]; [done|]. cbn [length]. lia.
  - intros Hp Hc. by apply chunk_text_nil in Hc.
Qed.

Section SizeFacts.
Import PyStr.
Variables chunk_size overlap : Z.

Lemma length_append a b :
  String.length (a +:+ b) = (String.length a + String.length b)%nat.
Proof.
  induction a as [|x a IH]; [done|]. rewrite app_cons. simpl. by rewrite IH.
Qed.

Lemma len_append a b : len (a +:+ b) = len a + len b.
Proof. unfold len. rewrite length_append. lia. Qed.

Lemma len_nonneg a : 0 ≤ len a.
Proof. unfold len. lia. Qed.

Lemma len_join_app sep (l r : list string) :
  len (join sep l) ≤ len (join sep (l ++ r)).
Proof.
  induction l as [|x l IH]; [apply len_nonneg|].
  destruct l as [|y l].
  - destruct r as [|z r]; [done|].
    change (len x ≤ len (x +:+ sep +:+ join sep (z :: r))).
    rewrite len_append. pose proof (len_nonneg (sep +:+ join sep (z :: r))). lia.
  - change (len (x +:+ sep +:+ join sep (y :: l))
            ≤ len (x +:+ sep +:+ join sep ((y :: l) ++ r))).
    rewrite !len_append. lia.
Qed.

Lemma join_solid_truthy sep (l : list string) :
  Forall solid l → l ≠ [] → truthy (join sep l) = true.
Proof.
  intros Hl Hne. destruct l as [|x l]; [done|].
  inversion Hl as [|? ? [Hs _] _]; subst.
  by apply starts_solid_truthy, join_cons_starts.
Qed.

Lemma seed_of_empty : seed_of overlap "" = "".
Proof.
  unfold seed_of, overlap_text_of. change (split_ws "") with (@nil string).
  destruct (Z.of_nat (length (@nil string)) >? overlap / 10); [|done].
  unfold slice_from. by rewrite drop_nil.
Qed.

Lemma seed_of_buffer cur p :
  (if truthy (overlap_text_of overlap cur)
   then overlap_text_of overlap cur +:+ " " +:+ p else p)
  = seed_of overlap cur +:+ p.
Proof.
  unfold seed_of. destruct (truthy _); [|done]. by rewrite app_assoc'.
Qed.

(** A text that fits is never flushed. *)
Lemma chunk_loop_fits rest : ∀ done,
  Forall solid done → Forall solid rest →
  len (join blank_line (done ++ rest)) ≤ chunk_size →
  chunk_loop chunk_size overlap (ChunkerState [] (join blank_line done) 0) rest
  = ChunkerState [] (join blank_line (done ++ rest)) 0.
Proof.
  induction rest as [|p rest IH]; intros done Hdone Hrest Hfit.
  - by rewrite app_nil_r.
  - inversion Hrest as [|? ? Hp Hrest']; subst.
    replace (done ++ p :: rest) with ((done ++ [p]) ++ rest) in *
      by (by rewrite <- app_assoc).
    cbn [chunk_loop fold_left].
    assert (chunk_step chunk_size overlap
              (ChunkerState [] (join blank_line done) 0) p
            = ChunkerState [] (join blank_line (done ++ [p])) 0) as ->.
    { unfold chunk_step, must_flush. cbn [st_current st_chunks st_next_id].
      destruct done as [|d done'].
      - simpl. by rewrite andb_false_r.
      - rewrite join_solid_truthy by done. rewrite andb_true_r.
        pose proof (len_join_app blank_line ((d :: done') ++ [p]) rest) as Hle.
        rewrite join_snoc in Hle |- * by done.
        rewrite !len_append in Hle. pose proof (len_nonneg blank_line).
        destruct (Z.gtb_spec (len (join blank_line (d :: done')) + len p)
                    chunk_size); [lia|].
        unfold blank_line. by rewrite !app_assoc'. }
    apply IH; [|done..]. apply Forall_app. split; [done|]. by constructor.
Qed.

Lemma chunk_step_size (P : string → Prop) st p :
  chunker_inv st → P p →
  size_inv P chunk_size overlap st →
  size_inv P chunk_size overlap (chunk_step chunk_size overlap st p).
Proof.
  intros (_ & _ & _ & Hcur) Hp [Hchunks Hbuf]. unfold chunk_step.
  destruct (must_flush _ _ _) eqn:Hf; split; cbn [st_chunks st_current].
  - apply Forall_app. split; [done|]. constructor; [|constructor].
    pose proof (must_flush_truthy _ _ _ Hf) as Ht.
    destruct (cur_ok_truthy _ Hcur Ht). cbn [make_chunk chunk_text_of].
    rewrite strip_solid by done.
    destruct Hbuf as [E|Hb]; [by rewrite E in Ht|done].
  - right. right. exists p, (st_current st). split; [done|].
    apply seed_of_buffer.
  - done.
  - right. destruct (truthy (st_current st)) eqn:Ht.
    + left. unfold must_flush in Hf. rewrite Ht, andb_true_r in Hf.
      rewrite !len_append. change (len LF) with 1.
      destruct (Z.gtb_spec (len (st_current st) + len p) chunk_size);
        [done|lia].
    + right. exists p, "". split; [done|]. by rewrite seed_of_empty.
Qed.

Lemma chunk_loop_size (P : string → Prop) ps : ∀ st,
  chunker_inv st → Forall solid ps → Forall P ps →
  size_inv P chunk_size overlap st →
  size_inv P chunk_size overlap (chunk_loop chunk_size overlap st ps).
Proof.
  induction ps as [|p ps IH]; intros st Hinv Hsolid HP Hsize; [done|].
  inversion Hsolid; inversion HP; subst. cbn [chunk_loop fold_left].
  apply IH; [by apply chunk_step_inv|done|done|by apply chunk_step_size].
Qed.

End SizeFacts.

(** X3. A text whose paragraphs, joined by blank lines, fit in
    [chunk_size] becomes exactly one chunk: id 0, source ["chunk_0"], and
    as text the paragraphs joined by blank lines. *)
Theorem chunk_text_single_chunk (text : string) (chunk_size overlap : Z)
    (Hsome : paragraphs_of text ≠ [])
    (Hfits : PyStr.len (PyStr.join blank_line (paragraphs_of text)) ≤ chunk_size) :
  chunk_text text chunk_size overlap
  = [Chunk 0 (PyStr.join blank_line (paragraphs_of text)) "chunk_0"].
Proof.
  pose proof (paragraphs_of_solid text) as Hsolid.
  unfold chunk_text.
  pose proof (chunk_loop_inv chunk_size overlap _ _ chunker_init_inv Hsolid)
    as (_ & _ & _ & Hcur).
  change chunker_init with (ChunkerState [] (PyStr.join blank_line []) 0) in *.
  rewrite (chunk_loop_fits chunk_size overlap (paragraphs_of text) [])
    in * by (done || constructor).
  cbn [app] in *. unfold chunk_finish. cbn [st_current st_chunks st_next_id] in *.
  pose proof (join_solid_truthy blank_line _ Hsolid Hsome) as Ht.
  rewrite Ht. destruct (cur_ok_truthy _ Hcur Ht).
  unfold make_chunk. by rewrite strip_solid.
Qed.

(** X4. Every chunk is at most [chunk_size + 2] characters long, unless it
    is a single paragraph of the text behind the overlap seed of an earlier
    buffer. *)
Theorem chunk_text_size_bound (text : string) (chunk_size overlap : Z) :
  ∀ c, c ∈ chunk_text text chunk_size overlap →
    PyStr.len (chunk_text_of c) ≤ chunk_size + 2 ∨
    ∃ p b, p ∈ paragraphs_of text ∧
           chunk_text_of c = seed_of overlap b +:+ p.
Proof.
  pose proof (paragraphs_of_solid text) as Hsolid.
  pose proof (chunk_loop_inv chunk_size overlap _ _ chunker_init_inv Hsolid)
    as (_ & _ & _ & Hcur).
  assert (size_inv (λ p, p ∈ paragraphs_of text) chunk_size overlap
            (chunk_loop chunk_size overlap chunker_init (paragraphs_of text)))
    as [Hchunks Hbuf].
  { apply chunk_loop_size; [apply chunker_init_inv|done| |].
    - by apply Forall_forall.
    - split; [constructor|by left]. }
  intros c Hc. unfold chunk_text, chunk_finish in Hc.
  rewrite Forall_forall in Hchunks.
  destruct (PyStr.truthy _) eqn:Ht; [|by apply Hchunks].
  apply elem_of_app in Hc as [Hc|Hc]; [by apply Hchunks|].
  apply list_elem_of_singleton in Hc as ->.
  destruct (cur_ok_truthy _ Hcur Ht). cbn [make_chunk chunk_text_of].
  rewrite strip_solid by done.
  destruct Hbuf as [E|Hb]; [by rewrite E in Ht|done].
Qed.

Lemma chunk_text_single_chunk_witness :
  paragraphs_of demo_text ≠ [] ∧
  PyStr.len (PyStr.join blank_line (paragraphs_of demo_text)) ≤ 1000 ∧
  chunk_text demo_text 1000 200
  = [Chunk 0 (PyStr.join blank_line (paragraphs_of demo_text)) "chunk_0"].
Proof.
  assert (H1 : paragraphs_of demo_text ≠ []) by (vm_compute; discriminate).
  assert (H2 : PyStr.len (PyStr.join blank_line (paragraphs_of demo_text)) ≤ 1000)
    by (vm_compute; discriminate).
  split_and!; [exact H1|exact H2|].
  exact (chunk_text_single_chunk demo_text 1000 200 H1 H2).
Defined.

(** * The question phase, functionally *)

Section PureQuestionPhase.
Variable E : collaborators.

Lemma resolves_weaken s s' ls ds :
  heap s ⊆ heap s' → resolves s ls ds → resolves s' ls ds.
Proof.
  intros Hsub H. eapply Forall2_impl; [exact H|].
  intros l d Hl. simpl in *. by eapply lookup_weaken.
Qed.

Lemma resolves_app s ls1 ds1 ls2 ds2 :
  resolves s ls1 ds1 → resolves s ls2 ds2 → resolves s (ls1 ++ ls2) (ds1 ++ ds2).
Proof. apply Forall2_app. Qed.

Lemma resolves_elem s ls ds l :
  resolves s ls ds → l ∈ ls → is_Some (heap s !! l).
Proof.
  intros H Hl. apply list_elem_of_lookup in Hl as [i Hi].
  destruct (Forall2_lookup_l _ _ _ _ _ H Hi) as (d & _ & Hd). by eexists.
Qed.

Lemma py_index_resolves s ls ds idx :
  resolves s ls ds →
  match py_index ds idx with
  | Ok d => ∃ l, py_index ls idx = Ok l ∧ heap s !! l = Some d
  | Raise e => py_index ls idx = Raise e
  end.
Proof.
  intros H. unfold py_index. rewrite <- (Forall2_length _ _ _ H).
  destruct (_ && _); [|done].
  destruct (ds !! Z.to_nat _) as [d|] eqn:Hd.
  - destruct (Forall2_lookup_r _ _ _ _ _ H Hd) as (l & Hl & Hld).
    rewrite Hl. by exists l.
  - destruct (ls !! Z.to_nat _) as [l|] eqn:Hl; [|done].
    destruct (Forall2_lookup_l _ _ _ _ _ H Hl) as (d & Hd' & _). congruence.
Qed.

Lemma mapM_cons {A B} (f : A → M B) x xs :
  mapM f (x :: xs)
  = bind (f x) (λ y, bind (mapM f xs) (λ ys, ret (y :: ys))).
Proof. reflexivity. Qed.

Lemma forM_cons {A} (f : A → M unit) x xs :
  forM f (x :: xs) = bind (f x) (λ _, forM f xs).
Proof. reflexivity. Qed.

Lemma mapM_deref_resolves ls : ∀ s ds,
  resolves s ls ds → mapM deref ls s = (Ok ds, s).
Proof.
  induction ls as [|l ls IH]; intros s ds H; inversion H as [|? d ? ds' Hl Hr];
    subst; [done|].
  rewrite mapM_cons. unfold bind at 1. unfold deref at 1. rewrite Hl.
  unfold bind at 1. by rewrite (IH s ds' Hr).
Qed.

(** The loop of [retrieve_relevant_chunks] computes [scored_copies]. *)
Lemma collect_hits_pure chunks cached hits : ∀ rel rel_d s,
  resolves s chunks cached → resolves s rel rel_d → NoDup rel →
  ∃ s', heap s ⊆ heap s' ∧ trace s' = trace s ∧
    match scored_copies cached hits with
    | Ok new_d =>
        ∃ new, collect_hits chunks hits rel s = (Ok (rel ++ new), s') ∧
               resolves s' (rel ++ new) (rel_d ++ new_d) ∧
               NoDup (rel ++ new)
    | Raise e => collect_hits chunks hits rel s = (Raise e, s')
    end.
Proof.
  induction hits as [|[score idx] hits IH]; intros rel rel_d s Hc Hrel Hnd.
  - exists s. split_and!; [done..|]. exists []. by rewrite !app_nil_r.
  - cbn [scored_copies collect_hits]. destruct (idx =? -1); [by apply IH|].
    pose proof (py_index_resolves s chunks cached idx Hc) as Hidx.
    destruct (py_index cached idx) as [d|e].
    + destruct Hidx as (l & Hl & Hd).
      set (l' := fresh (dom (heap s))).
      assert (heap s !! l' = None) as Hfresh
        by (apply not_elem_of_dom, is_fresh).
      set (d' := <["similarity_score" := VFloat score]> d).
      set (s2 := set_heap (<[l' := d']> (heap s)) s).
      assert (heap s ⊆ heap s2) as Hsub by (by apply insert_subseteq).
      assert (l' ∉ rel) as Hnotin.
      { intros Hin. destruct (resolves_elem _ _ _ _ Hrel Hin) as [? ?].
        congruence. }
      destruct (IH (rel ++ [l']) (rel_d ++ [d']) s2) as (s' & Hsub' & Htr & Hres).
      { by eapply resolves_weaken. }
      { apply resolves_app; [by eapply resolves_weaken|].
        constructor; [|constructor]. simpl. apply lookup_insert_eq. }
      { apply NoDup_app. split_and!; [done| |apply NoDup_singleton].
        intros x Hx ->%list_elem_of_singleton. done. }
      assert (∀ k : loc → M (list loc),
                bind (lift (py_index chunks idx)) k s = k l s) as Hb1
        by (intros k; unfold bind, lift; by rewrite Hl).
      assert (∀ k : pydict → M (list loc), bind (deref l) k s = k d s) as Hb2
        by (intros k; unfold bind, deref; by rewrite Hd).
      assert (∀ k : loc → M (list loc),
                bind (alloc d) k s = k l' (set_heap (<[l' := d]> (heap s)) s))
        as Hb3 by done.
      assert (∀ k : unit → M (list loc),
                bind (update l' (λ d0, <["similarity_score" := VFloat score]> d0)) k
                     (set_heap (<[l' := d]> (heap s)) s) = k tt s2) as Hb4.
      { intros k. unfold bind, update. simpl. rewrite lookup_insert_eq.
        unfold s2, set_heap. simpl. by rewrite insert_insert_eq. }
      rewrite Hb1, Hb2, Hb3, Hb4.
      exists s'. split_and!; [by etrans|done|].
      destruct (scored_copies cached hits) as [ds|e]; [|done].
      destruct Hres as (new & Hrun & Hres & Hnd').
      exists (l' :: new). rewrite <- !app_assoc in *. done.
    + exists s. split_and!; [done..|]. unfold bind, lift. by rewrite Hidx.
Qed.

Lemma retrieve_unfold query index chunks top_k s :
  retrieve_relevant_chunks E query index chunks top_k s
  = match encode E [query] with
    | Raised e =>
        (Raise (HTTPException 500 ("Failed to generate embeddings: " +:+ e)),
         with_trace [EvEmbedQuery query] s)
    | Returned query_embedding =>
        let s2 := with_trace [EvSearch query] (with_trace [EvEmbedQuery query] s) in
        match index_search E index (normalize_L2 E query_embedding) top_k with
        | Raised e => (Raise (Exception e), s2)
        | Returned hits => collect_hits chunks hits [] s2
        end
    end.
Proof.
  unfold retrieve_relevant_chunks, get_embeddings, bind, log.
  destruct (encode E [query]) as [qe|msg]; [|done].
  unfold ret. by destruct (index_search E index _ top_k).
Qed.

Lemma retrieve_pure query index chunks cached top_k s :
  resolves s chunks cached →
  ∃ s', heap s ⊆ heap s' ∧
    match retrieval_of E index cached query top_k with
    | Ok ds =>
        ∃ rel, retrieve_relevant_chunks E query index chunks top_k s = (Ok rel, s') ∧
               resolves s' rel ds ∧ NoDup rel
    | Raise e => retrieve_relevant_chunks E query index chunks top_k s = (Raise e, s')
    end.
Proof.
  intros Hc. rewrite retrieve_unfold. unfold retrieval_of.
  destruct (encode E [query]) as [qe|msg];
    [|eexists; split; [|reflexivity]; simpl; done].
  cbv zeta.
  destruct (index_search E index _ top_k) as [hits|msg];
    [|eexists; split; [|reflexivity]; simpl; done].
  destruct (collect_hits_pure chunks cached hits [] []
              (with_trace [EvSearch query] (with_trace [EvEmbedQuery query] s)))
    as (s' & Hsub & _ & Hres); [exact Hc|constructor|constructor|].
  exists s'. split; [exact Hsub|].
  destruct (scored_copies cached hits); [|exact Hres].
  destruct Hres as (new & Hrun & Hres & Hnd). by exists new.
Qed.

Lemma resolves_insert_ne s ls ds l d :
  resolves s ls ds → l ∉ ls →
  resolves (set_heap (<[l := d]> (heap s)) s) ls ds.
Proof.
  induction 1 as [|x y ls ds Hx _ IH]; intros Hl; [constructor|].
  apply not_elem_of_cons in Hl as [Hne Hl].
  constructor; [|by apply IH]. simpl. by rewrite lookup_insert_ne.
Qed.

Lemma forM_update_pure f ls : ∀ ds s,
  resolves s ls ds → NoDup ls →
  ∃ s', forM (λ chunk, update chunk f) ls s = (Ok tt, s') ∧
        resolves s' ls (f <$> ds) ∧
        (∀ l, l ∉ ls → heap s' !! l = heap s !! l).
Proof.
  induction ls as [|l ls IH]; intros ds s H Hnd;
    inversion H as [|? d ? ds' Hl Hr]; subst.
  - exists s. split_and!; [done|constructor|done].
  - apply NoDup_cons in Hnd as [Hnotin Hnd].
    set (s1 := set_heap (<[l := f d]> (heap s)) s).
    assert (resolves s1 ls ds') as Hr1 by (by apply resolves_insert_ne).
    destruct (IH ds' s1 Hr1 Hnd) as (s' & Hrun & Hres & Hother).
    exists s'. split_and!.
    + rewrite forM_cons. unfold bind, update. by rewrite Hl.
    + constructor; [|done]. rewrite Hother by done. apply lookup_insert_eq.
    + intros l0 Hl0. apply not_elem_of_cons in Hl0 as [Hne Hl0].
      rewrite Hother by done. simpl. by rewrite lookup_insert_ne.
Qed.

Lemma answer_question_pure question rel ds s :
  resolves s rel ds →
  ∃ s', answer_question E question rel s = (answer_of E question ds, s') ∧
        heap s' = heap s.
Proof.
  intros H. unfold answer_question, answer_of, bind, log, lift.
  assert (resolves (with_trace [EvSynthesize question] s) rel ds) as H1 by done.
  apply mapM_deref_resolves in H1. unfold with_trace in H1. rewrite H1.
  destruct (map_result (clause_of E) ds) as [clauses|e];
    [|eexists; split; [reflexivity|done]].
  destruct (gemini_model E) as [generate_content|].
  - destruct (generate_content _); eexists; (split; [reflexivity|done]).
  - destruct (generate_intelligent_answer _ _ _ _);
      eexists; (split; [reflexivity|done]).
Qed.

(** The loop body computes [outcome_of] on the cached dictionaries. *)
Lemma answer_one_pure index chunks cached question s :
  resolves s chunks cached →
  ∃ s' sources,
    heap s ⊆ heap s' ∧
    answer_one E index chunks question s
    = (match outcome_of E index cached question with
       | Ok (answer, _) => Ok (answer, sources)
       | Raise e => Raise e
       end, s') ∧
    ∀ answer ds, outcome_of E index cached question = Ok (answer, ds) →
                 resolves s' sources ds.
Proof.
  intros Hc. unfold outcome_of.
  destruct (retrieve_pure question index chunks cached 5 s Hc)
    as (s1 & Hsub1 & Hret).
  unfold answer_one, bind.
  destruct (retrieval_of E index cached question 5) as [ds|e].
  - destruct Hret as (rel & Hrun & Hres & Hnd). rewrite Hrun.
    destruct ds as [|d ds].
    + inversion Hres; subst. exists s1, []. split_and!; [done|done|].
      intros ? ? [= _ <-]. constructor.
    + destruct rel as [|l rel]; [by inversion Hres|].
      destruct (forM_update_pure clean_chunk _ _ s1 Hres Hnd)
        as (s2 & Hrun2 & Hres2 & Hother).
      assert (heap s ⊆ heap s2) as Hsub2.
      { apply map_subseteq_spec. intros i x Hi.
        assert (i ∉ l :: rel) as Hni.
        { intros Hin.
          apply (retrieve_frame E (heap s)) in Hrun as [_ Hfresh]; [|done].
          destruct (Hfresh _ eq_refl) as [Hfr _].
          unfold fresh_for in Hfr. rewrite Forall_forall in Hfr.
          specialize (Hfr i Hin). congruence. }
        rewrite Hother by done. by eapply lookup_weaken. }
      rewrite Hrun2.
      destruct (answer_question_pure question (l :: rel) _ s2 Hres2)
        as (s3 & Hrun3 & Hh3).
      rewrite Hrun3. exists s3, (l :: rel).
      split; [by rewrite Hh3|].
      destruct (answer_of E question (clean_chunk <$> d :: ds)) as [a|e].
      * split; [done|]. intros ? ? [= _ <-].
        eapply resolves_weaken; [|exact Hres2]. by rewrite Hh3.
      * split; [done|]. done.
  - rewrite Hret. exists s1, []. split_and!; [done|done|done].
Qed.

(** The question loop computes [outcome_of] question by question, and
    stops at the first question that fails. *)
Lemma answer_all_pure index chunks cached questions : ∀ acc acc_d s,
  resolves s chunks cached → resolves s (source_chunks acc) acc_d →
  ∃ s' sources,
    heap s ⊆ heap s' ∧
    answer_all E index chunks questions acc s
    = (match map_result (outcome_of E index cached) questions with
       | Ok outs => Ok (Response (answers acc ++ outs.*1) sources)
       | Raise e => Raise e
       end, s') ∧
    ∀ outs, map_result (outcome_of E index cached) questions = Ok outs →
            resolves s' sources (acc_d ++ concat outs.*2).
Proof.
  induction questions as [|q qs IH]; intros acc acc_d s Hc Hacc.
  - exists s, (source_chunks acc). split_and!; [done| |].
    + simpl. rewrite app_nil_r. by destruct acc.
    + intros ? [= <-]. simpl. by rewrite app_nil_r.
  - cbn [answer_all map_result].
    destruct (answer_one_pure index chunks cached q s Hc)
      as (s1 & sources & Hsub1 & Hrun & Hres).
    unfold bind. rewrite Hrun.
    destruct (outcome_of E index cached q) as [[a ds]|e].
    + specialize (Hres a ds eq_refl).
      destruct (IH (Response (answers acc ++ [a]) (source_chunks acc ++ sources))
                  (acc_d ++ ds) s1) as (s' & srcs & Hsub & Hrun' & Hres').
      { by eapply resolves_weaken. }
      { apply resolves_app; [by eapply resolves_weaken|done]. }
      rewrite Hrun'. exists s', srcs. split; [by etrans|].
      destruct (map_result (outcome_of E index cached) qs) as [outs|e].
      * split.
        -- simpl. by rewrite <- app_assoc.
        -- intros ? [= <-]. simpl. rewrite app_assoc. by apply Hres'.
      * done.
    + by exists s1, [].
Qed.

End PureQuestionPhase.

(** * Requests served from the cache *)

Section CachedRequests.
Variable E : collaborators.

Lemma at_boundary_eq {A} (m : M A) s :
  at_boundary m s = (boundary (m s).1, (m s).2).
Proof. unfold at_boundary, boundary. by destruct (m s) as [[a|[c d|msg]] s1]. Qed.

Lemma answer_from_cache_pure doc_hash entry index cached questions s :
  document_cache s !! doc_hash = Some entry →
  vector_store_cache s !! doc_hash = Some index →
  resolves s (entry_chunks entry) cached →
  ∃ s' sources,
    heap s ⊆ heap s' ∧
    answer_from_cache E doc_hash questions s
    = (match map_result (outcome_of E index cached) questions with
       | Ok outs => Ok (Response outs.*1 sources)
       | Raise e => Raise e
       end, s') ∧
    ∀ outs, map_result (outcome_of E index cached) questions = Ok outs →
            resolves s' sources (concat outs.*2).
Proof.
  intros Hd Hv Hc.
  destruct (answer_all_pure E index (entry_chunks entry) cached questions
              (Response [] []) [] s Hc) as (s' & sources & Hsub & Hrun & Hres);
    [constructor|].
  exists s', sources. split_and!; [done| |done].
  unfold answer_from_cache, bind, lookup_document, lookup_index.
  by rewrite Hd, Hv, Hrun.
Qed.

Lemma process_hit_pure url entry index cached questions s :
  document_cache s !! md5_hexdigest E url = Some entry →
  vector_store_cache s !! md5_hexdigest E url = Some index →
  resolves s (entry_chunks entry) cached →
  ∃ s' sources,
    heap s ⊆ heap s' ∧
    process_insurance_query E url questions s
    = (boundary
         (match map_result (outcome_of E index cached) questions with
          | Ok outs => Ok (Response outs.*1 sources)
          | Raise e => Raise e
          end), s') ∧
    ∀ outs, map_result (outcome_of E index cached) questions = Ok outs →
            resolves s' sources (concat outs.*2).
Proof.
  intros Hd Hv Hc.
  destruct (answer_from_cache_pure _ _ _ _ questions s Hd Hv Hc)
    as (s' & sources & Hsub & Hrun & Hres).
  exists s', sources. split_and!; [done| |done].
  rewrite process_hit by (by rewrite Hd).
  by rewrite at_boundary_eq, Hrun.
Qed.

Lemma map_result_lookup {A B} (f : A → result B) xs : ∀ ys (i : nat) x,
  map_result f xs = Ok ys → xs !! i = Some x →
  ∃ y, f x = Ok y ∧ ys !! i = Some y.
Proof.
  induction xs as [|x0 xs IH]; intros ys i x H Hi; [done|].
  simpl in H. destruct (f x0) as [y0|] eqn:Hf; [|done].
  destruct (map_result f xs) as [ys'|]; [|done]. injection H as <-.
  destruct i as [|i]; simpl in Hi.
  - injection Hi as <-. by exists y0.
  - by apply (IH ys' i x).
Qed.

Lemma map_result_length {A B} (f : A → result B) xs : ∀ ys,
  map_result f xs = Ok ys → length ys = length xs.
Proof.
  induction xs as [|x0 xs IH]; intros ys H; simpl in H.
  - by injection H as <-.
  - destruct (f x0); [|done]. destruct (map_result f xs) as [ys'|]; [|done].
    injection H as <-. simpl. by rewrite (IH ys').
Qed.

Lemma map_result_app_raise {A B} (f : A → result B) pre x post ys e :
  map_result f pre = Ok ys → f x = Raise e →
  map_result f (pre ++ x :: post) = Raise e.
Proof.
  revert ys. induction pre as [|p pre IH]; intros ys Hpre Hx; simpl.
  - by rewrite Hx.
  - simpl in Hpre. destruct (f p); [|done].
    destruct (map_result f pre) as [ys'|]; [|done].
    by rewrite (IH ys').
Qed.

Lemma boundary_ok {A} (r : result A) a : boundary r = Ok a → r = Ok a.
Proof. by destruct r as [?|[? ?|?]]. Qed.

End CachedRequests.

(** X5. Without a generative backend, a request for a cached document is
    answered as a function of the cached chunk dictionaries and the
    questions alone: each answer is [outcome_of] of its question, in order,
    and the source chunks are the cleaned, scored copies those outcomes
    list, question after question. *)
Theorem cached_request_is_functional
    (E : collaborators) (url : string) (questions : list string) (s : state)
    (entry : doc_entry) (index : faiss_index) (cached : list pydict)
    (outs : list (string * list pydict))
    (Hrules : gemini_model E = None)
    (Hdoc : document_cache s !! md5_hexdigest E url = Some entry)
    (Hindex : vector_store_cache s !! md5_hexdigest E url = Some index)
    (Hchunks : resolves s (entry_chunks entry) cached)
    (Houts : map_result (outcome_of E index cached) questions = Ok outs) :
  ∃ s' sources,
    process_insurance_query E url questions s
      = (Ok (Response outs.*1 sources), s') ∧
    resolves s' sources (concat outs.*2) ∧
    (∀ (i : nat) question, questions !! i = Some question →
       ∃ answer ds, outcome_of E index cached question = Ok (answer, ds) ∧
                    outs.*1 !! i = Some answer).
Proof.
  destruct (process_hit_pure E url entry index cached questions s Hdoc Hindex Hchunks)
    as (s' & sources & _ & Hrun & Hres).
  rewrite Houts in Hrun. exists s', sources. split_and!; [done|by apply Hres|].
  intros i q Hq.
  destruct (map_result_lookup _ _ _ _ _ Houts Hq) as ([a ds] & Hf & Hi).
  exists a, ds. split; [done|]. by rewrite list_lookup_fmap, Hi.
Qed.

(** X6. Without a generative backend, questions are answered
    independently: when a request for a cached document succeeds, asking
    any one of its questions alone, in the same state, succeeds with the
    same answer. *)
Theorem batch_answer_equals_single_answer
    (E : collaborators) (url : string) (questions : list string) (s s' : state)
    (entry : doc_entry) (index : faiss_index) (cached : list pydict)
    (resp : response) (i : nat) (question : string)
    (Hrules : gemini_model E = None)
    (Hdoc : document_cache s !! md5_hexdigest E url = Some entry)
    (Hindex : vector_store_cache s !! md5_hexdigest E url = Some index)
    (Hchunks : resolves s (entry_chunks entry) cached)
    (Hok : process_insurance_query E url questions s = (Ok resp, s'))
    (Hq : questions !! i = Some question) :
  ∃ answer sources s1,
    answers resp !! i = Some answer ∧
    process_insurance_query E url [question] s
      = (Ok (Response [answer] sources), s1).
Proof.
  destruct (process_hit_pure E url entry index cached questions s Hdoc Hindex Hchunks)
    as (s0 & sources & _ & Hrun & _).
  rewrite Hok in Hrun. injection Hrun as Hr _. symmetry in Hr.
  apply boundary_ok in Hr.
  destruct (map_result (outcome_of E index cached) questions) as [outs|] eqn:Houts;
    [|done].
  injection Hr as Hr. subst resp.
  destruct (map_result_lookup _ _ _ _ _ Houts Hq) as ([a ds] & Hf & Hi).
  destruct (process_hit_pure E url entry index cached [question] s Hdoc Hindex Hchunks)
    as (s1 & sources1 & _ & Hrun1 & _).
  simpl in Hrun1. rewrite Hf in Hrun1. simpl in Hrun1.
  exists a, sources1, s1. split; [|done].
  simpl. by rewrite list_lookup_fmap, Hi.
Qed.

(** * Errors, and what ingestion stores *)

Section ErrorFacts.
Variable E : collaborators.

Lemma py_index_raise {A} (xs : list A) i e :
  py_index xs i = Raise e → e = Exception "list index out of range".
Proof.
  unfold py_index. destruct (_ && _); [|by intros [= <-]].
  destruct (xs !! _); [done|by intros [= <-]].
Qed.

Lemma py_index_elem {A} (xs : list A) i x : py_index xs i = Ok x → x ∈ xs.
Proof.
  unfold py_index. destruct (_ && _); [|done].
  destruct (xs !! _) eqn:Hx; [|done]. intros [= <-].
  by eapply list_elem_of_lookup_2.
Qed.

Lemma scored_copies_raise cached hits e :
  scored_copies cached hits = Raise e → internal e.
Proof.
  induction hits as [|[score idx] hits IH]; simpl; [done|].
  destruct (idx =? -1); [done|].
  destruct (py_index cached idx) eqn:Hi.
  - destruct (scored_copies cached hits); [done|]. intros [= <-]. by apply IH.
  - intros [= <-]. by rewrite (py_index_raise _ _ _ Hi).
Qed.

(** Every scored copy is a cached dictionary with a score added, and there
    is one per hit whose position is not [-1]. *)
Lemma scored_copies_ok cached hits ds :
  scored_copies cached hits = Ok ds →
  Forall2 (λ (hit : spec_float * Z) d',
             ∃ d, py_index cached hit.2 = Ok d ∧
                  d' = <["similarity_score" := VFloat hit.1]> d)
          (filter (λ hit : spec_float * Z, hit.2 ≠ -1) hits) ds.
Proof.
  revert ds. induction hits as [|[score idx] hits IH]; intros ds; simpl.
  - intros [= <-]. constructor.
  - rewrite filter_cons. simpl. destruct (Z.eqb_spec idx (-1)) as [->|Hne].
    + rewrite decide_False by (by intros ?). apply IH.
    + rewrite decide_True by done.
      destruct (py_index cached idx) as [d|] eqn:Hi; [|done].
      destruct (scored_copies cached hits) as [ds'|]; [|done].
      intros [= <-]. constructor; [by exists d|by apply IH].
Qed.

Lemma getitem_raise d key e : getitem d key = Raise e → internal e.
Proof. unfold getitem. destruct (d !! key); [done|by intros [= <-]]. Qed.

Lemma map_result_raise {A B} (f : A → result B) (P : exn → Prop) xs e :
  (∀ x e, f x = Raise e → P e) → map_result f xs = Raise e → P e.
Proof.
  intros Hf. induction xs as [|x xs IH]; simpl; [done|].
  destruct (f x) eqn:Hx; [|intros [= <-]; by eapply Hf].
  destruct (map_result f xs); [done|]. intros [= <-]. by apply IH.
Qed.

Lemma clause_of_raise d e : clause_of E d = Raise e → internal e.
Proof.
  unfold clause_of. destruct (getitem d "id") eqn:H1;
    [|intros [= <-]; by eapply getitem_raise].
  destruct (getitem d "text") eqn:H2; [done|].
  intros [= <-]. by eapply getitem_raise.
Qed.

Lemma generate_intelligent_answer_raise question chunks context e :
  generate_intelligent_answer E question chunks context = Raise e → internal e.
Proof.
  destruct (generate_intelligent_answer_shape E question chunks context)
    as (before & after & ->).
  unfold cite, cited_ids.
  destruct (map_result _ chunks) eqn:H; [done|]. intros [= <-].
  eapply (map_result_raise _ internal); [|exact H].
  intros x e'. apply getitem_raise.
Qed.

Lemma answer_of_raise question ds e : answer_of E question ds = Raise e → internal e.
Proof.
  unfold answer_of. destruct (map_result (clause_of E) ds) eqn:H.
  - destruct (gemini_model E) as [g|].
    + destruct (g _); [done|]. apply generate_intelligent_answer_raise.
    + apply generate_intelligent_answer_raise.
  - intros [= <-]. eapply (map_result_raise _ internal); [|exact H].
    apply clause_of_raise.
Qed.

Lemma outcome_of_raise index cached question e :
  outcome_of E index cached question = Raise e → internal e.
Proof.
  unfold outcome_of, retrieval_of.
  destruct (encode E [question]); [|by intros [= <-]].
  destruct (index_search E index _ 5) as [hits|]; [|by intros [= <-]].
  destruct (scored_copies cached hits) as [[|d ds]|] eqn:H.
  - done.
  - destruct (answer_of E question _) eqn:Ha; [done|].
    intros [= <-]. by eapply answer_of_raise.
  - intros [= <-]. by eapply scored_copies_raise.
Qed.

Lemma boundary_internal {A} e :
  internal e → ∃ detail, boundary (@Raise A e) = Raise (HTTPException 500 detail).
Proof. destruct e as [code d|msg]; simpl; [intros ->|]; by eexists. Qed.

Lemma mapM_alloc_resolves {A} (f : A → pydict) xs : ∀ s,
  ∃ ls s', mapM (λ x, alloc (f x)) xs s = (Ok ls, s') ∧
           resolves s' ls (f <$> xs) ∧ heap s ⊆ heap s' ∧
           document_cache s' = document_cache s ∧
           vector_store_cache s' = vector_store_cache s ∧
           trace s' = trace s.
Proof.
  induction xs as [|x xs IH]; intros s.
  - exists [], s. split_and!; [done|constructor|done..].
  - set (l := fresh (dom (heap s))).
    assert (heap s !! l = None) as Hl by (apply not_elem_of_dom, is_fresh).
    set (s1 := set_heap (<[l := f x]> (heap s)) s).
    destruct (IH s1) as (ls & s' & Hrun & Hres & Hsub & Hd & Hv & Ht).
    exists (l :: ls), s'. split_and!; [|  |  |done..].
    + rewrite mapM_cons. unfold bind at 1. unfold alloc at 1. fold l. fold s1.
      unfold bind at 1. by rewrite Hrun.
    + constructor; [|done]. eapply lookup_weaken; [|exact Hsub].
      apply lookup_insert_eq.
    + etrans; [|exact Hsub]. by apply insert_subseteq.
Qed.

(** What a successful ingestion has stored. *)
Lemma ingest_ok_inv url doc_hash s s1 :
  ingest E url doc_hash s = (Ok tt, s1) →
  ∃ content pages refs index,
    http_get E url = Returned content ∧
    pdf_pages E content = Returned pages ∧
    document_cache s1
      = <[doc_hash := DocEntry refs (join_pages pages)]> (document_cache s) ∧
    vector_store_cache s1 = <[doc_hash := index]> (vector_store_cache s) ∧
    resolves s1 refs (dict_of_chunk <$> chunk_text (join_pages pages) 1000 200) ∧
    heap s ⊆ heap s1.
Proof.
  intros H. unfold ingest, download_pdf, extract_text_from_pdf in H.
  run_steps.
  destruct (negb _); run_steps.
  destruct (chunk_text _ 1000 200) as [|c cs] eqn:Hchunks; [by run_steps|].
  unfold get_embeddings, create_vector_store, store_document, store_index in H.
  run_steps.
  match goal with
  | Hm : mapM _ ?xs ?s0 = _ |- _ =>
      destruct (mapM_alloc_resolves dict_of_chunk xs s0)
        as (ls & s' & Hrun & Hres & Hsub & Hd & Hv & Ht);
      rewrite Hrun in Hm; injection Hm as <- <-
  end.
  simplify_eq/=. eexists _, _, ls, _.
  split_and!; [done|done| | | |done].
  - by rewrite Hd.
  - by rewrite Hv.
  - rewrite Hchunks. exact Hres.
Qed.

Ltac run_steps_inj :=
  repeat (first
    [ run_step
    | match goal with
      | H : Raise _ = Raise _ |- _ => injection H as H
      | H : Ok _ = Ok _ |- _ => injection H as H
      end ]; subst; simpl in * ).

Lemma ingest_raises url doc_hash s e s1 :
  ingest E url doc_hash s = (Raise e, s1) →
  (∃ detail, e = HTTPException 400 detail) ∨ internal e.
Proof.
  intros H. unfold ingest, download_pdf, extract_text_from_pdf in H.
  run_steps_inj; [|left; by eexists..].
  destruct (negb _); run_steps_inj; [left; by eexists|].
  destruct (chunk_text _ 1000 200) as [|c cs] eqn:Hchunks;
    [run_steps_inj; left; by eexists|].
  unfold get_embeddings, create_vector_store, store_document, store_index in H.
  run_steps_inj; try (by right).
  all: match goal with
       | Hm : mapM _ ?xs ?s0 = _ |- _ =>
           destruct (mapM_alloc_resolves dict_of_chunk xs s0)
             as (ls & s' & Hrun & _); rewrite Hrun in Hm; done
       end.
Qed.

Lemma ingest_consistent url doc_hash s s1 :
  document_cache s !! doc_hash = None →
  cache_consistent s → ingest E url doc_hash s = (Ok tt, s1) →
  cache_consistent s1.
Proof.
  intros Hmiss Hs H.
  apply ingest_ok_inv in H
    as (content & pages & refs & index & _ & _ & Hd & Hv & Hres & Hsub).
  intros k entry Hk. rewrite Hd in Hk. rewrite Hv.
  destruct (decide (doc_hash = k)) as [<-|Hne].
  - rewrite lookup_insert_eq in Hk. injection Hk as <-.
    rewrite lookup_insert_eq. split; [done|by eexists].
  - rewrite lookup_insert_ne in Hk by done. rewrite lookup_insert_ne by done.
    destruct (Hs k entry Hk) as [Hr Hi]. split; [|done].
    by eapply resolves_weaken.
Qed.

Lemma question_frame_consistent s s' :
  question_frame (heap s) s s' → cache_consistent s → cache_consistent s'.
Proof.
  intros (Hd & Hv & Hsub & _) Hs k entry Hk. rewrite Hd in Hk. rewrite Hv.
  destruct (Hs k entry Hk) as [Hr Hi]. split; [|done].
  eapply resolves_weaken; [|done]. by apply Hsub.
Qed.

Lemma process_consistent url questions s r s' :
  cache_consistent s →
  process_insurance_query E url questions s = (r, s') →
  cache_consistent s'.
Proof.
  intros Hs H. apply process_spec in H.
  destruct (document_cache s !! md5_hexdigest E url) as [entry|] eqn:Hc.
  - destruct H as [Hfr _]. by eapply question_frame_consistent.
  - destruct H as (r1 & s1 & Hin & H). destruct r1 as [[]|e].
    + eapply question_frame_consistent; [done|]. by eapply ingest_consistent.
    + destruct H as [-> _].
      apply ingest_spec in Hin as (_ & _ & [(e' & _ & Hd & Hv & Hh)|(? & _)]);
        [|done].
      intros k entry Hk. rewrite Hd in Hk. rewrite Hv.
      destruct (Hs k entry Hk) as [Hr Hi]. split; [|done].
      eapply resolves_weaken; [|done]. by rewrite Hh.
Qed.

Lemma step_consistent s op : cache_consistent s → cache_consistent (step E s op).
Proof.
  intros Hs. destruct op as [url questions| |]; simpl; [|done|by intros ? ? ?].
  destruct (process_insurance_query E url questions s) as [r s'] eqn:H.
  by eapply process_consistent.
Qed.

Lemma run_consistent ops : ∀ s, cache_consistent s → cache_consistent (run E ops s).
Proof.
  induction ops as [|op ops IH]; intros s Hs; [done|].
  simpl. by apply IH, step_consistent.
Qed.

(** A successful request was answered from a consistent state that has the
    document cached. *)
Lemma process_ok_from_cache url questions s resp s' :
  cache_consistent s →
  process_insurance_query E url questions s = (Ok resp, s') →
  ∃ s0, cache_consistent s0 ∧ heap s ⊆ heap s0 ∧
        answer_from_cache E (md5_hexdigest E url) questions s0 = (Ok resp, s').
Proof.
  intros Hs H.
  destruct (document_cache s !! md5_hexdigest E url) as [entry|] eqn:Hc.
  - rewrite process_hit in H by (by rewrite Hc).
    rewrite at_boundary_eq in H. injection H as Hr Hs'.
    apply boundary_ok in Hr. exists s. split_and!; [done..|].
    rewrite <- Hr, <- Hs'. apply surjective_pairing.
  - rewrite process_miss in H by done.
    rewrite at_boundary_eq in H. injection H as Hr Hs'.
    apply boundary_ok in Hr.
    destruct (bind _ _ s) as [r0 s0'] eqn:Hb. simpl in *. subst.
    apply bind_inv in Hb as [([] & s1 & H1 & H) | (e & H & ?)]; [|done].
    exists s1. split_and!; [by eapply ingest_consistent| |done].
    by apply ingest_spec in H1 as (? & _).
Qed.

End ErrorFacts.

(** * The clean-up of retrieved chunks *)

Section CleanFacts.

Lemma item_idem v : (if has_item v then item v else v) = item v.
Proof. by destruct v. Qed.

Lemma has_item_item v : has_item (item v) = false.
Proof. by destruct v. Qed.

Lemma clean_chunk_lookup chunk key :
  clean_chunk chunk !! key
  = if decide (key = "score")
    then Some (item (default (VFloat (S754_zero false))
                       (chunk !! "similarity_score")))
    else if decide (key = "similarity_score") then None
         else item <$> chunk !! key.
Proof.
  unfold clean_chunk. rewrite lookup_fmap.
  destruct (decide (key = "score")) as [->|Hs].
  - rewrite lookup_insert_eq. simpl. by rewrite item_idem.
  - rewrite lookup_insert_ne by done.
    destruct (decide (key = "similarity_score")) as [->|Hss].
    + by rewrite lookup_delete_eq.
    + rewrite lookup_delete_ne by done.
      destruct (chunk !! key) as [v|]; [|done]. simpl. by rewrite item_idem.
Qed.

Lemma dict_of_chunk_lookup c key :
  dict_of_chunk c !! key
  = if decide (key = "id") then Some (VInt (chunk_id c))
    else if decide (key = "text") then Some (VStr (chunk_text_of c))
         else if decide (key = "source") then Some (VStr (chunk_source c))
              else None.
Proof.
  unfold dict_of_chunk.
  destruct (decide (key = "id")) as [->|?]; [by rewrite lookup_insert_eq|].
  rewrite lookup_insert_ne by done.
  destruct (decide (key = "text")) as [->|?]; [by rewrite lookup_insert_eq|].
  rewrite lookup_insert_ne by done.
  destruct (decide (key = "source")) as [->|?]; [by rewrite lookup_insert_eq|].
  by rewrite lookup_insert_ne.
Qed.

(** Cleaning the scored copy of a chunk gives the chunk with a [score]. *)
Lemma clean_scored_chunk c score :
  clean_chunk (<["similarity_score" := VFloat score]> (dict_of_chunk c))
  = <["score" := VFloat score]> (dict_of_chunk c).
Proof.
  apply map_eq. intros key. rewrite clean_chunk_lookup, lookup_insert_eq.
  destruct (decide (key = "score")) as [->|Hs].
  - by rewrite lookup_insert_eq.
  - destruct (decide (key = "similarity_score")) as [->|Hss].
    + rewrite lookup_insert_ne by done.
      rewrite dict_of_chunk_lookup. repeat case_decide; done.
    + rewrite !lookup_insert_ne by done.
      rewrite dict_of_chunk_lookup. repeat case_decide; done.
Qed.

End CleanFacts.

(** X8. The clean-up of a retrieved chunk renames [similarity_score] to
    [score] (0.0 when there is none), leaves every other field in place,
    and leaves no numpy scalar: such a value is replaced by its [item()]. *)
Theorem clean_chunk_spec (chunk : pydict) :
  clean_chunk chunk !! "similarity_score" = None ∧
  clean_chunk chunk !! "score"
    = Some (item (default (VFloat (S754_zero false))
                    (chunk !! "similarity_score"))) ∧
  (∀ key, key ≠ "score" → key ≠ "similarity_score" →
     clean_chunk chunk !! key = item <$> chunk !! key) ∧
  (∀ key v, clean_chunk chunk !! key = Some v → has_item v = false) ∧
  dom (clean_chunk chunk) = {["score"]} ∪ (dom chunk ∖ {["similarity_score"]}).
Proof.
  split_and!.
  - by rewrite clean_chunk_lookup.
  - by rewrite clean_chunk_lookup.
  - intros key Hs Hss. rewrite clean_chunk_lookup.
    by rewrite !decide_False.
  - intros key v. rewrite clean_chunk_lookup.
    repeat case_decide.
    + intros [= <-]. apply has_item_item.
    + done.
    + destruct (chunk !! key); [|done]. intros [= <-]. apply has_item_item.
  - unfold clean_chunk. rewrite dom_fmap_L, dom_insert_L, dom_delete_L. done.
Qed.

(** * Requests in reachable states *)

Section RequestFacts.
Variable E : collaborators.

Lemma cache_consistent_initial : cache_consistent initial_state.
Proof. intros k entry Hk. simpl in Hk. by rewrite lookup_empty in Hk. Qed.

Lemma reachable_consistent ops : cache_consistent (run E ops initial_state).
Proof. apply run_consistent, cache_consistent_initial. Qed.

Lemma map_result_elem {A B} (f : A → result B) xs : ∀ ys y,
  map_result f xs = Ok ys → y ∈ ys → ∃ x, x ∈ xs ∧ f x = Ok y.
Proof.
  induction xs as [|x xs IH]; intros ys y H Hy; simpl in H.
  - injection H as <-. by apply elem_of_nil in Hy.
  - destruct (f x) as [y0|] eqn:Hx; [|done].
    destruct (map_result f xs) as [ys0|] eqn:Hxs; [|done].
    injection H as <-. apply elem_of_cons in Hy as [->|Hy].
    + exists x. split; [by left|done].
    + destruct (IH _ _ eq_refl Hy) as (x' & Hx' & Hfx').
      exists x'. split; [by right|done].
Qed.

(** Every source chunk of a question is the cleaned, scored copy of a
    cached dictionary. *)
Lemma outcome_of_sources index cached question answer ds d' :
  outcome_of E index cached question = Ok (answer, ds) → d' ∈ ds →
  ∃ d score, d ∈ cached ∧
             d' = clean_chunk (<["similarity_score" := VFloat score]> d).
Proof.
  unfold outcome_of, retrieval_of. intros H Hd'.
  destruct (encode E [question]) as [qe|]; [|done].
  destruct (index_search E index _ 5) as [hits|]; [|done].
  destruct (scored_copies cached hits) as [rel|] eqn:Hsc; [|done].
  assert (Hrel : d' ∈ clean_chunk <$> rel).
  { destruct rel as [|r rel].
    - injection H as _ <-. by apply elem_of_nil in Hd'.
    - destruct (answer_of E question _); [|done]. by injection H as _ <-. }
  apply list_elem_of_fmap in Hrel as (d0 & -> & Hd0).
  apply scored_copies_ok in Hsc.
  apply list_elem_of_lookup_1 in Hd0 as [i Hi].
  destruct (Forall2_lookup_r _ _ _ _ _ Hsc Hi) as (hit & _ & d & Hpy & ->).
  exists d, hit.1. split; [by eapply py_index_elem|done].
Qed.

(** With the document in a consistent cache, the question phase raises
    only what the boundary reports with status 500. *)
Lemma answer_from_cache_raises doc_hash questions s e s' :
  cache_consistent s →
  answer_from_cache E doc_hash questions s = (Raise e, s') → internal e.
Proof.
  intros Hs H.
  destruct (document_cache s !! doc_hash) as [entry|] eqn:Hd.
  - destruct (Hs _ _ Hd) as [Hres [index Hi]].
    destruct (answer_from_cache_pure E _ _ _ _ questions _ Hd Hi Hres)
      as (s1 & sources & _ & Heq & _).
    rewrite Heq in H.
    destruct (map_result _ questions) as [outs|e0] eqn:Houts; [done|].
    injection H as <- _.
    eapply (map_result_raise _ internal); [|exact Houts].
    intros q e1. apply outcome_of_raise.
  - unfold answer_from_cache, bind, lookup_document in H. rewrite Hd in H.
    by injection H as <- _.
Qed.

Lemma boundary_raise {A} (r : result A) e :
  boundary r = Raise e → ∃ e0, r = Raise e0 ∧ boundary (@Raise A e0) = Raise e.
Proof. destruct r as [a|e0]; [done|]. intros H. by exists e0. Qed.

Lemma boundary_document_error {A} e :
  document_error e → boundary (@Raise A e) = Raise e.
Proof. by intros [[msg ->]|[[msg ->]| ->]]. Qed.

Ltac run_steps_eq :=
  repeat (first
    [ run_step
    | match goal with
      | H : Raise _ = Raise _ |- _ => injection H as H
      | H : Ok _ = Ok _ |- _ => injection H as H
      end ]; subst; simpl in * ).

Ltac same_returned :=
  simplify_eq;
  repeat match goal with
         | Hx : ?t = Returned ?a, Hy : ?t = Returned ?b |- _ =>
             lazymatch a with
             | b => fail
             | _ => assert (a = b) by congruence; simplify_eq
             end
         end.

(** What ingestion can raise. *)
Lemma ingest_raises_detail url doc_hash s e s1 :
  ingest E url doc_hash s = (Raise e, s1) → document_error e ∨ internal e.
Proof.
  intros H. unfold ingest, download_pdf, extract_text_from_pdf in H.
  run_steps_eq.
  2: { left. right. left. by eexists. }
  2: { left. left. by eexists. }
  destruct (negb _) eqn:Htext; run_steps_eq; [left; by right; right|].
  destruct (chunk_text _ 1000 200) as [|c cs] eqn:Hchunks.
  { apply chunk_text_nil, paragraphs_of_nil in Hchunks.
    rewrite Hchunks in Htext. done. }
  unfold get_embeddings, create_vector_store, store_document, store_index in H.
  run_steps_eq; try (by right).
  all: match goal with
       | Hm : mapM _ ?xs ?s0 = _ |- _ =>
           destruct (mapM_alloc_resolves dict_of_chunk xs s0)
             as (ls & s' & Hrun & _); rewrite Hrun in Hm; done
       end.
Qed.

(** The embeddings and the index a successful ingestion has used. *)
Lemma ingest_ok_index url doc_hash s s1 :
  ingest E url doc_hash s = (Ok tt, s1) →
  ∃ content pages embeddings index,
    http_get E url = Returned content ∧
    pdf_pages E content = Returned pages ∧
    encode E (chunk_text_of <$> chunk_text (join_pages pages) 1000 200)
      = Returned embeddings ∧
    index_add E (normalize_L2 E embeddings) = Returned index ∧
    vector_store_cache s1 = <[doc_hash := index]> (vector_store_cache s).
Proof.
  intros H. unfold ingest, download_pdf, extract_text_from_pdf in H.
  run_steps.
  destruct (negb _); run_steps.
  destruct (chunk_text _ 1000 200) as [|c cs] eqn:Hchunks; [by run_steps|].
  unfold get_embeddings, create_vector_store, store_document, store_index in H.
  run_steps.
  match goal with
  | Hm : mapM _ ?xs ?s0 = _ |- _ =>
      destruct (mapM_alloc_resolves dict_of_chunk xs s0)
        as (ls & s' & Hrun & Hres & Hsub & Hd & Hv & Ht);
      rewrite Hrun in Hm; injection Hm as <- <-
  end.
  simplify_eq/=. eexists _, _, _, _.
  split_and!; [done|done| |done|by rewrite Hv].
  rewrite Hchunks. done.
Qed.

(** Ingestion succeeds when every collaborator returns and the extracted
    text is not blank. *)
Lemma ingest_ok url doc_hash s r s1 content pages embeddings index :
  http_get E url = Returned content →
  pdf_pages E content = Returned pages →
  PyStr.strip (join_pages pages) ≠ "" →
  encode E (chunk_text_of <$> chunk_text (join_pages pages) 1000 200)
    = Returned embeddings →
  index_add E (normalize_L2 E embeddings) = Returned index →
  ingest E url doc_hash s = (r, s1) → r = Ok tt.
Proof.
  intros Hget Hpdf Htext Henc Hidx H.
  destruct r as [[]|e]; [done|]. exfalso.
  unfold ingest, download_pdf, extract_text_from_pdf in H.
  run_steps_eq; try congruence.
  same_returned.
  destruct (negb _) eqn:Hblank; run_steps_eq.
  { apply negb_true_iff, truthy_false in Hblank. done. }
  destruct (chunk_text _ 1000 200) as [|c cs] eqn:Hchunks.
  { apply chunk_text_nil, paragraphs_of_nil in Hchunks. done. }
  unfold get_embeddings, create_vector_store, store_document, store_index in H.
  run_steps_eq; same_returned; try congruence.
  all: match goal with
       | Hm : mapM _ ?xs ?s0 = _ |- _ =>
           destruct (mapM_alloc_resolves dict_of_chunk xs s0)
             as (ls & s' & Hrun & _); rewrite Hrun in Hm; done
       end.
Qed.

(** The first event of an ingestion is the download. *)
Lemma ingest_starts_with_download url doc_hash s r s1 :
  ingest E url doc_hash s = (r, s1) →
  ∃ d, trace s1 = trace s ++ EvDownload url :: d.
Proof.
  intros H. unfold ingest, download_pdf, extract_text_from_pdf in H.
  run_steps; try (rewrite <- ?app_assoc; simpl; by eexists).
  destruct (negb _); run_steps; try (rewrite <- ?app_assoc; simpl; by eexists).
  destruct (chunk_text _ 1000 200) as [|c cs] eqn:Hchunks.
  { run_steps. rewrite <- ?app_assoc; simpl; by eexists. }
  unfold get_embeddings, create_vector_store, store_document, store_index in H.
  run_steps; try (rewrite <- ?app_assoc; simpl; by eexists).
  all: match goal with
       | Hm : mapM _ _ _ = _ |- _ =>
           apply mapM_alloc_spec in Hm as ([ls ?] & Hsub & Htr & Hd & Hv)
       end; simplify_eq/=.
  rewrite Htr, <- !app_assoc. simpl. by eexists.
  Unshelve. all: exact [].
Qed.

End RequestFacts.

(** * What every reachable state guarantees *)

(** X7. A question that fails aborts the whole request: when the questions
    before it succeed and its own retrieval or synthesis raises, the request
    for a cached document fails with status 500, whatever questions follow;
    no answer is returned, and the cache keeps the document. *)
Theorem failing_question_aborts_request
    (E : collaborators) (url : string) (before after : list string)
    (question : string) (s : state)
    (entry : doc_entry) (index : faiss_index) (cached : list pydict)
    (outs : list (string * list pydict)) (e : exn)
    (Hdoc : document_cache s !! md5_hexdigest E url = Some entry)
    (Hindex : vector_store_cache s !! md5_hexdigest E url = Some index)
    (Hchunks : resolves s (entry_chunks entry) cached)
    (Hbefore : map_result (outcome_of E index cached) before = Ok outs)
    (Hfails : outcome_of E index cached question = Raise e) :
  ∃ detail s',
    process_insurance_query E url (before ++ question :: after) s
      = (Raise (HTTPException 500 detail), s') ∧
    boundary (@Raise response e) = Raise (HTTPException 500 detail) ∧
    document_cache s' !! md5_hexdigest E url = Some entry.
Proof.
  destruct (process_hit_pure E url entry index cached
              (before ++ question :: after) s Hdoc Hindex Hchunks)
    as (s' & sources & _ & Hrun & _).
  rewrite (map_result_app_raise _ _ _ _ _ _ Hbefore Hfails) in Hrun.
  destruct (boundary_internal (A := response) e) as [detail Hb].
  { by eapply outcome_of_raise. }
  exists detail, s'. rewrite Hb in Hrun. split_and!; [done..|].
  pose proof (process_spec E _ _ _ _ _ Hrun) as Hspec.
  rewrite Hdoc in Hspec. destruct Hspec as [(Hdc & _) _]. by rewrite Hdc.
Qed.

(** X9. Cached entries stay as they were built: in every state the service
    can reach, a cached document's chunk references still point to exactly
    the dictionaries [chunk_text] builds from the cached text (size 1000,
    overlap 200), and an index is cached under the same key. *)
Theorem cached_chunks_stay_as_built
    (E : collaborators) (ops : list operation) (doc_hash : string)
    (entry : doc_entry)
    (Hcached : document_cache (run E ops initial_state) !! doc_hash = Some entry) :
  resolves (run E ops initial_state) (entry_chunks entry)
    (dict_of_chunk <$> chunk_text (entry_text entry) 1000 200) ∧
  length (entry_chunks entry)
    = length (chunk_text (entry_text entry) 1000 200) ∧
  is_Some (vector_store_cache (run E ops initial_state) !! doc_hash).
Proof.
  destruct (reachable_consistent E ops _ _ Hcached) as [Hres Hi].
  split_and!; [done| |done].
  apply Forall2_length in Hres. by rewrite length_fmap in Hres.
Qed.

(** X10. Every source chunk of a successful response is a chunk of the
    requested document with a [score] added: the dictionary it refers to has
    the id, text and source of one of the chunks of the cached text, and a
    float score, and nothing else. *)
Theorem source_chunks_are_scored_document_chunks
    (E : collaborators) (ops : list operation) (url : string)
    (questions : list string) (resp : response) (s' : state)
    (Hok : process_insurance_query E url questions (run E ops initial_state)
           = (Ok resp, s')) :
  ∃ entry,
    document_cache s' !! md5_hexdigest E url = Some entry ∧
    ∀ l, l ∈ source_chunks resp →
      ∃ c score,
        c ∈ chunk_text (entry_text entry) 1000 200 ∧
        heap s' !! l = Some (<["score" := VFloat score]> (dict_of_chunk c)).
Proof.
  apply process_ok_from_cache in Hok as (s0 & Hs0 & _ & Hans);
    [|apply reachable_consistent].
  destruct (document_cache s0 !! md5_hexdigest E url) as [entry|] eqn:Hd.
  2: { unfold answer_from_cache, bind, lookup_document in Hans.
       rewrite Hd in Hans. done. }
  destruct (Hs0 _ _ Hd) as [Hres [index Hi]].
  destruct (answer_from_cache_pure E _ _ _ _ questions _ Hd Hi Hres)
    as (s1 & sources & _ & Heq & Hsrc).
  pose proof (answer_from_cache_frame E (heap s0) _ _ _ _ _
                (reflexivity _) Heq) as [(Hdc & _) _].
  rewrite Heq in Hans.
  destruct (map_result _ questions) as [outs|] eqn:Houts; [|done].
  injection Hans as <- <-.
  exists entry. split; [by rewrite Hdc|].
  intros l Hl. simpl in Hl. specialize (Hsrc _ eq_refl).
  apply list_elem_of_lookup_1 in Hl as [i Hl].
  destruct (Forall2_lookup_l _ _ _ _ _ Hsrc Hl) as (d' & Hd' & Hheap).
  apply list_elem_of_lookup_2, elem_of_concat in Hd' as (ds & Hin & Hds).
  apply list_elem_of_fmap in Hds as ([a ds0] & -> & Hout).
  destruct (map_result_elem _ _ _ _ Houts Hout) as (q & _ & Hq).
  destruct (outcome_of_sources E _ _ _ _ _ _ Hq Hin) as (d & score & Hdin & ->).
  apply list_elem_of_fmap in Hdin as (c & -> & Hc).
  exists c, score. split; [done|]. by rewrite <- clean_scored_chunk.
Qed.

(** X11. The failures of a request: it fails either with status 500, or
    with status 400 and one of three details (download failed, text
    extraction failed, no text found).  A 400 is only given for a document
    that is not cached, and leaves the caches and the heap as they were; in
    particular the detail "No valid chunks created from document" never
    occurs. *)
Theorem request_failures
    (E : collaborators) (ops : list operation) (url : string)
    (questions : list string) (e : exn) (s' : state)
    (Hfail : process_insurance_query E url questions (run E ops initial_state)
             = (Raise e, s')) :
  ((∃ detail, e = HTTPException 500 detail) ∨
   (document_error e ∧
    document_cache (run E ops initial_state) !! md5_hexdigest E url = None ∧
    document_cache s' = document_cache (run E ops initial_state) ∧
    vector_store_cache s' = vector_store_cache (run E ops initial_state) ∧
    heap s' = heap (run E ops initial_state))) ∧
  e ≠ HTTPException 400 "No valid chunks created from document".
Proof.
  set (s := run E ops initial_state) in *.
  assert (Hs : cache_consistent s) by apply reachable_consistent.
  assert (Hcases :
    (∃ detail, e = HTTPException 500 detail) ∨
    (document_error e ∧
     document_cache s !! md5_hexdigest E url = None ∧
     document_cache s' = document_cache s ∧
     vector_store_cache s' = vector_store_cache s ∧
     heap s' = heap s)).
  { destruct (document_cache s !! md5_hexdigest E url) as [entry|] eqn:Hd.
    - left. rewrite process_hit in Hfail by (by rewrite Hd).
      rewrite at_boundary_eq in Hfail. injection Hfail as Hr Hs'.
      apply boundary_raise in Hr as (e0 & Hr0 & Hb).
      destruct (boundary_internal (A := response) e0) as [detail Hdet].
      { eapply answer_from_cache_raises; [exact Hs|].
        rewrite <- Hr0. apply surjective_pairing. }
      rewrite Hdet in Hb. injection Hb as <-. by eexists.
    - rewrite process_miss in Hfail by done.
      rewrite at_boundary_eq in Hfail.
      destruct (bind _ _ s) as [r0 s0] eqn:Hbind.
      injection Hfail as Hr Hs'. simpl in Hs'. subst s0.
      apply boundary_raise in Hr as (e0 & Hr0 & Hb). simpl in Hr0. subst r0.
      apply bind_inv in Hbind as [([] & s1 & H1 & H) | (e1 & H & Heq)].
      + left.
        destruct (boundary_internal (A := response) e0) as [detail Hdet].
        { eapply answer_from_cache_raises; [|exact H].
          by eapply ingest_consistent. }
        rewrite Hdet in Hb. injection Hb as <-. by eexists.
      + injection Heq as <-.
        pose proof (ingest_spec E _ _ _ _ _ H) as (_ & _ & Hst).
        apply ingest_raises_detail in H as [Hdoc|Hint].
        * right. rewrite boundary_document_error in Hb by done.
          injection Hb as <-.
          destruct Hst as [(? & _ & Hdc & Hvc & Hh)|(? & _)]; [|done].
          by split_and!.
        * left. destruct (boundary_internal (A := response) e0 Hint)
            as [detail Hdet].
          rewrite Hdet in Hb. injection Hb as <-. by eexists. }
  split; [exact Hcases|].
  destruct Hcases as [[detail ->]|([[msg ->]|[[msg ->]| ->]] & _)]; done.
Qed.

(** X12. A first request stores the document whatever becomes of its
    questions: when the download and the text extraction return, the text is
    not blank, and the embedding model and the index return, the request
    leaves an entry with the extracted text, with references to the
    dictionaries of its chunks, and the index, under the key of the URL. *)
Theorem first_request_stores_document
    (E : collaborators) (url : string) (questions : list string) (s : state)
    (content : list Byte.byte) (pages : list (option string))
    (embeddings : matrix) (index : faiss_index)
    (Hmiss : document_cache s !! md5_hexdigest E url = None)
    (Hget : http_get E url = Returned content)
    (Hpdf : pdf_pages E content = Returned pages)
    (Htext : PyStr.strip (join_pages pages) ≠ "")
    (Henc : encode E (chunk_text_of <$> chunk_text (join_pages pages) 1000 200)
            = Returned embeddings)
    (Hidx : index_add E (normalize_L2 E embeddings) = Returned index) :
  let s' := (process_insurance_query E url questions s).2 in
  ∃ refs,
    document_cache s'
      = <[md5_hexdigest E url := DocEntry refs (join_pages pages)]>
          (document_cache s) ∧
    vector_store_cache s'
      = <[md5_hexdigest E url := index]> (vector_store_cache s) ∧
    resolves s' refs
      (dict_of_chunk <$> chunk_text (join_pages pages) 1000 200) ∧
    refs ≠ [].
Proof.
  intros s'.
  pose proof (surjective_pairing (process_insurance_query E url questions s))
    as Hrun. fold s' in Hrun.
  apply process_spec in Hrun. rewrite Hmiss in Hrun.
  destruct Hrun as (r1 & s1 & Hin & Hrest).
  assert (r1 = Ok tt) as -> by (by eapply ingest_ok).
  destruct Hrest as (Hdc & Hvc & Hsub & _).
  pose proof (ingest_ok_index E _ _ _ _ Hin)
    as (content' & pages' & embeddings' & index' & Hget' & Hpdf' & Henc'
        & Hidx' & Hv).
  apply ingest_ok_inv in Hin
    as (content'' & pages'' & refs & index'' & Hget'' & Hpdf'' & Hd & _
        & Hres & _).
  assert (content' = content) as -> by congruence.
  assert (pages' = pages) as -> by congruence.
  assert (content'' = content) as -> by congruence.
  assert (pages'' = pages) as -> by congruence.
  assert (embeddings' = embeddings) as -> by congruence.
  assert (index' = index) as -> by congruence.
  exists refs. split_and!.
  - by rewrite Hdc.
  - by rewrite Hvc.
  - eapply resolves_weaken; [|exact Hres]. by apply Hsub.
  - intros ->. apply Forall2_nil_inv_l in Hres.
    apply fmap_nil_inv, chunk_text_nil, paragraphs_of_nil in Hres. done.
Qed.

Lemma join_pages_all_space pages : ∀ acc,
  all_space
    (fold_left (λ text page_text,
                  match page_text with
                  | Some t => if PyStr.truthy t then text +:+ t +:+ PyStr.LF
                              else text
                  | None => text
                  end) pages acc)
  = all_space acc && forallb textless pages.
Proof.
  induction pages as [|[t|] pages IH]; intros acc; simpl.
  - by rewrite andb_true_r.
  - rewrite IH. destruct (PyStr.truthy t) eqn:Ht.
    + rewrite !all_space_app. simpl. by rewrite andb_true_r, andb_assoc.
    + apply truthy_false in Ht as ->. done.
  - by rewrite IH.
Qed.

(** X13. The extracted text is blank, so that the request is rejected with
    "No text found in PDF", exactly when every page is textless: its
    [extract_text()] is [None], empty, or whitespace only. *)
Theorem extracted_text_blank_iff (pages : list (option string)) :
  PyStr.strip (join_pages pages) = ""
  ↔ Forall (λ page, textless page = true) pages.
Proof.
  rewrite strip_all_space. unfold join_pages.
  rewrite join_pages_all_space. simpl.
  rewrite forallb_forall, Forall_forall.
  split; intros H page Hp; apply H; by apply list_elem_of_In.
Qed.

(** X14. A request changes both cache counters alike: it leaves them as
    they are, or, when the document was not cached and is cached afterwards,
    raises each by one. *)
Theorem request_changes_both_counters_alike
    (E : collaborators) (ops : list operation) (url : string)
    (questions : list string) :
  let s := run E ops initial_state in
  let s' := (process_insurance_query E url questions s).2 in
  cache_stats s' = cache_stats s ∨
  (document_cache s !! md5_hexdigest E url = None ∧
   is_Some (document_cache s' !! md5_hexdigest E url) ∧
   cache_stats s' = (S (cache_stats s).1, S (cache_stats s).2)).
Proof.
  intros s s'.
  assert (Hagree : caches_agree s) by (by apply run_agree).
  pose proof (surjective_pairing (process_insurance_query E url questions s))
    as H. fold s' in H.
  apply process_spec in H.
  destruct (document_cache s !! md5_hexdigest E url) as [entry|] eqn:Hd.
  - left. destruct H as [(Hdc & Hvc & _) _]. unfold cache_stats.
    by rewrite Hdc, Hvc.
  - destruct H as (r1 & s1 & Hin & H).
    apply ingest_spec in Hin
      as (_ & _ & [(e & -> & Hdc & Hvc & _)|(-> & entry & index & Hdc & Hvc)]).
    + left. destruct H as [-> _]. unfold cache_stats. by rewrite Hdc, Hvc.
    + right. destruct H as (Hdc' & Hvc' & _). split; [done|]. split.
      * rewrite Hdc', Hdc, lookup_insert_eq. by eexists.
      * unfold cache_stats. simpl. rewrite Hdc', Hvc', Hdc, Hvc.
        rewrite !map_size_insert_None; [done| |done].
        apply not_elem_of_dom. rewrite <- Hagree. by apply not_elem_of_dom.
Qed.

(** X15. Clearing the caches evicts every document: the request that
    follows a clear starts with a download of its document, whatever was
    cached before. *)
Theorem clear_forces_reingestion
    (E : collaborators) (url : string) (questions : list string) (s : state) :
  let s' := (process_insurance_query E url questions (clear_cache s)).2 in
  ∃ d, trace s' = trace s ++ EvDownload url :: d.
Proof.
  intros s'.
  pose proof (surjective_pairing
                (process_insurance_query E url questions (clear_cache s)))
    as H. fold s' in H.
  apply process_spec in H. simpl in H. rewrite lookup_empty in H.
  destruct H as (r1 & s1 & Hin & H).
  apply ingest_starts_with_download in Hin as [d Hd]. simpl in Hd.
  destruct r1 as [[]|e].
  - destruct H as (_ & _ & _ & d' & Htr & _). rewrite Htr, Hd.
    rewrite <- app_assoc. simpl. by eexists.
  - destruct H as [-> _]. by eexists.
Qed.

(** * Retrieval and synthesis on their own *)

Section SynthesisFacts.
Variable E : collaborators.

Lemma ids_present_or_missing (chunks : list pydict) :
  match map_result (λ chunk, getitem chunk "id") chunks with
  | Ok ids => Forall (λ chunk : pydict, is_Some (chunk !! "id")) chunks
  | Raise e => e = Exception "'id'" ∧
               Exists (λ chunk : pydict, chunk !! "id" = None) chunks
  end.
Proof.
  induction chunks as [|c cs IH]; simpl; [done|].
  unfold getitem at 1. destruct (c !! "id") as [v|] eqn:Hc.
  - destruct (map_result _ cs) as [ids|e].
    + constructor; [by eexists|done].
    + destruct IH as [-> Hex]. split; [done|by right].
  - split; [done|by left].
Qed.

Lemma generate_intelligent_answer_cases question (chunks : list pydict) context :
  match generate_intelligent_answer E question chunks context with
  | Ok _ => Forall (λ chunk : pydict, is_Some (chunk !! "id")) chunks
  | Raise e => e = Exception "'id'" ∧
               Exists (λ chunk : pydict, chunk !! "id" = None) chunks
  end.
Proof.
  destruct (generate_intelligent_answer_shape E question chunks context)
    as (before & after & ->).
  unfold cite, cited_ids. pose proof (ids_present_or_missing chunks) as H.
  by destruct (map_result _ chunks).
Qed.

Lemma generate_intelligent_answer_ok question (chunks : list pydict) context :
  Forall (λ chunk : pydict, is_Some (chunk !! "id")) chunks →
  ∃ answer, generate_intelligent_answer E question chunks context = Ok answer.
Proof.
  intros Hall.
  pose proof (generate_intelligent_answer_cases question chunks context) as H.
  destruct (generate_intelligent_answer E question chunks context) as [a|e];
    [by eexists|].
  destruct H as [_ Hex]. apply Exists_exists in Hex as (c & Hc & Hnone).
  rewrite Forall_forall in Hall. destruct (Hall c Hc) as [v Hv]. congruence.
Qed.

Lemma clauses_ok (dicts : list pydict) :
  Forall (λ d : pydict, is_Some (d !! "id") ∧ is_Some (d !! "text")) dicts →
  ∃ clauses, map_result (clause_of E) dicts = Ok clauses.
Proof.
  induction 1 as [|d ds [[i Hi] [t Ht]] _ [clauses IH]]; simpl; [by eexists|].
  rewrite IH. unfold clause_of, getitem. rewrite Hi, Ht. by eexists.
Qed.

Lemma Forall2_compose {A B C} (P : A → B → Prop) (Q : C → B → Prop) xs ys :
  Forall2 P xs ys → ∀ zs, Forall2 Q zs ys →
  Forall2 (λ x z, ∃ y, P x y ∧ Q z y) xs zs.
Proof.
  induction 1 as [|x y xs ys Hxy _ IH]; intros zs Hz.
  - apply Forall2_nil_inv_r in Hz as ->. constructor.
  - apply Forall2_cons_inv_r in Hz as (z & zs' & Hzy & Hzs & ->).
    constructor; [by exists y|by apply IH].
Qed.

End SynthesisFacts.

(** X16. The rule-based responder succeeds exactly when every retrieved
    chunk has an id; otherwise it raises the key error ['id'], in every
    branch of its keyword cascade. *)
Theorem generate_intelligent_answer_needs_ids
    (E : collaborators) (question : string) (relevant_chunks : list pydict)
    (context : string) :
  match generate_intelligent_answer E question relevant_chunks context with
  | Ok _ => Forall (λ chunk : pydict, is_Some (chunk !! "id")) relevant_chunks
  | Raise e =>
      e = Exception "'id'" ∧
      Exists (λ chunk : pydict, chunk !! "id" = None) relevant_chunks
  end.
Proof. apply generate_intelligent_answer_cases. Qed.

(** X17. Answer synthesis does not fail on well-formed chunks: when every
    retrieved chunk has an id and a text, [answer_question] returns an
    answer and leaves the heap as it is.  The answer is the stripped text of
    the generative backend when one is configured and returns, and the
    rule-based answer when none is configured or the backend raises. *)
Theorem answer_question_falls_back
    (E : collaborators) (question : string) (relevant_chunks : list loc)
    (dicts : list pydict) (s : state)
    (Hrefs : resolves s relevant_chunks dicts)
    (Hfields : Forall (λ d : pydict, is_Some (d !! "id") ∧ is_Some (d !! "text"))
                      dicts) :
  ∃ clauses answer s',
    map_result (clause_of E) dicts = Ok clauses ∧
    answer_question E question relevant_chunks s = (Ok answer, s') ∧
    heap s' = heap s ∧
    let context := PyStr.join (PyStr.LF +:+ PyStr.LF) clauses in
    match gemini_model E with
    | Some generate_content =>
        match generate_content (build_prompt question context) with
        | Returned text => answer = PyStr.strip text
        | Raised _ =>
            generate_intelligent_answer E question dicts context = Ok answer
        end
    | None => generate_intelligent_answer E question dicts context = Ok answer
    end.
Proof.
  destruct (answer_question_pure E question _ _ _ Hrefs) as (s' & Hrun & Hheap).
  destruct (clauses_ok E dicts Hfields) as [clauses Hcl].
  destruct (generate_intelligent_answer_ok E question dicts
              (PyStr.join (PyStr.LF +:+ PyStr.LF) clauses)) as [fallback Hfb].
  { eapply Forall_impl; [exact Hfields|]. by intros d [? _]. }
  unfold answer_of in Hrun. rewrite Hcl in Hrun. cbv zeta in *.
  exists clauses.
  destruct (gemini_model E) as [generate_content|].
  - destruct (generate_content _) as [text|msg].
    + by exists (PyStr.strip text), s'.
    + exists fallback, s'. by rewrite <- Hfb.
  - exists fallback, s'. by rewrite <- Hfb.
Qed.

(** X18. Retrieval returns one new dictionary for every search hit whose
    position is not [-1], in the order of the hits: a copy of the cached
    chunk at that position with its score as [similarity_score].  The
    returned references are distinct and new, and the cached chunks
    themselves are left as they were. *)
Theorem retrieve_relevant_chunks_spec
    (E : collaborators) (query : string) (index : faiss_index)
    (chunks : list loc) (cached : list pydict) (top_k : Z) (s s' : state)
    (relevant_chunks : list loc)
    (Hchunks : resolves s chunks cached)
    (Hok : retrieve_relevant_chunks E query index chunks top_k s
           = (Ok relevant_chunks, s')) :
  ∃ query_embedding hits,
    encode E [query] = Returned query_embedding ∧
    index_search E index (normalize_L2 E query_embedding) top_k = Returned hits ∧
    Forall2 (λ (hit : spec_float * Z) l,
               ∃ d, py_index cached hit.2 = Ok d ∧
                    heap s' !! l = Some (<["similarity_score" := VFloat hit.1]> d))
            (filter (λ hit : spec_float * Z, hit.2 ≠ -1) hits) relevant_chunks ∧
    NoDup relevant_chunks ∧
    Forall (λ l, heap s !! l = None) relevant_chunks ∧
    resolves s' chunks cached.
Proof.
  destruct (retrieve_pure E query index chunks cached top_k s Hchunks)
    as (s1 & Hsub & Hpure).
  pose proof (retrieve_frame E (heap s) _ _ _ _ _ _ _ (reflexivity _) Hok)
    as [_ Hfresh].
  destruct (Hfresh _ eq_refl) as [Hfresh' _].
  unfold retrieval_of in Hpure.
  destruct (encode E [query]) as [qe|msg] eqn:Hqe; [|by rewrite Hpure in Hok].
  destruct (index_search E index _ top_k) as [hits|msg] eqn:Hhits;
    [|by rewrite Hpure in Hok].
  destruct (scored_copies cached hits) as [ds|e] eqn:Hsc;
    [|by rewrite Hpure in Hok].
  destruct Hpure as (rel & Hrun & Hres & Hnd).
  rewrite Hrun in Hok. injection Hok as -> ->.
  exists qe, hits. split_and!; [done|done| |done|done|].
  - apply scored_copies_ok in Hsc.
    eapply Forall2_impl; [exact (Forall2_compose _ _ _ _ Hsc _ Hres)|].
    intros hit l (d' & (d & Hpy & ->) & Hl). by exists d.
  - by eapply resolves_weaken.
Qed.

(** * The further properties on the worked configuration *)

Ltac demo_resolves :=
  unfold resolves; vm_compute; constructor; [vm_compute; reflexivity|constructor].

Lemma cached_request_is_functional_witness :
  let s := demo_state demo in
  gemini_model demo = None ∧
  document_cache s !! md5_hexdigest demo demo_url = Some demo_entry ∧
  vector_store_cache s !! md5_hexdigest demo demo_url = Some demo_index ∧
  resolves s (entry_chunks demo_entry) demo_cached ∧
  map_result (outcome_of demo demo_index demo_cached) demo_questions
    = Ok demo_outs ∧
  ∃ s' sources,
    process_insurance_query demo demo_url demo_questions s
      = (Ok (Response demo_outs.*1 sources), s') ∧
    resolves s' sources (concat demo_outs.*2).
Proof.
  intros s.
  assert (Hdoc : document_cache s !! md5_hexdigest demo demo_url = Some demo_entry)
    by (vm_compute; reflexivity).
  assert (Hindex : vector_store_cache s !! md5_hexdigest demo demo_url
                   = Some demo_index) by (vm_compute; reflexivity).
  assert (Hchunks : resolves s (entry_chunks demo_entry) demo_cached)
    by demo_resolves.
  assert (Houts : map_result (outcome_of demo demo_index demo_cached) demo_questions
                  = Ok demo_outs) by (vm_compute; reflexivity).
  split; [reflexivity|].
  split; [exact Hdoc|]. split; [exact Hindex|]. split; [exact Hchunks|].
  split; [exact Houts|].
  destruct (cached_request_is_functional demo demo_url demo_questions s
              demo_entry demo_index demo_cached demo_outs
              eq_refl Hdoc Hindex Hchunks Houts) as (s' & sources & Hrun & Hres & _).
  exists s', sources. split; [exact Hrun|exact Hres].
Defined.

Lemma batch_answer_equals_single_answer_witness :
  let s := demo_state demo in
  let out := process_insurance_query demo demo_url demo_questions s in
  let resp := match out.1 with Ok resp => resp | Raise _ => Response [] [] end in
  gemini_model demo = None ∧
  document_cache s !! md5_hexdigest demo demo_url = Some demo_entry ∧
  vector_store_cache s !! md5_hexdigest demo demo_url = Some demo_index ∧
  resolves s (entry_chunks demo_entry) demo_cached ∧
  out = (Ok resp, out.2) ∧
  demo_questions !! 1%nat = Some "What is the grace period?" ∧
  ∃ answer sources s1,
    answers resp !! 1%nat = Some answer ∧
    process_insurance_query demo demo_url ["What is the grace period?"] s
      = (Ok (Response [answer] sources), s1).
Proof.
  intros s out resp.
  assert (Hdoc : document_cache s !! md5_hexdigest demo demo_url = Some demo_entry)
    by (vm_compute; reflexivity).
  assert (Hindex : vector_store_cache s !! md5_hexdigest demo demo_url
                   = Some demo_index) by (vm_compute; reflexivity).
  assert (Hchunks : resolves s (entry_chunks demo_entry) demo_cached)
    by demo_resolves.
  assert (Hok : out = (Ok resp, out.2)).
  { rewrite (surjective_pairing out) at 1. f_equal; vm_compute; reflexivity. }
  split; [reflexivity|].
  split; [exact Hdoc|]. split; [exact Hindex|]. split; [exact Hchunks|].
  split; [exact Hok|]. split; [reflexivity|].
  exact (batch_answer_equals_single_answer demo demo_url demo_questions s out.2
           demo_entry demo_index demo_cached resp 1%nat
           "What is the grace period?" eq_refl Hdoc Hindex Hchunks Hok eq_refl).
Defined.

Lemma failing_question_aborts_request_witness :
  let s := demo_state demo_bad_hit in
  let e := Exception "list index out of range" in
  document_cache s !! md5_hexdigest demo_bad_hit demo_url = Some demo_entry ∧
  vector_store_cache s !! md5_hexdigest demo_bad_hit demo_url = Some demo_index ∧
  resolves s (entry_chunks demo_entry) demo_cached ∧
  map_result (outcome_of demo_bad_hit demo_index demo_cached) [] = Ok [] ∧
  outcome_of demo_bad_hit demo_index demo_cached "Is surgery covered?" = Raise e ∧
  ∃ detail s',
    process_insurance_query demo_bad_hit demo_url
      ([] ++ "Is surgery covered?" :: ["What is the grace period?"]) s
      = (Raise (HTTPException 500 detail), s') ∧
    boundary (@Raise response e) = Raise (HTTPException 500 detail) ∧
    document_cache s' !! md5_hexdigest demo_bad_hit demo_url = Some demo_entry.
Proof.
  intros s e.
  assert (Hdoc : document_cache s !! md5_hexdigest demo_bad_hit demo_url
                 = Some demo_entry) by (vm_compute; reflexivity).
  assert (Hindex : vector_store_cache s !! md5_hexdigest demo_bad_hit demo_url
                   = Some demo_index) by (vm_compute; reflexivity).
  assert (Hchunks : resolves s (entry_chunks demo_entry) demo_cached)
    by demo_resolves.
  assert (Hfails : outcome_of demo_bad_hit demo_index demo_cached
                     "Is surgery covered?" = Raise e)
    by (vm_compute; reflexivity).
  split; [exact Hdoc|]. split; [exact Hindex|]. split; [exact Hchunks|].
  split; [reflexivity|]. split; [exact Hfails|].
  exact (failing_question_aborts_request demo_bad_hit demo_url []
           ["What is the grace period?"] "Is surgery covered?" s demo_entry
           demo_index demo_cached [] e Hdoc Hindex Hchunks eq_refl Hfails).
Defined.

Lemma cached_chunks_stay_as_built_witness :
  let ops := [OpProcess demo_url demo_questions; OpStats;
              OpProcess demo_url demo_questions] in
  let s := run demo ops initial_state in
  document_cache s !! md5_hexdigest demo demo_url = Some demo_entry ∧
  resolves s (entry_chunks demo_entry)
    (dict_of_chunk <$> chunk_text (entry_text demo_entry) 1000 200) ∧
  length (entry_chunks demo_entry)
    = length (chunk_text (entry_text demo_entry) 1000 200) ∧
  is_Some (vector_store_cache s !! md5_hexdigest demo demo_url).
Proof.
  intros ops s.
  assert (Hcached : document_cache s !! md5_hexdigest demo demo_url
                    = Some demo_entry) by (vm_compute; reflexivity).
  split; [exact Hcached|].
  exact (cached_chunks_stay_as_built demo ops (md5_hexdigest demo demo_url)
           demo_entry Hcached).
Defined.

Lemma source_chunks_are_scored_document_chunks_witness :
  let out := process_insurance_query demo demo_url demo_questions
               (run demo [] initial_state) in
  out = (Ok demo_response, out.2) ∧
  ∃ entry,
    document_cache out.2 !! md5_hexdigest demo demo_url = Some entry ∧
    ∀ l, l ∈ source_chunks demo_response →
      ∃ c score,
        c ∈ chunk_text (entry_text entry) 1000 200 ∧
        heap out.2 !! l = Some (<["score" := VFloat score]> (dict_of_chunk c)).
Proof.
  intros out.
  assert (Hok : out = (Ok demo_response, out.2)).
  { rewrite (surjective_pairing out) at 1. f_equal; vm_compute; reflexivity. }
  split; [exact Hok|].
  exact (source_chunks_are_scored_document_chunks demo [] demo_url
           demo_questions demo_response out.2 Hok).
Defined.

Lemma request_failures_witness :
  let out := process_insurance_query demo_blank demo_url demo_questions
               (run demo_blank [] initial_state) in
  let e := HTTPException 400 "No text found in PDF" in
  out = (Raise e, out.2) ∧
  ((∃ detail, e = HTTPException 500 detail) ∨
   (document_error e ∧
    document_cache (run demo_blank [] initial_state)
      !! md5_hexdigest demo_blank demo_url = None ∧
    document_cache out.2 = document_cache (run demo_blank [] initial_state) ∧
    vector_store_cache out.2
      = vector_store_cache (run demo_blank [] initial_state) ∧
    heap out.2 = heap (run demo_blank [] initial_state))) ∧
  e ≠ HTTPException 400 "No valid chunks created from document".
Proof.
  intros out e.
  assert (Hfail : out = (Raise e, out.2)).
  { rewrite (surjective_pairing out) at 1. f_equal; vm_compute; reflexivity. }
  split; [exact Hfail|].
  exact (request_failures demo_blank [] demo_url demo_questions e out.2 Hfail).
Defined.

Lemma first_request_stores_document_witness :
  let s' := (process_insurance_query demo demo_url demo_questions initial_state).2 in
  document_cache initial_state !! md5_hexdigest demo demo_url = None ∧
  http_get demo demo_url = Returned [] ∧
  pdf_pages demo [] = Returned [Some demo_text] ∧
  PyStr.strip (join_pages [Some demo_text]) ≠ "" ∧
  encode demo (chunk_text_of <$> chunk_text (join_pages [Some demo_text]) 1000 200)
    = Returned [[S754_zero false]] ∧
  index_add demo (normalize_L2 demo [[S754_zero false]]) = Returned demo_index ∧
  ∃ refs,
    document_cache s'
      = <[md5_hexdigest demo demo_url := DocEntry refs (join_pages [Some demo_text])]>
          (document_cache initial_state) ∧
    vector_store_cache s'
      = <[md5_hexdigest demo demo_url := demo_index]>
          (vector_store_cache initial_state) ∧
    resolves s' refs
      (dict_of_chunk <$> chunk_text (join_pages [Some demo_text]) 1000 200) ∧
    refs ≠ [].
Proof.
  intros s'.
  assert (Htext : PyStr.strip (join_pages [Some demo_text]) ≠ "")
    by (vm_compute; discriminate).
  assert (Henc : encode demo (chunk_text_of
                    <$> chunk_text (join_pages [Some demo_text]) 1000 200)
                 = Returned [[S754_zero false]]) by (vm_compute; reflexivity).
  split; [reflexivity|]. split; [reflexivity|]. split; [reflexivity|].
  split; [exact Htext|]. split; [exact Henc|]. split; [reflexivity|].
  exact (first_request_stores_document demo demo_url demo_questions
           initial_state [] [Some demo_text] [[S754_zero false]] demo_index
           eq_refl eq_refl eq_refl Htext Henc eq_refl).
Defined.

Lemma answer_question_falls_back_witness :
  let s := demo_state demo in
  let question := "Is surgery covered?" in
  resolves s (entry_chunks demo_entry) demo_cached ∧
  Forall (λ d : pydict, is_Some (d !! "id") ∧ is_Some (d !! "text")) demo_cached ∧
  ∃ clauses answer s',
    map_result (clause_of demo) demo_cached = Ok clauses ∧
    answer_question demo question (entry_chunks demo_entry) s = (Ok answer, s') ∧
    heap s' = heap s ∧
    generate_intelligent_answer demo question demo_cached
      (PyStr.join (PyStr.LF +:+ PyStr.LF) clauses) = Ok answer.
Proof.
  intros s question.
  assert (Hrefs : resolves s (entry_chunks demo_entry) demo_cached)
    by demo_resolves.
  assert (Hfields : Forall (λ d : pydict,
                              is_Some (d !! "id") ∧ is_Some (d !! "text"))
                           demo_cached).
  { let x := eval vm_compute in demo_cached in change demo_cached with x.
    constructor; [|constructor].
    split; eexists; vm_compute; reflexivity. }
  split; [exact Hrefs|]. split; [exact Hfields|].
  exact (answer_question_falls_back demo question (entry_chunks demo_entry)
           demo_cached s Hrefs Hfields).
Defined.

Lemma retrieve_relevant_chunks_spec_witness :
  let s := demo_state demo in
  let query := "Is surgery covered?" in
  let out := retrieve_relevant_chunks demo query demo_index
               (entry_chunks demo_entry) 5 s in
  resolves s (entry_chunks demo_entry) demo_cached ∧
  out = (Ok demo_retrieved, out.2) ∧
  length demo_retrieved = 1%nat ∧
  NoDup demo_retrieved ∧
  Forall (λ l, heap s !! l = None) demo_retrieved ∧
  resolves out.2 (entry_chunks demo_entry) demo_cached.
Proof.
  intros s query out.
  assert (Hchunks : resolves s (entry_chunks demo_entry) demo_cached)
    by demo_resolves.
  assert (Hok : out = (Ok demo_retrieved, out.2)).
  { rewrite (surjective_pairing out) at 1. f_equal; vm_compute; reflexivity. }
  split; [exact Hchunks|]. split; [exact Hok|]. split; [reflexivity|].
  destruct (retrieve_relevant_chunks_spec demo query demo_index
              (entry_chunks demo_entry) demo_cached 5 s out.2 demo_retrieved
              Hchunks Hok) as (qe & hits & _ & _ & _ & Hnd & Hfresh & Hres).
  split; [exact Hnd|]. split; [exact Hfresh|exact Hres].
Defined.

(** * Paragraphs that exceed the chunk size *)

Section OversizedFacts.
Import PyStr.
Variables chunk_size overlap : Z.

Lemma one_per_paragraph_snoc texts ps t' p :
  one_per_paragraph overlap texts ps → last texts = Some t' →
  one_per_paragraph overlap (texts ++ [seed_of overlap t' +:+ p]) (ps ++ [p]).
Proof.
  intros [Hlen H] Hlast. split; [rewrite !length_app; simpl; lia|].
  intros k t q Hk Hq.
  apply lookup_app_Some in Hk as [Hk|[Hge Hk]].
  - assert (Hq' : ps !! k = Some q).
    { apply lookup_lt_Some in Hk. by rewrite lookup_app_l in Hq by lia. }
    specialize (H k t q Hk Hq'). destruct k as [|j]; [done|].
    destruct H as (t'' & Ht'' & ->). exists t''. split; [|done].
    by apply lookup_app_l_Some.
  - apply list_lookup_singleton_Some in Hk as [Hk0 <-].
    assert (k = length texts) as -> by lia.
    rewrite lookup_app_r in Hq by lia.
    rewrite Hlen, Nat.sub_diag in Hq. injection Hq as <-.
    rewrite last_lookup in Hlast.
    destruct (length texts) as [|n] eqn:Hl.
    { destruct texts; [done|discriminate Hl]. }
    exists t'. split; [|done]. by apply lookup_app_l_Some.
Qed.

Lemma after_flush_seed cur p :
  (if truthy (overlap_text_of overlap cur)
   then overlap_text_of overlap cur +:+ " " +:+ p else p)
  = seed_of overlap cur +:+ p.
Proof.
  unfold seed_of. destruct (truthy _); [|done]. by rewrite app_assoc'.
Qed.

Lemma chunk_step_oversized st done p :
  chunker_inv st → solid p → chunk_size < len p →
  oversized_inv overlap st done →
  oversized_inv overlap (chunk_step chunk_size overlap st p) (done ++ [p]).
Proof.
  intros (_ & _ & _ & Hcur) Hp Hlong [Hone Hempty].
  unfold chunk_step, must_flush.
  destruct (truthy (st_current st)) eqn:Ht.
  - assert (Hgt : (len (st_current st) + len p >? chunk_size) = true).
    { apply Z.gtb_lt. unfold len in *. lia. }
    rewrite Hgt. cbn [andb].
    destruct (cur_ok_truthy _ Hcur Ht) as [Hs He].
    pose proof (solid_after_flush overlap (st_current st) p Hp) as [Hs' _].
    apply starts_solid_truthy in Hs'.
    split; [|cbn [st_current]; by rewrite Hs'].
    unfold buffer_texts in *. cbn [st_chunks st_current]. rewrite Hs'.
    rewrite Ht in Hone.
    rewrite fmap_app. cbn [fmap list_fmap make_chunk chunk_text_of].
    rewrite strip_solid by done. rewrite after_flush_seed.
    apply one_per_paragraph_snoc; [done|]. apply last_snoc.
  - rewrite andb_false_r. cbv iota.
    specialize (Hempty eq_refl). unfold buffer_texts in Hone.
    rewrite Ht, Hempty in Hone. simpl in Hone. destruct Hone as [Hlen _].
    destruct done; [|done]. simpl.
    destruct Hp as [Hps _]. apply starts_solid_truthy in Hps.
    unfold oversized_inv, buffer_texts. cbn [st_chunks st_current].
    rewrite Hps, Hempty. simpl.
    split; [|done].
    split; [done|]. intros [|k] t q Hk Hq; simpl in *; [congruence|done].
Qed.

Lemma chunk_loop_oversized ps : ∀ st done,
  chunker_inv st → Forall solid ps →
  (∀ p, p ∈ ps → chunk_size < len p) →
  oversized_inv overlap st done →
  oversized_inv overlap (chunk_loop chunk_size overlap st ps) (done ++ ps).
Proof.
  induction ps as [|p ps IH]; intros st done Hst Hps Hlong Hinv.
  - by rewrite app_nil_r.
  - inversion Hps; subst. simpl.
    replace (done ++ p :: ps) with ((done ++ [p]) ++ ps)
      by (by rewrite <- app_assoc).
    apply IH; [by apply chunk_step_inv|done| |].
    + intros q Hq. apply Hlong. by right.
    + apply chunk_step_oversized; [done..| |done]. apply Hlong. by left.
Qed.

Lemma chunk_finish_texts st :
  cur_ok (st_current st) →
  chunk_text_of <$> chunk_finish st = buffer_texts st.
Proof.
  intros Hcur. unfold chunk_finish, buffer_texts.
  destruct (truthy (st_current st)) eqn:Ht; [|by rewrite app_nil_r].
  destruct (cur_ok_truthy _ Hcur Ht) as [Hs He].
  rewrite fmap_app. simpl. by rewrite strip_solid.
Qed.

Lemma chunk_text_oversized text :
  (∀ p, p ∈ paragraphs_of text → chunk_size < len p) →
  one_per_paragraph overlap
    (chunk_text_of <$> chunk_text text chunk_size overlap) (paragraphs_of text).
Proof.
  intros Hlong. pose proof (paragraphs_of_solid text) as Hps.
  pose proof (chunk_loop_inv chunk_size overlap _ _ chunker_init_inv Hps)
    as (_ & _ & _ & Hcur).
  unfold chunk_text. rewrite chunk_finish_texts by done.
  apply (chunk_loop_oversized _ chunker_init []);
    [apply chunker_init_inv|done|done|].
  split; [|done]. split; [done|]. by intros [|k] t p Hk.
Qed.

End OversizedFacts.

(** X19. When every paragraph is longer than [chunk_size] (as with a
    [chunk_size] of zero or less), every paragraph gets a chunk of its own:
    there are as many chunks as paragraphs, the first chunk is the first
    paragraph, and every later chunk is its paragraph behind the overlap
    seed of the chunk before it. *)
Theorem chunk_text_one_chunk_per_oversized_paragraph
    (text : string) (chunk_size overlap : Z)
    (Hlong : ∀ p, p ∈ paragraphs_of text → chunk_size < PyStr.len p) :
  let chunks := chunk_text text chunk_size overlap in
  length chunks = length (paragraphs_of text) ∧
  ∀ (k : nat) c p, chunks !! k = Some c → paragraphs_of text !! k = Some p →
    match k with
    | O => chunk_text_of c = p
    | S j => ∃ c', chunks !! j = Some c' ∧
                   chunk_text_of c = seed_of overlap (chunk_text_of c') +:+ p
    end.
Proof.
  intros chunks.
  destruct (chunk_text_oversized chunk_size overlap text Hlong) as [Hlen H].
  fold chunks in Hlen, H. rewrite length_fmap in Hlen. split; [done|].
  intros k c p Hk Hp.
  assert (Hk' : (chunk_text_of <$> chunks) !! k = Some (chunk_text_of c))
    by (by rewrite list_lookup_fmap, Hk).
  specialize (H k _ p Hk' Hp). destruct k as [|j]; [done|].
  destruct H as (t' & Ht' & Heq).
  rewrite list_lookup_fmap in Ht'.
  destruct (chunks !! j) as [c'|]; [|done]. injection Ht' as <-.
  by exists c'.
Qed.

Lemma chunk_text_one_chunk_per_oversized_paragraph_witness :
  let text := two_paragraphs "a b c d" "bbbb" in
  (∀ p, p ∈ paragraphs_of text → 3 < PyStr.len p) ∧
  length (chunk_text text 3 20) = length (paragraphs_of text).
Proof.
  assert (H : ∀ p, p ∈ paragraphs_of (two_paragraphs "a b c d" "bbbb") →
                   3 < PyStr.len p).
  { intros p Hp. vm_compute in Hp.
    apply elem_of_cons in Hp as [->|Hp]; [reflexivity|].
    apply elem_of_cons in Hp as [->|Hp]; [reflexivity|].
    by apply elem_of_nil in Hp. }
  split; [exact H|].
  exact (proj1 (chunk_text_one_chunk_per_oversized_paragraph _ 3 20 H)).
Defined.

Lemma chunk_text_size_bound_witness :
  let c := Chunk 0 demo_text "chunk_0" in
  c ∈ chunk_text demo_text 1000 200 ∧
  (PyStr.len (chunk_text_of c) ≤ 1000 + 2 ∨
   ∃ p b, p ∈ paragraphs_of demo_text ∧
          chunk_text_of c = seed_of 200 b +:+ p).
Proof.
  intros c.
  assert (Hc : c ∈ chunk_text demo_text 1000 200) by (vm_compute; left).
  split; [exact Hc|].
  exact (chunk_text_size_bound demo_text 1000 200 c Hc).
Defined.
